(** * TCG event log decoder: [cctrusted_base/eventlog.py]

    A shallow embedding of the class [TcgEventLog] and of the properties
    its specification states about it.

    Python values are embedded as follows.
    - [bytes] is [list byte]; a slice [d[a:]] is [skipn], [d[:n]] is
      [firstn].
    - [int] is [Z]: Python integers do not wrap, so [imr_index - 1] on a
      stored 0 is -1.
    - An exception is an outcome [Raise e]; the object keeps whatever was
      written to it before the exception left the method, so a method is
      a function from the world before the call to an outcome and the
      world after it.
    - The module-level logger [LOG] is a list of emitted records, newest
      last. *)

From Stdlib Require Import Strings.String Strings.Byte.
From Stdlib Require Import ZArith List Lia Bool.
Import ListNotations.
Local Open Scope Z_scope.

(** ** Outcomes *)

(** The exceptions the decoder can leave a method with. *)
Inductive exn : Type :=
| OutOfBounds                        (* a cursor read past the end of the buffer *)
| ValueError_no_algorithm (alg_id : Z)
    (* ValueError(f'No algorithm with such algo_id {alg_id} found') *)
| ValueError_start                   (* ValueError('Invalid parameter start.') *)
| ValueError_count                   (* ValueError('Invalid parameter count.') *)
| TypeError_len_None                 (* len(None) *)
| AttributeError_digest_sizes.       (* None.digest_sizes *)

(** [OutOfFuel] is not a Python outcome: it marks a loop of the model that
    used up its fuel.  [_parse_total] and [select_total] show that the
    methods never yield it. *)
Inductive outcome (A : Type) : Type :=
| Return (a : A)
| Raise (e : exn)
| OutOfFuel.
Arguments Return {A} a.
Arguments Raise {A} e.
Arguments OutOfFuel {A}.

(** Sequencing of reads that touch no state. *)
Definition obind {A B : Type} (m : outcome A) (k : A -> outcome B) : outcome B :=
  match m with
  | Return a => k a
  | Raise e => Raise e
  | OutOfFuel => OutOfFuel
  end.

Declare Scope outcome_scope.
Delimit Scope outcome_scope with outcome.
Notation "x <- m ;; k" := (obind m (fun x => k))
  (at level 61, m at next level, right associativity) : outcome_scope.
Notation "' pat <- m ;; k" := (obind m (fun x => match x with pat => k end))
  (at level 61, pat pattern, m at next level, right associativity) : outcome_scope.

(** ** Bytes and little-endian integers *)

(** The value of a byte, 0 to 255. *)
Definition byte_val (b : byte) : Z := Z.of_N (Byte.to_N b).

(** [struct.unpack("<H" / "<L", bs)[0]]: the little-endian value of [bs]. *)
Fixpoint le_value (bs : list byte) : Z :=
  match bs with
  | [] => 0
  | b :: bs' => byte_val b + 256 * le_value bs'
  end.

(** [len(l)]. *)
Definition len {A : Type} (l : list A) : Z := Z.of_nat (length l).

(** [d[a:b]] for [0 <= a <= b]. *)
Definition slice (d : list byte) (a b : Z) : list byte :=
  firstn (Z.to_nat (b - a)) (skipn (Z.to_nat a) d).

(** ** Cursor reader *)

Module BinaryBlob.

(** Modelled from the spec: the class [BinaryBlob] of
    [cctrusted_base/binaryblob.py] is not among the sources.  Section 4.1
    gives its contract: each read returns the decoded value
    (little-endian for multi-byte integers) and the offset immediately
    following it, and fails with OutOfBounds if the requested width or
    length would read past the buffer end. *)
Definition get_bytes (data : list byte) (pos count : Z) : outcome (list byte * Z) :=
  if pos + count <=? len data
  then Return (slice data pos (pos + count), pos + count)
  else Raise OutOfBounds.

(** Modelled from the spec: a [u8] read of the cursor reader (section 4.1). *)
Definition get_uint8 (data : list byte) (pos : Z) : outcome (Z * Z) :=
  if pos + 1 <=? len data
  then Return (le_value (slice data pos (pos + 1)), pos + 1)
  else Raise OutOfBounds.

(** Modelled from the spec: a little-endian [u16] read (section 4.1). *)
Definition get_uint16 (data : list byte) (pos : Z) : outcome (Z * Z) :=
  if pos + 2 <=? len data
  then Return (le_value (slice data pos (pos + 2)), pos + 2)
  else Raise OutOfBounds.

(** Modelled from the spec: a little-endian [u32] read (section 4.1). *)
Definition get_uint32 (data : list byte) (pos : Z) : outcome (Z * Z) :=
  if pos + 4 <=? len data
  then Return (le_value (slice data pos (pos + 4)), pos + 4)
  else Raise OutOfBounds.

End BinaryBlob.

(** ** Value types of [cctrusted_base.tcg] *)

(** Modelled from the spec: the event type the format reserves for
    no-action records, [TcgEventType.EV_NO_ACTION]; its declaration is not
    among the sources, the value is the one the TCG PC Client profile
    assigns to it. *)
Definition EV_NO_ACTION : Z := 3.

(** Modelled from the spec: [TcgEfiSpecIdEventAlgorithmSize(algo_id,
    digest_size)], the DigestAlgorithmSize of section 3. *)
Record TcgEfiSpecIdEventAlgorithmSize : Type := mkAlgorithmSize {
  algo_id : Z;
  digest_size : Z
}.

(** Modelled from the spec: [TcgPcClientImrEvent], built by
    [_parse_header] from the five fields of the leading record. *)
Record TcgPcClientImrEvent : Type := mkPcClientImrEvent {
  hdr_imr_index : Z;
  hdr_event_type : Z;
  hdr_digest : list byte;
  hdr_event_size : Z;
  hdr_event : list byte
}.

(** Modelled from the spec: [TcgEfiSpecIdEvent], the SpecHeader of
    section 3, with the constructor arguments [_parse_header] passes. *)
Record TcgEfiSpecIdEvent : Type := mkEfiSpecIdEvent {
  signature : list byte;
  platform_class : Z;
  spec_version_minor : Z;
  spec_version_major : Z;
  spec_errata : Z;
  uintn_size : Z;
  number_of_algorithms : Z;
  digest_sizes : list TcgEfiSpecIdEventAlgorithmSize;
  vendor_info_size : Z;
  vendor_info : list byte
}.

(** Modelled from the spec: [TcgDigest(alg_id, digest_data)]. *)
Record TcgDigest : Type := mkDigest {
  alg_id : Z;
  hash : list byte
}.

(** Modelled from the spec: [TcgImrEventLogEntry], the MeasurementRecord
    of section 3. *)
Record TcgImrEventLogEntry : Type := mkImrEventLogEntry {
  imr_index : Z;
  event_type : Z;
  digests : list TcgDigest;
  event_size : Z;
  event : list byte
}.

(** ** The object and the world *)

(** The attributes [__init__] gives an instance. *)
Record TcgEventLog : Type := mkTcgEventLog {
  _data : option (list byte);
  _spec_id_header : option TcgPcClientImrEvent;
  _spec_id_header_event : option TcgEfiSpecIdEvent;
  _event_logs : list TcgImrEventLogEntry;
  _count : Z
}.

(** [TcgEventLog.__init__]. *)
Definition __init__ (data : option (list byte)) : TcgEventLog :=
  {| _data := data;
     _spec_id_header := None;
     _spec_id_header_event := None;
     _event_logs := [];
     _count := 0 |}.

(** What [LOG] was asked to emit. *)
Inductive log_record : Type :=
| LOG_error (msg : string).

(** The object and the logger. *)
Record world : Type := mkWorld {
  self : TcgEventLog;
  LOG : list log_record
}.

(** A method body: the world before it to its outcome and the world after. *)
Definition M (A : Type) : Type := world -> outcome A * world.

(** A statement that yields [a] and touches nothing. *)
Definition ret {A : Type} (a : A) : M A := fun w => (Return a, w).

(** [raise e]: the world stays as it is when the exception leaves. *)
Definition raise {A : Type} (e : exn) : M A := fun w => (Raise e, w).

(** Sequencing: an exception in [m] skips [k] and keeps the world [m]
    left. *)
Definition bind {A B : Type} (m : M A) (k : A -> M B) : M B :=
  fun w =>
    match m w with
    | (Return a, w') => k a w'
    | (Raise e, w') => (Raise e, w')
    | (OutOfFuel, w') => (OutOfFuel, w')
    end.

(** A read of the cursor reader inside a method: it touches no state. *)
Definition lift {A : Type} (r : outcome A) : M A := fun w => (r, w).

(** Reading and writing attributes of [self]. *)
Definition get_self : M TcgEventLog := fun w => (Return (self w), w).

Definition set_self (f : TcgEventLog -> TcgEventLog) : M unit :=
  fun w => (Return tt, {| self := f (self w); LOG := LOG w |}).

(** [LOG.error(msg)]. *)
Definition LOG_error_ (msg : string) : M unit :=
  fun w => (Return tt, {| self := self w; LOG := LOG w ++ [LOG_error msg] |}).

Declare Scope method_scope.
Delimit Scope method_scope with method.
Notation "x <- m ;; k" := (bind m (fun x => k))
  (at level 61, m at next level, right associativity) : method_scope.
Notation "' pat <- m ;; k" := (bind m (fun x => match x with pat => k end))
  (at level 61, pat pattern, m at next level, right associativity) : method_scope.
Notation "m ;; k" := (bind m (fun _ => k))
  (at level 61, right associativity) : method_scope.

(** Attribute assignments [self._x = v]. *)
Definition set_spec_id_header (v : TcgPcClientImrEvent) (o : TcgEventLog) : TcgEventLog :=
  {| _data := _data o;
     _spec_id_header := Some v;
     _spec_id_header_event := _spec_id_header_event o;
     _event_logs := _event_logs o;
     _count := _count o |}.

Definition set_spec_id_header_event (v : TcgEfiSpecIdEvent) (o : TcgEventLog) : TcgEventLog :=
  {| _data := _data o;
     _spec_id_header := _spec_id_header o;
     _spec_id_header_event := Some v;
     _event_logs := _event_logs o;
     _count := _count o |}.

Definition set_event_logs (v : list TcgImrEventLogEntry) (o : TcgEventLog) : TcgEventLog :=
  {| _data := _data o;
     _spec_id_header := _spec_id_header o;
     _spec_id_header_event := _spec_id_header_event o;
     _event_logs := v;
     _count := _count o |}.

(** [self._event_logs.append(e)]. *)
Definition append_event_log (e : TcgImrEventLogEntry) (o : TcgEventLog) : TcgEventLog :=
  set_event_logs (_event_logs o ++ [e]) o.

(** [self._count += 1]. *)
Definition incr_count (o : TcgEventLog) : TcgEventLog :=
  {| _data := _data o;
     _spec_id_header := _spec_id_header o;
     _spec_id_header_event := _spec_id_header_event o;
     _event_logs := _event_logs o;
     _count := _count o + 1 |}.

(** ** [TcgEventLog._parse_header] *)

Import BinaryBlob.

(** The loop [for _ in range(spec_id_num_of_algo)] of [_parse_header]:
    [n] iterations left, cursor at [index], [acc] the list
    [spec_id_digest_sizes] built so far. *)
Fixpoint header_algo_loop (n : nat) (blob : list byte) (index : Z)
    (acc : list TcgEfiSpecIdEventAlgorithmSize)
    : outcome (list TcgEfiSpecIdEventAlgorithmSize * Z) :=
  match n with
  | O => Return (acc, index)
  | S n' =>
      ('(algo_id, index) <- get_uint16 blob index ;;
       '(digest_size, index) <- get_uint16 blob index ;;
       header_algo_loop n' blob index (acc ++ [mkAlgorithmSize algo_id digest_size]))%outcome
  end.

(** The method, statement by statement; [blob] is [BinaryBlob(data, 0)].
    It writes [self._spec_id_header] once the five fields of the record are
    read and [self._spec_id_header_event] once the SpecHeader is, and
    returns the cursor it has come to. *)
Definition _parse_header (data : list byte) : M Z :=
  (let index := 0 in
   let blob := data in
   '(imr_index, index) <- lift (get_uint32 blob index) ;;
   let header_imr := imr_index - 1 in
   '(header_event_type, index) <- lift (get_uint32 blob index) ;;
   '(digest, index) <- lift (get_bytes blob index 20) ;;
   '(header_event_size, index) <- lift (get_uint32 blob index) ;;
   '(header_event, _) <- lift (get_bytes blob index header_event_size) ;;
   set_self (set_spec_id_header
               (mkPcClientImrEvent header_imr header_event_type digest
                                   header_event_size header_event)) ;;
   '(spec_id_signature, index) <- lift (get_bytes blob index 16) ;;
   '(spec_id_platform_cls, index) <- lift (get_uint32 blob index) ;;
   '(spec_id_version_minor, index) <- lift (get_uint8 blob index) ;;
   '(spec_id_version_major, index) <- lift (get_uint8 blob index) ;;
   '(spec_id_errata, index) <- lift (get_uint8 blob index) ;;
   '(spec_id_uint_size, index) <- lift (get_uint8 blob index) ;;
   '(spec_id_num_of_algo, index) <- lift (get_uint32 blob index) ;;
   '(spec_id_digest_sizes, index) <-
      lift (header_algo_loop (Z.to_nat spec_id_num_of_algo) blob index []) ;;
   '(spec_id_vendor_size, index) <- lift (get_uint8 blob index) ;;
   '(spec_id_vendor_info, index) <-
      (if 0 <? spec_id_vendor_size
       then lift (get_bytes blob index spec_id_vendor_size)
       else ret ([], index)) ;;
   set_self (set_spec_id_header_event
               (mkEfiSpecIdEvent spec_id_signature spec_id_platform_cls
                  spec_id_version_minor spec_id_version_major
                  spec_id_errata spec_id_uint_size spec_id_num_of_algo
                  spec_id_digest_sizes spec_id_vendor_size
                  spec_id_vendor_info)) ;;
   ret index)%method.

(** ** [TcgEventLog._parse_event_log_body] *)

(** [next((alg for alg in self._spec_id_header_event.digest_sizes
          if alg.algo_id == alg_id), None)]; the attribute access on a
    [None] header event raises. *)
Definition find_algorithm (o : TcgEventLog) (alg_id : Z)
    : outcome (option TcgEfiSpecIdEventAlgorithmSize) :=
  match _spec_id_header_event o with
  | None => Raise AttributeError_digest_sizes
  | Some ev => Return (find (fun alg => algo_id alg =? alg_id) (digest_sizes ev))
  end.

(** The loop [for _ in range(digest_count)] of [_parse_event_log_body]. *)
Fixpoint body_digest_loop (o : TcgEventLog) (n : nat) (blob : list byte) (index : Z)
    (acc : list TcgDigest) : outcome (list TcgDigest * Z) :=
  match n with
  | O => Return (acc, index)
  | S n' =>
      ('(alg_id, index) <- get_uint16 blob index ;;
       alg <- find_algorithm o alg_id ;;
       match alg with
       | None => Raise (ValueError_no_algorithm alg_id)
       | Some alg =>
           let digest_size := digest_size alg in
           '(digest_data, index) <- get_bytes blob index digest_size ;;
           let digest := mkDigest alg_id digest_data in
           body_digest_loop o n' blob index (acc ++ [digest])
       end)%outcome
  end.

(** The body of the method; it reads [self] and writes nothing. *)
Definition parse_event_log_body (o : TcgEventLog) (data : list byte)
    : outcome (TcgImrEventLogEntry * Z) :=
  (let index := 0 in
   let blob := data in
   '(imr_index, index) <- get_uint32 blob index ;;
   let imr_index := imr_index - 1 in
   '(event_type, index) <- get_uint32 blob index ;;
   '(digest_count, index) <- get_uint32 blob index ;;
   '(digests, index) <- body_digest_loop o (Z.to_nat digest_count) blob index [] ;;
   '(event_size, index) <- get_uint32 blob index ;;
   '(event, index) <- get_bytes blob index event_size ;;
   let entry := mkImrEventLogEntry imr_index event_type digests event_size event in
   Return (entry, index))%outcome.

(** The method. *)
Definition _parse_event_log_body (data : list byte) : M (TcgImrEventLogEntry * Z) :=
  fun w => (parse_event_log_body (self w) data, w).

(** ** [TcgEventLog._parse] *)

(** The loop [while index < len(self._data)], entered at [index].  Every
    iteration that goes round again has moved [index] forward, so
    [fuel] counts iterations. *)
Fixpoint _parse_loop (fuel : nat) (data : list byte) (index : Z) : M unit :=
  match fuel with
  | O => fun w => (OutOfFuel, w)
  | S fuel' =>
      if index <? len data then
        (let start := index in
         let blob := data in
         '(imr, index) <- lift (get_uint32 blob index) ;;
         '(event_type, index) <- lift (get_uint32 blob index) ;;
         if imr =? 0xFFFFFFFF then ret tt
         else if event_type =? EV_NO_ACTION then
           header_len <- _parse_header (skipn (Z.to_nat start) data) ;;
           let index := start + header_len in
           set_self incr_count ;;
           _parse_loop fuel' data index
         else
           '(event_log, e_len) <- _parse_event_log_body (skipn (Z.to_nat start) data) ;;
           let index := start + e_len in
           set_self (append_event_log event_log) ;;
           set_self incr_count ;;
           _parse_loop fuel' data index)%method
      else ret tt
  end.

(** The method.  A [None] buffer is logged and then meets [len]; the loop
    is given more fuel than it can make iterations ([_parse_loop_enough]). *)
Definition _parse : M unit :=
  (o <- get_self ;;
   (match _data o with
    | None => LOG_error_ "Providing invalid data blob."
    | Some _ => ret tt
    end) ;;
   match _data o with
   | None => raise TypeError_len_None
   | Some data => _parse_loop (S (length data)) data 0
   end)%method.

(** ** [TcgEventLog.select] *)

(** The method; [None] is an unset [start] or [count]. *)
Definition select (start count : option Z) : M unit :=
  (_parse ;;
   (match start with
    | Some start =>
        o <- get_self ;;
        if negb ((0 <? start) && (start <=? _count o)) then
          LOG_error_ "Invalid input start. Start must be number larger than 0                       and smaller than total event log count." ;;
          raise ValueError_start
        else
          set_self (set_event_logs (skipn (Z.to_nat (start - 1)) (_event_logs o)))
    | None => ret tt
    end) ;;
   match count with
   | Some count =>
       o <- get_self ;;
       if negb ((0 <? count) && (count <=? len (_event_logs o))) then
         LOG_error_ "Invalid input count. count must be number larger than 0                       and smaller than total event log count." ;;
         raise ValueError_count
       else
         set_self (set_event_logs (firstn (Z.to_nat count) (_event_logs o)))
   | None => ret tt
   end)%method.

(** ** The parse loop as a transition system

    Section 4.4 reads the loop as a state machine: SCANNING while records
    are decoded, DONE at the sentinel or at the end of the buffer, FAILED
    on a decode error.  [parse_step] is one iteration of the [while]
    of [_parse]; [_parse_loop_unfold] ties it to the loop. *)

(** The world after an assignment to an attribute of [self]. *)
Definition update_self (f : TcgEventLog -> TcgEventLog) (w : world) : world :=
  {| self := f (self w); LOG := LOG w |}.

(** What one iteration comes to. *)
Inductive step_result : Type :=
| Stop (r : outcome unit * world)          (* DONE or FAILED *)
| Continue (index : Z) (w : world).        (* SCANNING, next record at [index] *)

(** One iteration of the loop at [index]. *)
Definition parse_step (data : list byte) (index : Z) (w : world) : step_result :=
  if index <? len data then
    match get_uint32 data index with
    | Return (imr, index1) =>
        match get_uint32 data index1 with
        | Return (event_type, _) =>
            if imr =? 0xFFFFFFFF then Stop (Return tt, w)
            else if event_type =? EV_NO_ACTION then
              match _parse_header (skipn (Z.to_nat index) data) w with
              | (Return header_len, w') =>
                  Continue (index + header_len) (update_self incr_count w')
              | (Raise e, w') => Stop (Raise e, w')
              | (OutOfFuel, w') => Stop (OutOfFuel, w')
              end
            else
              match parse_event_log_body (self w) (skipn (Z.to_nat index) data) with
              | Return (event_log, e_len) =>
                  Continue (index + e_len)
                    (update_self incr_count
                       (update_self (append_event_log event_log) w))
              | Raise e => Stop (Raise e, w)
              | OutOfFuel => Stop (OutOfFuel, w)
              end
        | Raise e => Stop (Raise e, w)
        | OutOfFuel => Stop (OutOfFuel, w)
        end
    | Raise e => Stop (Raise e, w)
    | OutOfFuel => Stop (OutOfFuel, w)
    end
  else Stop (Return tt, w).

(** [reaches data c c']: the loop over [data], started in configuration
    [c] (cursor and world), comes to the head of the [while] in [c']. *)
Inductive reaches (data : list byte) : Z * world -> Z * world -> Prop :=
| reaches_refl : forall c, reaches data c c
| reaches_step : forall index w index' w' c,
    parse_step data index w = Continue index' w' ->
    reaches data (index', w') c ->
    reaches data (index, w) c.

(** The configuration the loop is in after [k] iterations, or the one in
    which it stopped before that. *)
Fixpoint run_steps (k : nat) (data : list byte) (index : Z) (w : world) : Z * world :=
  match k with
  | O => (index, w)
  | S k' =>
      match parse_step data index w with
      | Continue index' w' => run_steps k' data index' w'
      | Stop _ => (index, w)
      end
  end.

(** The registries the decoder builds hold sizes read as [u16]: never
    negative.  This is what keeps the cursor moving forward. *)
Definition registry_ok (o : TcgEventLog) : Prop :=
  match _spec_id_header_event o with
  | None => True
  | Some ev => Forall (fun alg => 0 <= digest_size alg) (digest_sizes ev)
  end.

(** A method that keeps the registry such. *)
Definition registry_safe {A : Type} (m : M A) : Prop :=
  forall w, registry_ok (self w) -> registry_ok (self (snd (m w))).

(** ** The selector after the parse *)

(** The part of [select] that follows the call of [_parse]. *)
Definition select_window (start count : option Z) : M unit :=
  ((match start with
    | Some start =>
        o <- get_self ;;
        if negb ((0 <? start) && (start <=? _count o)) then
          LOG_error_ "Invalid input start. Start must be number larger than 0                       and smaller than total event log count." ;;
          raise ValueError_start
        else
          set_self (set_event_logs (skipn (Z.to_nat (start - 1)) (_event_logs o)))
    | None => ret tt
    end) ;;
   match count with
   | Some count =>
       o <- get_self ;;
       if negb ((0 <? count) && (count <=? len (_event_logs o))) then
         LOG_error_ "Invalid input count. count must be number larger than 0                       and smaller than total event log count." ;;
         raise ValueError_count
       else
         set_self (set_event_logs (firstn (Z.to_nat count) (_event_logs o)))
   | None => ret tt
   end)%method.

(** ** Outcomes of decoding and what a pass leaves of the world *)

(** The InvalidRange errors of section 7: the two ValueErrors of
    [select]. *)
Definition invalid_range (e : exn) : Prop :=
  e = ValueError_start \/ e = ValueError_count.

(** What decoding can end with: a value or a decode error, never an
    InvalidRange and never exhausted fuel. *)
Definition decoder_outcome {A : Type} (r : outcome A) : Prop :=
  match r with
  | Return _ => True
  | Raise e => ~ invalid_range e
  | OutOfFuel => False
  end.

(** A method that ends in such an outcome from every world. *)
Definition decoder {A : Type} (m : M A) : Prop :=
  forall w, decoder_outcome (fst (m w)).

(** [grows w w']: [w'] is over the same buffer as [w], its records are
    those of [w] followed by further ones, its count is not smaller and
    its log is the same. *)
Definition grows (w w' : world) : Prop :=
  _data (self w') = _data (self w) /\
  (exists more, _event_logs (self w') = _event_logs (self w) ++ more) /\
  _count (self w) <= _count (self w') /\
  LOG w' = LOG w.

(** A method that leaves the buffer, the records, the count and the log
    alone. *)
Definition keeps_records {A : Type} (m : M A) : Prop :=
  forall w,
    _data (self (snd (m w))) = _data (self w) /\
    _event_logs (self (snd (m w))) = _event_logs (self w) /\
    _count (self (snd (m w))) = _count (self w) /\
    LOG (snd (m w)) = LOG w.

(** [resumes before k wa wb]: [wb] is in a second pass what [wa] is in a
    first pass over the same buffer: its records are [before] followed by
    those of [wa], its count is [k] more, and its registry is that of
    [wa] unless [wa] has none yet. *)
Definition resumes (before : list TcgImrEventLogEntry) (k : Z) (wa wb : world) : Prop :=
  _event_logs (self wb) = before ++ _event_logs (self wa) /\
  _count (self wb) = k + _count (self wa) /\
  (_spec_id_header_event (self wa) = None \/
   _spec_id_header_event (self wa) = _spec_id_header_event (self wb)).

(** ** Wire format (section 6), for stating properties of buffers *)

(** The byte of value [v mod 256]. *)
Definition byte_of_Z (v : Z) : byte :=
  match Byte.of_N (Z.to_N (v mod 256)) with
  | Some b => b
  | None => x00
  end.

(** The [width]-byte little-endian encoding of [v]. *)
Fixpoint le_bytes (width : nat) (v : Z) : list byte :=
  match width with
  | O => []
  | S w => byte_of_Z v :: le_bytes w (v / 256)
  end.

(** The end marker: a register-index field of 0xFFFFFFFF. *)
Definition sentinel : list byte := [xff; xff; xff; xff].

(** The embedded SpecHeader. *)
Definition encode_spec_header (sig : list byte)
    (platform_cls version_minor version_major errata uintn : Z)
    (algs : list TcgEfiSpecIdEventAlgorithmSize) (vendor : list byte) : list byte :=
  sig ++ le_bytes 4 platform_cls
      ++ le_bytes 1 version_minor ++ le_bytes 1 version_major
      ++ le_bytes 1 errata ++ le_bytes 1 uintn
      ++ le_bytes 4 (len algs)
      ++ flat_map (fun alg => le_bytes 2 (algo_id alg) ++ le_bytes 2 (digest_size alg)) algs
      ++ le_bytes 1 (len vendor) ++ vendor.

(** A no-action record: common prefix, 20 digest bytes, the declared
    size, then the bytes that follow it. *)
Definition encode_header_record (register : Z) (digest : list byte)
    (declared_size : Z) (following : list byte) : list byte :=
  le_bytes 4 register ++ le_bytes 4 EV_NO_ACTION ++ digest
    ++ le_bytes 4 declared_size ++ following.

(** A measurement record. *)
Definition encode_measurement_record (register ety : Z)
    (ds : list TcgDigest) (payload : list byte) : list byte :=
  le_bytes 4 register ++ le_bytes 4 ety ++ le_bytes 4 (len ds)
    ++ flat_map (fun d => le_bytes 2 (alg_id d) ++ hash d) ds
    ++ le_bytes 4 (len payload) ++ payload.

(** A fresh object over [data], nothing logged yet. *)
Definition fresh (data : option (list byte)) : world :=
  {| self := __init__ data; LOG := [] |}.

(** ** Records that name an algorithm the registry does not have *)

(** [unknown_algorithm o blob n index a]: of the [n] digest entries that
    start at [index] in [blob], the first whose algorithm id has no entry
    in the registry of [o] carries the id [a]; the entries before it are
    in the registry and their digests are in the buffer. *)
Inductive unknown_algorithm (o : TcgEventLog) (blob : list byte)
    : nat -> Z -> Z -> Prop :=
| unknown_here : forall n index a index',
    get_uint16 blob index = Return (a, index') ->
    find_algorithm o a = Return None ->
    unknown_algorithm o blob (S n) index a
| unknown_later : forall n index a0 index1 alg digest_data index2 a,
    get_uint16 blob index = Return (a0, index1) ->
    find_algorithm o a0 = Return (Some alg) ->
    get_bytes blob index1 (digest_size alg) = Return (digest_data, index2) ->
    unknown_algorithm o blob n index2 a ->
    unknown_algorithm o blob (S n) index a.

(** The measurement record at the head of [record] has such a digest
    list. *)
Definition references_unknown_algorithm (o : TcgEventLog) (record : list byte)
    (a : Z) : Prop :=
  exists digest_count,
    get_uint32 record 8 = Return (digest_count, 12) /\
    unknown_algorithm o record (Z.to_nat digest_count) 12 a.

(** ** Sample buffers *)

(** Sixteen signature bytes. *)
Definition sig_sample : list byte := repeat x41 16.

(** One algorithm, id 0x0004 with 32-byte digests, no vendor info: 33
    bytes. *)
Definition spec_header_sample : list byte :=
  encode_spec_header sig_sample 0 0 2 0 2 [mkAlgorithmSize 4 32] [].

(** The header record of a well-formed log: its declared size is the
    length of the SpecHeader. *)
Definition header_sample : list byte :=
  encode_header_record 1 (repeat x00 20) 33 spec_header_sample.

(** The same record declaring one byte more than the SpecHeader takes,
    the byte being there. *)
Definition header_padded : list byte :=
  encode_header_record 1 (repeat x00 20) 34 (spec_header_sample ++ [x00]).

(** A measurement record with raw register 1, event type 1, one 32-byte
    digest tagged 0x0004 and a 4-byte payload: 54 bytes. *)
Definition measurement_sample : list byte :=
  encode_measurement_record 1 1 [mkDigest 4 (repeat xaa 32)] [x01; x02; x03; x04].

(** A buffer that ends with its last record: one header and one
    measurement record. *)
Definition log_sample : list byte := header_sample ++ measurement_sample.

(** The world after a first parse of [log_sample]. *)
Definition world_parsed : world := snd (_parse (fresh (Some log_sample))).

(** A measurement record whose only digest is tagged 0x9999. *)
Definition measurement_0x9999 : list byte :=
  encode_measurement_record 1 1 [mkDigest 0x9999 (repeat xaa 32)] [x01; x02; x03; x04].

(** A log whose header declares algorithm 0x0004 only and whose third
    record is [measurement_0x9999]; a well-formed record follows it. *)
Definition log_0x9999 : list byte :=
  header_sample ++ measurement_sample ++ measurement_0x9999 ++ measurement_sample.

(** The world in which the loop over [log_0x9999] comes to the third
    record, at offset 119. *)
Definition world_0x9999 : world :=
  snd (run_steps 2 log_0x9999 0 (fresh (Some log_0x9999))).

(** A registry that declares algorithm 0x0004 twice, with 32 and then
    with 20 digest bytes. *)
Definition registry_duplicate : TcgEfiSpecIdEvent :=
  mkEfiSpecIdEvent sig_sample 0 0 2 0 2 2
    [mkAlgorithmSize 4 32; mkAlgorithmSize 4 20] 0 [].

(** An object with that registry. *)
Definition log_duplicate : TcgEventLog :=
  set_spec_id_header_event registry_duplicate (__init__ (Some measurement_sample)).

(** A header that declares algorithm 0x0004 with 20 digest bytes, where
    [header_sample] declares it with 32. *)
Definition header_sha1_sample : list byte :=
  encode_header_record 1 (repeat x00 20) 33
    (encode_spec_header sig_sample 0 0 2 0 2 [mkAlgorithmSize 4 20] []).

(** The two headers, the measurement record, the sentinel and four
    bytes after it. *)
Definition log_two_headers : list byte :=
  header_sha1_sample ++ header_sample ++ measurement_sample
    ++ sentinel ++ repeat x00 4.

(** The world in which the loop over [log_two_headers] comes to the
    second header, at offset 65. *)
Definition world_two_headers : world :=
  snd (run_steps 1 log_two_headers 0 (fresh (Some log_two_headers))).

(** ** The end-to-end sample of section 8 *)

(** One no-action record declaring the single algorithm 0x0004 with
    32-byte digests and no vendor info, one measurement record with raw
    register 1 and one digest tagged 0x0004 over a 4-byte payload, then
    the four sentinel bytes.  The fields the sample leaves open are
    parameters. *)
Definition end_to_end_log (hreg : Z) (hdig sig : list byte)
    (platform_cls version_minor version_major errata uintn : Z)
    (ety : Z) (dig payload : list byte) : list byte :=
  encode_header_record hreg hdig 33
    (encode_spec_header sig platform_cls version_minor version_major errata uintn
       [mkAlgorithmSize 4 32] [])
  ++ encode_measurement_record 1 ety [mkDigest 4 dig] payload
  ++ sentinel.

(** What the sample is to yield: the registry, the count and the one
    record. *)
Definition end_to_end_result (ety : Z) (dig payload : list byte) (w : world) : Prop :=
  option_map digest_sizes (_spec_id_header_event (self w)) = Some [mkAlgorithmSize 4 32] /\
  _count (self w) = 2 /\
  _event_logs (self w) = [mkImrEventLogEntry 0 ety [mkDigest 4 dig] 4 payload].

(** ** Statements that do not hold of the code *)

(** The offset [_parse_header] returns is the record start plus the fixed
    32 bytes plus the declared event size, whenever that size fits the
    buffer. *)
Definition header_offset_is_declared_size : Prop :=
  forall data w n w' hdr,
    _parse_header data w = (Return n, w') ->
    _spec_id_header (self w') = Some hdr ->
    8 + 20 + 4 + hdr_event_size hdr <= len data ->
    n = 8 + 20 + 4 + hdr_event_size hdr.

(** After a [select] that fails with InvalidRange on a parsed log, the
    stored records are those of before the call. *)
Definition failed_select_keeps_records : Prop :=
  forall data w start count e w',
    _parse (fresh (Some data)) = (Return tt, w) ->
    select start count w = (Raise e, w') ->
    invalid_range e ->
    _event_logs (self w') = _event_logs (self w).

(** On an absent or empty buffer the parse returns, with count 0 and no
    records, and has logged the condition. *)
Definition absent_or_empty_input_reported : Prop :=
  forall data,
    data = None \/ data = Some [] ->
    fst (_parse (fresh data)) = Return tt /\
    _count (self (snd (_parse (fresh data)))) = 0 /\
    _event_logs (self (snd (_parse (fresh data)))) = [] /\
    LOG (snd (_parse (fresh data))) <> [].

(** Whenever the register-index field at the cursor is the sentinel, the
    loop stops there without error and leaves the world as it was. *)
Definition sentinel_always_stops : Prop :=
  forall data index w fuel,
    0 <= index -> index + 4 <= len data ->
    le_value (slice data index (index + 4)) = 0xFFFFFFFF ->
    _parse_loop (S fuel) data index w = (Return tt, w).

(** The parse of the sample returns with that result. *)
Definition end_to_end_returns : Prop :=
  forall hreg hdig sig platform_cls version_minor version_major errata uintn
         ety dig payload,
    0 <= hreg < 2 ^ 32 -> hreg <> 0xFFFFFFFF ->
    length hdig = 20%nat -> length sig = 16%nat ->
    0 <= ety < 2 ^ 32 -> ety <> EV_NO_ACTION ->
    length dig = 32%nat -> length payload = 4%nat ->
    fst (_parse (fresh (Some (end_to_end_log hreg hdig sig platform_cls version_minor
                                version_major errata uintn ety dig payload))))
      = Return tt /\
    end_to_end_result ety dig payload
      (snd (_parse (fresh (Some (end_to_end_log hreg hdig sig platform_cls version_minor
                                   version_major errata uintn ety dig payload))))).

(** ** Further notions: the selector's window and the effect of a pass *)

(** [l[start-1:][:count]], an unset bound cutting nothing. *)
Definition window {A : Type} (start count : option Z) (l : list A) : list A :=
  let from_start :=
    match start with
    | Some s => skipn (Z.to_nat (s - 1)) l
    | None => l
    end in
  match count with
  | Some c => firstn (Z.to_nat c) from_start
  | None => from_start
  end.

(** [decoded_more w w']: [w'] is over the buffer of [w] with the same
    log; its records are those of [w] followed by further ones, and its
    count has grown by at least their number (the rest being the headers
    counted). *)
Definition decoded_more (w w' : world) : Prop :=
  _data (self w') = _data (self w) /\
  LOG w' = LOG w /\
  exists more,
    _event_logs (self w') = _event_logs (self w) ++ more /\
    _count (self w) + len more <= _count (self w').

(** A buffer that starts with a measurement record of one digest, no
    header before it. *)
Definition log_headless : list byte := measurement_sample.

(** A no-action record cut after the 4 event bytes it declares: the five
    fields of the record are there, the SpecHeader is not. *)
Definition header_cut : list byte :=
  le_bytes 4 1 ++ le_bytes 4 EV_NO_ACTION ++ repeat x00 20 ++ le_bytes 4 4
  ++ [x41; x41; x41; x41].

(** ** Further notions: encoded records and the cursor in a buffer *)

(** [cursor_at data i rest]: the cursor [i] is inside [data], and [rest]
    is what the buffer holds from it on. *)
Definition cursor_at (data : list byte) (i : Z) (rest : list byte) : Prop :=
  0 <= i <= len data /\ skipn (Z.to_nat i) data = rest.

(** The bytes of a measurement record as the object holds it: the
    register is stored plus one. *)
Definition encode_entry (e : TcgImrEventLogEntry) : list byte :=
  encode_measurement_record (imr_index e + 1) (event_type e) (digests e) (event e).

(** A digest the registry [reg] can carry: its id is a [u16], the first
    entry of [reg] with that id exists and has the size of the digest. *)
Definition digest_fits (reg : list TcgEfiSpecIdEventAlgorithmSize) (d : TcgDigest) : Prop :=
  0 <= alg_id d < 2 ^ 16 /\
  exists alg,
    find (fun a => algo_id a =? alg_id d) reg = Some alg /\
    digest_size alg = len (hash d).

(** A record the format can carry with the registry [reg]: every integer
    fits its field, the digests fit the registry, and [event_size] is the
    length of the payload. *)
Definition entry_fits (reg : list TcgEfiSpecIdEventAlgorithmSize)
    (e : TcgImrEventLogEntry) : Prop :=
  0 <= imr_index e + 1 < 2 ^ 32 /\
  0 <= event_type e < 2 ^ 32 /\
  len (digests e) < 2 ^ 32 /\
  Forall (digest_fits reg) (digests e) /\
  event_size e = len (event e) /\
  len (event e) < 2 ^ 32.

(** A record the driver takes for a measurement record: neither the
    sentinel nor a no-action record. *)
Definition is_measurement (e : TcgImrEventLogEntry) : Prop :=
  imr_index e + 1 <> 0xFFFFFFFF /\ event_type e <> EV_NO_ACTION.

(** The bytes of a header as the object holds it, the declared size
    being the length of the SpecHeader. *)
Definition encode_header (hdr : TcgPcClientImrEvent) (ev : TcgEfiSpecIdEvent) : list byte :=
  le_bytes 4 (hdr_imr_index hdr + 1) ++ le_bytes 4 (hdr_event_type hdr)
    ++ hdr_digest hdr ++ le_bytes 4 (hdr_event_size hdr)
    ++ encode_spec_header (signature ev) (platform_class ev)
         (spec_version_minor ev) (spec_version_major ev) (spec_errata ev)
         (uintn_size ev) (digest_sizes ev) (vendor_info ev).

(** A SpecHeader the format can carry. *)
Definition spec_header_fits (ev : TcgEfiSpecIdEvent) : Prop :=
  length (signature ev) = 16%nat /\
  0 <= platform_class ev < 2 ^ 32 /\
  0 <= spec_version_minor ev < 2 ^ 8 /\
  0 <= spec_version_major ev < 2 ^ 8 /\
  0 <= spec_errata ev < 2 ^ 8 /\
  0 <= uintn_size ev < 2 ^ 8 /\
  number_of_algorithms ev = len (digest_sizes ev) /\
  len (digest_sizes ev) < 2 ^ 32 /\
  Forall (fun alg => 0 <= algo_id alg < 2 ^ 16 /\ 0 <= digest_size alg < 2 ^ 16)
    (digest_sizes ev) /\
  vendor_info_size ev = len (vendor_info ev) /\
  len (vendor_info ev) < 2 ^ 8.

(** A header record the format can carry, with the bytes its declared
    size covers. *)
Definition header_fits (hdr : TcgPcClientImrEvent) : Prop :=
  0 <= hdr_imr_index hdr + 1 < 2 ^ 32 /\
  0 <= hdr_event_type hdr < 2 ^ 32 /\
  length (hdr_digest hdr) = 20%nat /\
  0 <= hdr_event_size hdr < 2 ^ 32 /\
  hdr_event_size hdr = len (hdr_event hdr).

(** ** Whole logs *)

(** The registry a measurement record is decoded with: the algorithms of
    the SpecHeader the object holds, none before a header was stored. *)
Definition registry (o : TcgEventLog) : list TcgEfiSpecIdEventAlgorithmSize :=
  match _spec_id_header_event o with
  | Some ev => digest_sizes ev
  | None => []
  end.

(** A record of a log: a header record with the SpecHeader it carries,
    or a measurement record. *)
Inductive wire_record : Type :=
| HeaderRecord (hdr : TcgPcClientImrEvent) (ev : TcgEfiSpecIdEvent)
| MeasurementRecord (e : TcgImrEventLogEntry).

Definition encode_record (r : wire_record) : list byte :=
  match r with
  | HeaderRecord hdr ev => encode_header hdr ev
  | MeasurementRecord e => encode_entry e
  end.

Definition encode_log (l : list wire_record) : list byte := flat_map encode_record l.

(** The registry in force after a record: that of the record if it is a
    header, the one of before otherwise. *)
Definition next_registry (reg : list TcgEfiSpecIdEventAlgorithmSize) (r : wire_record)
    : list TcgEfiSpecIdEventAlgorithmSize :=
  match r with
  | HeaderRecord _ ev => digest_sizes ev
  | MeasurementRecord _ => reg
  end.

(** A record the loop decodes with the registry [reg] in force when
    [rest] is what follows it in the buffer.  A header record is a
    no-action record that is not the sentinel, its fields fit, and the
    event bytes it stores are the first bytes after the size field: the
    SpecHeader, or a prefix of it, or the SpecHeader and bytes of [rest].
    A measurement record is neither and fits [reg]. *)
Definition record_fits (reg : list TcgEfiSpecIdEventAlgorithmSize) (r : wire_record)
    (rest : list byte) : Prop :=
  match r with
  | HeaderRecord hdr ev =>
      hdr_imr_index hdr + 1 <> 0xFFFFFFFF /\
      hdr_event_type hdr = EV_NO_ACTION /\
      header_fits hdr /\ spec_header_fits ev /\
      exists more,
        encode_spec_header (signature ev) (platform_class ev) (spec_version_minor ev)
          (spec_version_major ev) (spec_errata ev) (uintn_size ev) (digest_sizes ev)
          (vendor_info ev) ++ rest = hdr_event hdr ++ more
  | MeasurementRecord e => is_measurement e /\ entry_fits reg e
  end.

(** The records of [l] are decoded one after the other, [reg] being the
    registry in force at the first and [term] what follows the last. *)
Fixpoint log_fits (reg : list TcgEfiSpecIdEventAlgorithmSize) (l : list wire_record)
    (term : list byte) : Prop :=
  match l with
  | [] => True
  | r :: l' =>
      record_fits reg r (encode_log l' ++ term) /\ log_fits (next_registry reg r) l' term
  end.

(** A record for which no read asks the cursor reader for zero bytes:
    the payload and every digest of a measurement record, the declared
    event of a header record, are not empty.  (Of the reads whose length
    comes from the buffer the source guards only the vendor information;
    what the reader of section 4.1 does when asked for no byte is not
    part of its model.) *)
Definition entry_nonempty (e : TcgImrEventLogEntry) : Prop :=
  0 < len (event e) /\ Forall (fun d => 0 < len (hash d)) (digests e).

Definition record_nonempty (r : wire_record) : Prop :=
  match r with
  | HeaderRecord hdr _ => 0 < hdr_event_size hdr
  | MeasurementRecord e => entry_nonempty e
  end.

(** Where the loop stops without an error: at the end of the buffer, or
    at a sentinel register index that has the 4 bytes of an event type
    after it. *)
Definition log_ends (term : list byte) : Prop :=
  term = [] \/ exists tail, term = sentinel ++ tail /\ 4 <= len tail.

(** The measurement records of a log, in order. *)
Definition entries_of (l : list wire_record) : list TcgImrEventLogEntry :=
  flat_map (fun r => match r with
                     | HeaderRecord _ _ => []
                     | MeasurementRecord e => [e]
                     end) l.

(** The last header record of a log and its SpecHeader, after [last]. *)
Fixpoint last_header (l : list wire_record)
    (last : option TcgPcClientImrEvent * option TcgEfiSpecIdEvent)
    : option TcgPcClientImrEvent * option TcgEfiSpecIdEvent :=
  match l with
  | [] => last
  | HeaderRecord hdr ev :: l' => last_header l' (Some hdr, Some ev)
  | MeasurementRecord _ :: l' => last_header l' last
  end.

(** [stored w l w']: the world [w'] is [w] with the records [l] decoded
    into it.  The measurement records stand after the ones of [w], in
    order; every record of [l] is counted; the header and the SpecHeader
    are those of the last header record of [l], or those of [w]; the
    buffer and the logger output are those of [w].  Every field of the
    object is given, so [w'] is determined. *)
Definition stored (w : world) (l : list wire_record) (w' : world) : Prop :=
  LOG w' = LOG w /\
  _data (self w') = _data (self w) /\
  _event_logs (self w') = _event_logs (self w) ++ entries_of l /\
  _count (self w') = _count (self w) + len l /\
  (_spec_id_header (self w'), _spec_id_header_event (self w'))
    = last_header l (_spec_id_header (self w), _spec_id_header_event (self w)).

(** What the iterations of the loop of [_parse] do to the object for the
    records of [l], written with the assignments of the source; the
    proofs go through it, the statements through [stored]. *)
Definition store_record (r : wire_record) (o : TcgEventLog) : TcgEventLog :=
  match r with
  | HeaderRecord hdr ev =>
      incr_count (set_spec_id_header_event ev (set_spec_id_header hdr o))
  | MeasurementRecord e => incr_count (append_event_log e o)
  end.

Definition store_log (l : list wire_record) (o : TcgEventLog) : TcgEventLog :=
  fold_left (fun o r => store_record r o) l o.

(** [reaches_measurements data c c']: the loop comes from [c] to [c']
    through records none of which is a no-action record. *)
Inductive reaches_measurements (data : list byte) : Z * world -> Z * world -> Prop :=
| reaches_measurements_refl : forall c, reaches_measurements data c c
| reaches_measurements_step : forall index w index' w' c,
    le_value (slice data (index + 4) (index + 8)) <> EV_NO_ACTION ->
    parse_step data index w = Continue index' w' ->
    reaches_measurements data (index', w') c ->
    reaches_measurements data (index, w) c.

(** A header, two measurement records; a sentinel with a type field and
    a trailing byte. *)
Definition header_record_sample : wire_record :=
  HeaderRecord
    (mkPcClientImrEvent 0 EV_NO_ACTION (repeat x00 20) 33 spec_header_sample)
    (mkEfiSpecIdEvent sig_sample 0 0 2 0 2 1 [mkAlgorithmSize 4 32] 0 []).

Definition entry_sample : TcgImrEventLogEntry :=
  mkImrEventLogEntry 0 1 [mkDigest 4 (repeat xaa 32)] 4 [x01; x02; x03; x04].

Definition records_sample : list wire_record :=
  [header_record_sample; MeasurementRecord entry_sample; MeasurementRecord entry_sample].

Definition term_sample : list byte := sentinel ++ [x00; x00; x00; x00; x2a].

(* ================================================================== *)
(** * Properties *)

(** ** Outcomes and worlds *)

Lemma obind_Return : forall (A B : Type) (m : outcome A) (k : A -> outcome B) b,
  obind m k = Return b -> exists a, m = Return a /\ k a = Return b.
Proof.
  intros A B m k b H. destruct m as [a | e | ]; simpl in H; try discriminate.
  exists a. split; [reflexivity | exact H].
Qed.

Lemma bind_Return : forall (A B : Type) (m : M A) (k : A -> M B) w b w',
  bind m k w = (Return b, w') ->
  exists a w1, m w = (Return a, w1) /\ k a w1 = (Return b, w').
Proof.
  intros A B m k w b w' H. unfold bind in H.
  destruct (m w) as [[a | e | ] w1]; try discriminate.
  exists a, w1. split; [reflexivity | exact H].
Qed.

Lemma lift_Return : forall (A : Type) (r : outcome A) w a w',
  lift r w = (Return a, w') -> r = Return a /\ w' = w.
Proof. unfold lift. intros A r w a w' H. inversion H. split; reflexivity. Qed.

(** ** Lists and little-endian values *)

Lemma len_nonneg : forall (A : Type) (l : list A), 0 <= len l.
Proof. intros. unfold len. lia. Qed.

Lemma len_app : forall (A : Type) (l1 l2 : list A), len (l1 ++ l2) = len l1 + len l2.
Proof. intros. unfold len. rewrite length_app. lia. Qed.

Lemma len_skipn : forall (A : Type) (l : list A) (i : Z),
  0 <= i <= len l -> len (skipn (Z.to_nat i) l) = len l - i.
Proof. intros A l i H. unfold len in *. rewrite length_skipn. lia. Qed.

Lemma byte_val_range : forall b, 0 <= byte_val b < 256.
Proof.
  intro b. unfold byte_val. pose proof (Byte.to_N_bounded b) as H. lia.
Qed.

Lemma le_value_nonneg : forall bs, 0 <= le_value bs.
Proof.
  induction bs as [| b bs IH]; cbn [le_value]; [lia |].
  pose proof (byte_val_range b). lia.
Qed.

Lemma le_value_bound : forall bs, le_value bs < 256 ^ len bs.
Proof.
  induction bs as [| b bs IH]; [simpl; lia |].
  change (le_value (b :: bs)) with (byte_val b + 256 * le_value bs).
  replace (len (b :: bs)) with (Z.succ (len bs)) by (unfold len; simpl length; lia).
  rewrite Z.pow_succ_r by apply len_nonneg.
  pose proof (byte_val_range b). lia.
Qed.

(** ** The cursor reader *)

Lemma get_bytes_Return : forall d i n bs j,
  get_bytes d i n = Return (bs, j) ->
  j = i + n /\ i + n <= len d /\ bs = slice d i (i + n).
Proof.
  unfold get_bytes. intros d i n bs j H.
  destruct (i + n <=? len d) eqn:E; [| discriminate].
  apply Z.leb_le in E. inversion H. auto.
Qed.

Lemma get_uint8_Return : forall d i v j,
  get_uint8 d i = Return (v, j) ->
  j = i + 1 /\ i + 1 <= len d /\ v = le_value (slice d i (i + 1)).
Proof.
  unfold get_uint8. intros d i v j H.
  destruct (i + 1 <=? len d) eqn:E; [| discriminate].
  apply Z.leb_le in E. inversion H. auto.
Qed.

Lemma get_uint16_Return : forall d i v j,
  get_uint16 d i = Return (v, j) ->
  j = i + 2 /\ i + 2 <= len d /\ v = le_value (slice d i (i + 2)).
Proof.
  unfold get_uint16. intros d i v j H.
  destruct (i + 2 <=? len d) eqn:E; [| discriminate].
  apply Z.leb_le in E. inversion H. auto.
Qed.

Lemma get_uint32_Return : forall d i v j,
  get_uint32 d i = Return (v, j) ->
  j = i + 4 /\ i + 4 <= len d /\ v = le_value (slice d i (i + 4)).
Proof.
  unfold get_uint32. intros d i v j H.
  destruct (i + 4 <=? len d) eqn:E; [| discriminate].
  apply Z.leb_le in E. inversion H. auto.
Qed.

Lemma get_uint32_in_bounds : forall d i,
  i + 4 <= len d ->
  get_uint32 d i = Return (le_value (slice d i (i + 4)), i + 4).
Proof.
  intros d i H. unfold get_uint32.
  apply Z.leb_le in H. rewrite H. reflexivity.
Qed.

Lemma get_uint32_out_of_bounds : forall d i,
  len d < i + 4 -> get_uint32 d i = Raise OutOfBounds.
Proof.
  intros d i H. unfold get_uint32.
  apply Z.leb_gt in H. rewrite H. reflexivity.
Qed.

(** A read of the cursor reader returns or raises OutOfBounds. *)
Lemma not_invalid_range_OutOfBounds : ~ invalid_range OutOfBounds.
Proof. intros [H | H]; discriminate H. Qed.

Lemma get_uint32_outcome : forall d i, decoder_outcome (get_uint32 d i).
Proof.
  intros d i. unfold get_uint32.
  destruct (_ <=? _); simpl; [exact I | exact not_invalid_range_OutOfBounds].
Qed.

Lemma get_uint16_outcome : forall d i, decoder_outcome (get_uint16 d i).
Proof.
  intros d i. unfold get_uint16.
  destruct (_ <=? _); simpl; [exact I | exact not_invalid_range_OutOfBounds].
Qed.

Lemma get_uint8_outcome : forall d i, decoder_outcome (get_uint8 d i).
Proof.
  intros d i. unfold get_uint8.
  destruct (_ <=? _); simpl; [exact I | exact not_invalid_range_OutOfBounds].
Qed.

Lemma get_bytes_outcome : forall d i n, decoder_outcome (get_bytes d i n).
Proof.
  intros d i n. unfold get_bytes.
  destruct (_ <=? _); simpl; [exact I | exact not_invalid_range_OutOfBounds].
Qed.

Lemma obind_outcome : forall (A B : Type) (m : outcome A) (k : A -> outcome B),
  decoder_outcome m -> (forall a, decoder_outcome (k a)) ->
  decoder_outcome (obind m k).
Proof.
  intros A B m k Hm Hk. destruct m as [a | e | ]; simpl in *.
  - apply Hk.
  - exact Hm.
  - exact Hm.
Qed.

Lemma decoder_outcome_fuel : forall (A : Type) (r : outcome A),
  decoder_outcome r -> r <> OutOfFuel.
Proof. intros A r H E. rewrite E in H. exact H. Qed.

(** Inversion of a successful run of monadic code, one read at a time. *)
Ltac invert_read H :=
  let v := fresh "v" in
  let j := fresh "j" in
  let Hj := fresh "Hj" in
  let Hb := fresh "Hb" in
  let Hv := fresh "Hv" in
  first
    [ apply get_uint32_Return in H; destruct H as (Hj & Hb & Hv)
    | apply get_uint16_Return in H; destruct H as (Hj & Hb & Hv)
    | apply get_uint8_Return in H; destruct H as (Hj & Hb & Hv)
    | apply get_bytes_Return in H; destruct H as (Hj & Hb & Hv) ].

Ltac invert_obind H :=
  let p := fresh "p" in
  let Hr := fresh "Hr" in
  apply obind_Return in H; destruct H as ([? ?] & Hr & H);
  invert_read Hr.

Ltac invert_bind H :=
  let Hr := fresh "Hr" in
  let Hw := fresh "Hw" in
  apply bind_Return in H; destruct H as ([? ?] & ? & Hr & H);
  apply lift_Return in Hr; destruct Hr as (Hr & Hw);
  invert_read Hr.

(** ** The header record parser *)

Lemma header_algo_loop_Return : forall n d i acc l j,
  header_algo_loop n d i acc = Return (l, j) ->
  j = i + 4 * Z.of_nat n /\
  exists l', l = acc ++ l' /\ length l' = n /\
             Forall (fun alg => 0 <= digest_size alg) l'.
Proof.
  induction n as [| n IH]; intros d i acc l j H.
  - simpl in H. inversion H; subst. split; [lia |].
    exists []. rewrite app_nil_r. auto.
  - cbn [header_algo_loop] in H.
    invert_obind H. invert_obind H.
    apply IH in H. destruct H as (Hj1 & l' & Hl & Hn & Hall).
    split; [lia |].
    eexists (_ :: l'). split; [rewrite Hl, <- app_assoc; reflexivity |].
    split; [simpl; congruence |].
    constructor; [simpl; subst; apply le_value_nonneg | exact Hall].
Qed.

Ltac pose_le_value_nonneg :=
  repeat match goal with
         | |- context [le_value ?x] =>
             lazymatch goal with
             | _ : 0 <= le_value x |- _ => fail
             | _ => pose proof (le_value_nonneg x)
             end
         end.

Lemma _parse_header_Return : forall d w n w',
  _parse_header d w = (Return n, w') ->
  exists hdr ev,
    w' = update_self (set_spec_id_header_event ev)
           (update_self (set_spec_id_header hdr) w) /\
    hdr_event_type hdr = le_value (slice d 4 8) /\
    hdr_event_size hdr = le_value (slice d 28 32) /\
    32 + hdr_event_size hdr <= len d /\
    0 <= number_of_algorithms ev /\
    0 <= vendor_info_size ev /\
    len (digest_sizes ev) = number_of_algorithms ev /\
    Forall (fun alg => 0 <= digest_size alg) (digest_sizes ev) /\
    n = 61 + 4 * number_of_algorithms ev + vendor_info_size ev /\
    n <= len d.
Proof.
  intros d w n w' H. unfold _parse_header in H.
  do 5 invert_bind H.
  apply bind_Return in H. destruct H as ([] & w1 & Hs1 & H).
  unfold set_self in Hs1. inversion Hs1; subst w1; clear Hs1.
  do 7 invert_bind H.
  apply bind_Return in H. destruct H as ([algs j1] & w2 & Hl & H).
  apply lift_Return in Hl. destruct Hl as (Hl & ->).
  apply header_algo_loop_Return in Hl. destruct Hl as (Hjl & l' & Hl' & Hn & Hall).
  invert_bind H.
  apply bind_Return in H. destruct H as ([vinfo j2] & w3 & Hvend & H).
  assert (Hj2' : j2 = z21 + z20 /\ j2 <= len d /\ w3 = x11).
  { pose proof (le_value_nonneg (slice d j1 (j1 + 1))) as Hnn.
    rewrite <- Hv11 in Hnn.
    destruct (0 <? z20) eqn:E.
    - apply lift_Return in Hvend. destruct Hvend as (Hvend & ->).
      apply get_bytes_Return in Hvend. intuition lia.
    - unfold ret in Hvend. apply Z.ltb_ge in E.
      assert (z20 = 0) by lia.
      inversion Hvend. intuition lia. }
  destruct Hj2' as (Hj2' & Hle & ->).
  apply bind_Return in H. destruct H as ([] & w4 & Hs2 & H).
  unfold set_self in Hs2. inversion Hs2; subst w4; clear Hs2.
  unfold ret in H. inversion H; subst n w'; clear H.
  apply Nat2Z.inj_iff in Hn. rewrite Z2Nat.id in Hn
    by (rewrite Hv10; apply le_value_nonneg).
  subst.
  eexists; eexists. split; [reflexivity |].
  cbn [hdr_event_type hdr_event_size number_of_algorithms vendor_info_size digest_sizes].
  pose_le_value_nonneg.
  repeat split; try reflexivity; try lia.
  - exact Hn.
  - exact Hall.
Qed.

Lemma _parse_header_registry_ok : forall d w n w',
  _parse_header d w = (Return n, w') -> registry_ok (self w').
Proof.
  intros d w n w' H. apply _parse_header_Return in H.
  destruct H as (hdr & ev & -> & _ & _ & _ & _ & _ & _ & Hall & _).
  unfold registry_ok. simpl. exact Hall.
Qed.

(** *** What the sub-parsers can end with *)

Lemma decoder_bind : forall (A B : Type) (m : M A) (k : A -> M B),
  decoder m -> (forall a, decoder (k a)) -> decoder (bind m k).
Proof.
  intros A B m k Hm Hk w. unfold bind.
  specialize (Hm w). destruct (m w) as [[a | e | ] w1]; simpl in *.
  - apply Hk.
  - exact Hm.
  - exact Hm.
Qed.

Lemma decoder_lift : forall (A : Type) (r : outcome A),
  decoder_outcome r -> decoder (lift r).
Proof. intros A r H w. exact H. Qed.

Lemma decoder_ret : forall (A : Type) (a : A), decoder (ret a).
Proof. intros A a w. exact I. Qed.

Lemma decoder_set_self : forall f, decoder (set_self f).
Proof. intros f w. exact I. Qed.

Lemma header_algo_loop_outcome : forall n d i acc,
  decoder_outcome (header_algo_loop n d i acc).
Proof.
  induction n as [| n IH]; intros d i acc; cbn [header_algo_loop].
  - exact I.
  - apply obind_outcome; [apply get_uint16_outcome | intros [a i1]].
    apply obind_outcome; [apply get_uint16_outcome | intros [s i2]].
    apply IH.
Qed.

Ltac decoder_step :=
  first
    [ apply decoder_ret
    | apply decoder_set_self
    | apply decoder_lift;
      first [ apply get_uint32_outcome | apply get_uint16_outcome
            | apply get_uint8_outcome | apply get_bytes_outcome
            | apply header_algo_loop_outcome ]
    | apply decoder_bind; [| first [ intros [? ?] | intros ? ] ] ].

Lemma _parse_header_decoder : forall d, decoder (_parse_header d).
Proof.
  intro d. unfold _parse_header.
  repeat decoder_step.
  destruct (0 <? _); decoder_step.
Qed.

(** ** The body record parser *)

Lemma find_algorithm_outcome : forall o a, decoder_outcome (find_algorithm o a).
Proof.
  intros o a. unfold find_algorithm.
  destruct (_spec_id_header_event o); simpl; [exact I |].
  intros [H | H]; discriminate H.
Qed.

Lemma find_algorithm_Return : forall o a r,
  find_algorithm o a = Return r ->
  exists ev, _spec_id_header_event o = Some ev /\
             r = find (fun alg => algo_id alg =? a) (digest_sizes ev).
Proof.
  intros o a r H. unfold find_algorithm in H.
  destruct (_spec_id_header_event o) as [ev |]; [| discriminate].
  exists ev. inversion H. auto.
Qed.

Lemma find_algorithm_size : forall o a alg,
  registry_ok o -> find_algorithm o a = Return (Some alg) ->
  0 <= digest_size alg.
Proof.
  intros o a alg Hok H. apply find_algorithm_Return in H.
  destruct H as (ev & Hev & Hf). unfold registry_ok in Hok. rewrite Hev in Hok.
  symmetry in Hf. apply find_some in Hf. destruct Hf as (Hin & _).
  rewrite Forall_forall in Hok. apply Hok. exact Hin.
Qed.

Lemma body_digest_loop_outcome : forall o n d i acc,
  decoder_outcome (body_digest_loop o n d i acc).
Proof.
  induction n as [| n IH]; intros d i acc; cbn [body_digest_loop].
  - exact I.
  - apply obind_outcome; [apply get_uint16_outcome | intros [a i1]].
    apply obind_outcome; [apply find_algorithm_outcome | intros [alg |]].
    + apply obind_outcome; [apply get_bytes_outcome | intros [bs i2]].
      apply IH.
    + simpl. intros [H | H]; discriminate H.
Qed.

Lemma body_digest_loop_Return : forall o n d i acc l j,
  registry_ok o ->
  body_digest_loop o n d i acc = Return (l, j) ->
  i + 2 * Z.of_nat n <= j /\ exists l', l = acc ++ l' /\ length l' = n.
Proof.
  induction n as [| n IH]; intros d i acc l j Hok H.
  - simpl in H. inversion H; subst. split; [lia |].
    exists []. rewrite app_nil_r. auto.
  - cbn [body_digest_loop] in H.
    invert_obind H.
    apply obind_Return in H. destruct H as (r & Hf & H).
    destruct r as [alg |]; [| discriminate].
    apply find_algorithm_size in Hf; [| exact Hok].
    invert_obind H.
    apply IH in H; [| exact Hok]. destruct H as (Hle & l' & Hl & Hn).
    split; [lia |].
    eexists (_ :: l'). split; [rewrite Hl, <- app_assoc; reflexivity |].
    simpl; congruence.
Qed.

Lemma parse_event_log_body_outcome : forall o d,
  decoder_outcome (parse_event_log_body o d).
Proof.
  intros o d. unfold parse_event_log_body.
  apply obind_outcome; [apply get_uint32_outcome | intros [a i1]].
  apply obind_outcome; [apply get_uint32_outcome | intros [b i2]].
  apply obind_outcome; [apply get_uint32_outcome | intros [c i3]].
  apply obind_outcome; [apply body_digest_loop_outcome | intros [ds i4]].
  apply obind_outcome; [apply get_uint32_outcome | intros [s i5]].
  apply obind_outcome; [apply get_bytes_outcome | intros [ev i6]].
  exact I.
Qed.

Lemma parse_event_log_body_Return : forall o d e n,
  registry_ok o ->
  parse_event_log_body o d = Return (e, n) ->
  16 <= n <= len d.
Proof.
  intros o d e n Hok H. unfold parse_event_log_body in H.
  do 3 invert_obind H.
  apply obind_Return in H. destruct H as ([ds i4] & Hl & H).
  apply body_digest_loop_Return in Hl; [| exact Hok].
  destruct Hl as (Hle & _).
  do 2 invert_obind H.
  inversion H; subst.
  pose_le_value_nonneg.
  pose proof (le_value_nonneg (slice d i4 (i4 + 4))).
  lia.
Qed.

(** ** The log driver *)

Lemma _parse_loop_unfold : forall fuel data index w,
  _parse_loop (S fuel) data index w =
  match parse_step data index w with
  | Stop r => r
  | Continue index' w' => _parse_loop fuel data index' w'
  end.
Proof.
  intros fuel data index w. cbn [_parse_loop]. unfold parse_step.
  destruct (index <? len data); [| reflexivity].
  unfold bind at 1. unfold lift at 1.
  destruct (get_uint32 data index) as [[imr index1] | e | ]; try reflexivity.
  unfold bind at 1. unfold lift at 1.
  destruct (get_uint32 data index1) as [[ety index2] | e | ]; try reflexivity.
  destruct (imr =? 4294967295); [reflexivity |].
  destruct (ety =? EV_NO_ACTION).
  - unfold bind at 1.
    destruct (_parse_header (skipn (Z.to_nat index) data) w) as [[n | e | ] w1];
      reflexivity.
  - unfold bind at 1. unfold _parse_event_log_body.
    destruct (parse_event_log_body (self w) (skipn (Z.to_nat index) data))
      as [[ev n] | e | ]; reflexivity.
Qed.

Lemma _parse_Some : forall w data,
  _data (self w) = Some data ->
  _parse w = _parse_loop (S (length data)) data 0 w.
Proof.
  intros w data H. unfold _parse, bind, get_self. rewrite H. reflexivity.
Qed.

Lemma _parse_None : forall w,
  _data (self w) = None ->
  _parse w =
  (Raise TypeError_len_None,
   {| self := self w; LOG := LOG w ++ [LOG_error "Providing invalid data blob."] |}).
Proof.
  intros w H. unfold _parse, bind, get_self. rewrite H. reflexivity.
Qed.

(** A step that goes round again has moved the cursor forward, inside
    the buffer, and left a registry with sizes that are not negative. *)
Lemma parse_step_Continue : forall data index w index' w',
  registry_ok (self w) -> 0 <= index ->
  parse_step data index w = Continue index' w' ->
  index < index' <= len data /\ registry_ok (self w').
Proof.
  intros data index w index' w' Hok Hi H. unfold parse_step in H.
  destruct (index <? len data) eqn:Elt; [| discriminate].
  apply Z.ltb_lt in Elt.
  destruct (get_uint32 data index) as [[imr index1] | e | ]; try discriminate.
  destruct (get_uint32 data index1) as [[ety index2] | e | ]; try discriminate.
  destruct (imr =? 4294967295); [discriminate |].
  destruct (ety =? EV_NO_ACTION).
  - destruct (_parse_header (skipn (Z.to_nat index) data) w) as [[n | e | ] w1] eqn:Eh;
      try discriminate.
    inversion H; subst index' w'; clear H.
    pose proof (_parse_header_registry_ok _ _ _ _ Eh) as Hok1.
    apply _parse_header_Return in Eh.
    destruct Eh as (hdr & ev & _ & _ & _ & _ & Hna & Hnv & _ & _ & Hn & Hle).
    rewrite len_skipn in Hle by lia.
    split; [lia |]. exact Hok1.
  - destruct (parse_event_log_body (self w) (skipn (Z.to_nat index) data))
      as [[ev n] | e | ] eqn:Eb; try discriminate.
    inversion H; subst index' w'; clear H.
    apply parse_event_log_body_Return in Eb; [| exact Hok].
    rewrite len_skipn in Eb by lia.
    split; [lia |]. exact Hok.
Qed.

Lemma parse_step_Stop : forall data index w r w',
  parse_step data index w = Stop (r, w') -> decoder_outcome r.
Proof.
  intros data index w r w' H. unfold parse_step in H.
  destruct (index <? len data); [| inversion H; exact I].
  pose proof (get_uint32_outcome data index) as F1.
  destruct (get_uint32 data index) as [[imr index1] | e | ];
    [| inversion H; subst; exact F1 | inversion H; subst; exact F1].
  pose proof (get_uint32_outcome data index1) as F2.
  destruct (get_uint32 data index1) as [[ety index2] | e | ];
    [| inversion H; subst; exact F2 | inversion H; subst; exact F2].
  destruct (imr =? 4294967295); [inversion H; exact I |].
  destruct (ety =? EV_NO_ACTION).
  - pose proof (_parse_header_decoder (skipn (Z.to_nat index) data) w) as F3.
    destruct (_parse_header (skipn (Z.to_nat index) data) w) as [[n | e | ] w1];
      simpl in F3; [discriminate | inversion H; subst; exact F3
                   | inversion H; subst; exact F3].
  - pose proof (parse_event_log_body_outcome (self w) (skipn (Z.to_nat index) data)) as F3.
    destruct (parse_event_log_body (self w) (skipn (Z.to_nat index) data))
      as [[ev n] | e | ]; [discriminate | inversion H; subst; exact F3
                         | inversion H; subst; exact F3].
Qed.

(** Once the fuel exceeds the bytes left, the loop does not depend on it
    and does not exhaust it. *)
Lemma _parse_loop_enough : forall fuel1 fuel2 data index w,
  registry_ok (self w) -> 0 <= index <= len data ->
  len data - index < Z.of_nat fuel1 ->
  len data - index < Z.of_nat fuel2 ->
  _parse_loop fuel1 data index w = _parse_loop fuel2 data index w /\
  fst (_parse_loop fuel1 data index w) <> OutOfFuel.
Proof.
  induction fuel1 as [| fuel1 IH]; intros fuel2 data index w Hok Hi H1 H2.
  - exfalso. simpl in H1. lia.
  - destruct fuel2 as [| fuel2]; [exfalso; simpl in H2; lia |].
    rewrite !_parse_loop_unfold.
    destruct (parse_step data index w) as [[r w1] | index' w'] eqn:Es.
    + split; [reflexivity |]. simpl.
      apply decoder_outcome_fuel. eapply parse_step_Stop; eassumption.
    + apply parse_step_Continue in Es; [| assumption | lia].
      destruct Es as (Hlt & Hok').
      apply IH; try assumption; lia.
Qed.

(** [_parse] is total on the worlds the decoder produces: it returns or
    raises, whatever the buffer. *)
Lemma _parse_total : forall w,
  registry_ok (self w) -> fst (_parse w) <> OutOfFuel.
Proof.
  intros w Hok. destruct (_data (self w)) as [data |] eqn:Ed.
  - rewrite (_parse_Some _ _ Ed).
    apply (_parse_loop_enough (S (length data)) (S (length data)));
      try assumption; unfold len; lia.
  - rewrite (_parse_None _ Ed). discriminate.
Qed.

(** The loop started at the head of a run ends as the run's last
    configuration does. *)
Lemma _parse_loop_reaches : forall data c c',
  reaches data c c' ->
  forall fuel,
    registry_ok (self (snd c)) -> 0 <= fst c <= len data ->
    len data - fst c < Z.of_nat fuel ->
    registry_ok (self (snd c')) /\ 0 <= fst c' <= len data /\
    fst c <= fst c' /\
    exists fuel', len data - fst c' < Z.of_nat fuel' /\
      _parse_loop fuel data (fst c) (snd c) = _parse_loop fuel' data (fst c') (snd c').
Proof.
  intros data c c' Hr. induction Hr as [c | index w index' w' c Hs Hr IH];
    intros fuel Hok Hi Hf.
  - repeat split; try assumption; try lia. exists fuel. auto.
  - simpl in *. destruct fuel as [| fuel]; [exfalso; simpl in Hf; lia |].
    pose proof (parse_step_Continue _ _ _ _ _ Hok (proj1 Hi) Hs) as (Hlt & Hok').
    destruct (IH fuel Hok') as (Hok'' & Hi' & Hle & fuel' & Hf' & Heq); try lia.
    repeat split; try assumption; try lia.
    exists fuel'. split; [exact Hf' |].
    rewrite _parse_loop_unfold, Hs. exact Heq.
Qed.

(** What [_parse] does is what the step taken from any configuration of
    its run does, when that step stops the loop. *)
Lemma _parse_reaches_Stop : forall w0 data index w r,
  _data (self w0) = Some data -> registry_ok (self w0) ->
  reaches data (0, w0) (index, w) ->
  parse_step data index w = Stop r ->
  _parse w0 = r.
Proof.
  intros w0 data index w r Hd Hok Hr Hs.
  rewrite (_parse_Some _ _ Hd).
  destruct (_parse_loop_reaches _ _ _ Hr (S (length data)))
    as (_ & Hi & _ & fuel' & Hf & Heq); simpl; try assumption;
    try (pose proof (len_nonneg _ data); unfold len in *; lia).
  simpl in Heq, Hf, Hi. rewrite Heq.
  destruct fuel' as [| fuel']; [exfalso; simpl in Hf; lia |].
  rewrite _parse_loop_unfold, Hs. reflexivity.
Qed.

(** ** Reads through a slice of the buffer *)

Lemma slice_skipn : forall d s a b,
  0 <= s -> 0 <= a ->
  slice (skipn (Z.to_nat s) d) a b = slice d (s + a) (s + b).
Proof.
  intros d s a b Hs Ha. unfold slice.
  rewrite skipn_skipn.
  replace (Z.to_nat a + Z.to_nat s)%nat with (Z.to_nat (s + a)) by lia.
  replace (s + b - (s + a)) with (b - a) by lia.
  reflexivity.
Qed.

(** The first two fields of a record, as the driver and as a sub-parser
    read them. *)
Lemma record_prefix : forall data start,
  0 <= start -> start + 8 <= len data ->
  get_uint32 data start = Return (le_value (slice data start (start + 4)), start + 4) /\
  get_uint32 data (start + 4) =
    Return (le_value (slice data (start + 4) (start + 8)), start + 8).
Proof.
  intros data start Hs Hb. split.
  - apply get_uint32_in_bounds. lia.
  - rewrite get_uint32_in_bounds by lia.
    replace (start + 4 + 4) with (start + 8) by lia. reflexivity.
Qed.

(** A no-action record at the cursor is handed to the header parser. *)
Lemma parse_step_header : forall data index w n w',
  0 <= index ->
  le_value (slice data index (index + 4)) <> 0xFFFFFFFF ->
  le_value (slice data (index + 4) (index + 8)) = EV_NO_ACTION ->
  _parse_header (skipn (Z.to_nat index) data) w = (Return n, w') ->
  parse_step data index w = Continue (index + n) (update_self incr_count w').
Proof.
  intros data index w n w' Hs Himr Hety H.
  pose proof (_parse_header_Return _ _ _ _ H)
    as (hdr & ev & _ & _ & _ & _ & Hna & Hnv & _ & _ & Hn & Hle).
  assert (Hlen : index + 61 <= len data).
  { destruct (Z.le_gt_cases index (len data)) as [Hin | Hout].
    - rewrite len_skipn in Hle by lia. lia.
    - exfalso. rewrite skipn_all2 in Hle by (unfold len in Hout; lia).
      unfold len in Hle. simpl in Hle. lia. }
  unfold parse_step.
  destruct (record_prefix data index Hs) as (R1 & R2); [lia |].
  assert (E : (index <? len data) = true) by (apply Z.ltb_lt; lia).
  rewrite E, R1, R2.
  apply Z.eqb_neq in Himr. rewrite Himr.
  apply Z.eqb_eq in Hety. rewrite Hety.
  rewrite H. reflexivity.
Qed.

(** C1 (amended).  The header record parser returns the offset at which
    the SpecHeader it decoded ends: 8 fixed header bytes + 20 digest
    bytes + 4 size bytes + the 29 + 4 * algorithms + vendor bytes of the
    SpecHeader.  That is the start of the record plus 32 plus the declared
    event_size exactly when the declared size is the length of the
    SpecHeader.  The log driver resumes at the record start plus the
    returned offset. *)
Theorem header_offset : forall data start w n w',
  0 <= start ->
  _parse_header (skipn (Z.to_nat start) data) w = (Return n, w') ->
  exists hdr ev,
    _spec_id_header (self w') = Some hdr /\
    _spec_id_header_event (self w') = Some ev /\
    hdr_event_size hdr = le_value (slice data (start + 28) (start + 32)) /\
    n = 8 + 20 + 4 + (29 + 4 * number_of_algorithms ev + vendor_info_size ev) /\
    (hdr_event_size hdr = 29 + 4 * number_of_algorithms ev + vendor_info_size ev ->
     n = 8 + 20 + 4 + hdr_event_size hdr) /\
    (le_value (slice data start (start + 4)) <> 0xFFFFFFFF ->
     le_value (slice data (start + 4) (start + 8)) = EV_NO_ACTION ->
     parse_step data start w = Continue (start + n) (update_self incr_count w') /\
     forall fuel,
       _parse_loop (S fuel) data start w =
       _parse_loop fuel data (start + n) (update_self incr_count w')).
Proof.
  intros data start w n w' Hs H.
  pose proof (_parse_header_Return _ _ _ _ H)
    as (hdr & ev & Hw & _ & Hsz & _ & Hna & Hnv & _ & _ & Hn & Hle).
  exists hdr, ev.
  split; [subst w'; reflexivity |].
  split; [subst w'; reflexivity |].
  split; [rewrite Hsz, slice_skipn by lia; reflexivity |].
  split; [lia |].
  split; [lia |].
  intros Himr Hety.
  pose proof (parse_step_header _ _ _ _ _ Hs Himr Hety H) as Hstep.
  split; [exact Hstep |].
  intro fuel. rewrite _parse_loop_unfold, Hstep. reflexivity.
Qed.

Lemma header_offset_witness :
  exists hdr ev,
    _spec_id_header (self (snd (_parse_header header_sample (fresh (Some header_sample)))))
      = Some hdr /\
    _spec_id_header_event (self (snd (_parse_header header_sample (fresh (Some header_sample)))))
      = Some ev /\
    hdr_event_size hdr = le_value (slice header_sample (0 + 28) (0 + 32)) /\
    65 = 8 + 20 + 4 + (29 + 4 * number_of_algorithms ev + vendor_info_size ev) /\
    (hdr_event_size hdr = 29 + 4 * number_of_algorithms ev + vendor_info_size ev ->
     65 = 8 + 20 + 4 + hdr_event_size hdr) /\
    (le_value (slice header_sample 0 (0 + 4)) <> 0xFFFFFFFF ->
     le_value (slice header_sample (0 + 4) (0 + 8)) = EV_NO_ACTION ->
     parse_step header_sample 0 (fresh (Some header_sample)) =
       Continue (0 + 65)
         (update_self incr_count
            (snd (_parse_header header_sample (fresh (Some header_sample))))) /\
     forall fuel,
       _parse_loop (S fuel) header_sample 0 (fresh (Some header_sample)) =
       _parse_loop fuel header_sample (0 + 65)
         (update_self incr_count
            (snd (_parse_header header_sample (fresh (Some header_sample)))))).
Proof.
  apply (header_offset header_sample 0 (fresh (Some header_sample)) 65
           (snd (_parse_header header_sample (fresh (Some header_sample))))).
  - lia.
  - vm_compute. reflexivity.
Defined.

(** C1 as stated fails: on [header_padded] the declared event_size is 34
    and fits the buffer, the SpecHeader takes 33 bytes, and the parser
    returns 65, not 66. *)
Lemma header_offset_is_declared_size_fails : ~ header_offset_is_declared_size.
Proof.
  intro H.
  specialize (H header_padded (fresh (Some header_padded)) 65
                (snd (_parse_header header_padded (fresh (Some header_padded))))
                (mkPcClientImrEvent 0 3 (repeat x00 20) 34 (spec_header_sample ++ [x00]))).
  assert (E : 65 = 8 + 20 + 4 + 34).
  { apply H.
    - vm_compute. reflexivity.
    - vm_compute. reflexivity.
    - vm_compute. discriminate. }
  discriminate E.
Qed.

(** ** The end-of-log sentinel *)

Lemma slice_firstn : forall d a b,
  0 <= a <= b -> slice (firstn (Z.to_nat b) d) a b = slice d a b.
Proof.
  intros d a b H. unfold slice.
  rewrite skipn_firstn_comm.
  replace (Z.to_nat b - Z.to_nat a)%nat with (Z.to_nat (b - a)) by lia.
  rewrite firstn_firstn, Nat.min_id. reflexivity.
Qed.

Lemma parse_step_sentinel : forall data index w,
  0 <= index -> index + 8 <= len data ->
  le_value (slice data index (index + 4)) = 0xFFFFFFFF ->
  parse_step data index w = Stop (Return tt, w).
Proof.
  intros data index w Hi Hb Hs. unfold parse_step.
  destruct (record_prefix data index Hi Hb) as (R1 & R2).
  assert (E : (index <? len data) = true) by (apply Z.ltb_lt; lia).
  rewrite E, R1, R2, Hs. reflexivity.
Qed.

Lemma parse_step_short_prefix : forall data index w,
  0 <= index -> index + 4 <= len data -> len data < index + 8 ->
  parse_step data index w = Stop (Raise OutOfBounds, w).
Proof.
  intros data index w Hi Hb Hs. unfold parse_step.
  assert (E : (index <? len data) = true) by (apply Z.ltb_lt; lia).
  rewrite E, get_uint32_in_bounds by lia.
  rewrite get_uint32_out_of_bounds by lia. reflexivity.
Qed.

(** C5 (amended).  When the register-index field at the cursor is
    0xFFFFFFFF and at least 8 bytes are left there (the field and the
    event-type field read with it), the loop stops without error; the
    world, hence the count and the record sequence accumulated so far, is
    unchanged; and the outcome is the same whatever bytes follow the
    sentinel: any buffer that agrees up to the end of the sentinel and has
    8 bytes at the cursor stops the same way. *)
Theorem sentinel_stops : forall data index w,
  0 <= index -> index + 8 <= len data ->
  le_value (slice data index (index + 4)) = 0xFFFFFFFF ->
  (forall fuel, _parse_loop (S fuel) data index w = (Return tt, w)) /\
  (forall data' fuel,
     firstn (Z.to_nat (index + 4)) data' = firstn (Z.to_nat (index + 4)) data ->
     index + 8 <= len data' ->
     _parse_loop (S fuel) data' index w = (Return tt, w)) /\
  (forall w0,
     _data (self w0) = Some data -> registry_ok (self w0) ->
     reaches data (0, w0) (index, w) ->
     _parse w0 = (Return tt, w)).
Proof.
  intros data index w Hi Hb Hs.
  pose proof (parse_step_sentinel data index w Hi Hb Hs) as Hstep.
  split; [| split].
  - intro fuel. rewrite _parse_loop_unfold, Hstep. reflexivity.
  - intros data' fuel Hpre Hb'.
    rewrite _parse_loop_unfold, parse_step_sentinel; try assumption; [reflexivity |].
    rewrite <- (slice_firstn data') by lia.
    rewrite Hpre, slice_firstn by lia. exact Hs.
  - intros w0 Hd Hok Hr. eapply _parse_reaches_Stop; eassumption.
Qed.

Lemma sentinel_stops_witness :
  (0 <= 0 /\ 0 + 8 <= len (sentinel ++ repeat x00 4) /\
   le_value (slice (sentinel ++ repeat x00 4) 0 (0 + 4)) = 0xFFFFFFFF) /\
  _parse (fresh (Some (sentinel ++ repeat x00 4)))
    = (Return tt, fresh (Some (sentinel ++ repeat x00 4))).
Proof.
  assert (H1 : 0 <= 0) by lia.
  assert (H2 : 0 + 8 <= len (sentinel ++ repeat x00 4)) by (vm_compute; discriminate).
  assert (H3 : le_value (slice (sentinel ++ repeat x00 4) 0 (0 + 4)) = 0xFFFFFFFF)
    by reflexivity.
  split; [auto |].
  apply (proj2 (proj2 (sentinel_stops (sentinel ++ repeat x00 4) 0
                         (fresh (Some (sentinel ++ repeat x00 4))) H1 H2 H3))).
  - reflexivity.
  - exact I.
  - apply reaches_refl.
Defined.

(** C5 as stated fails: a buffer that ends with the four sentinel bytes
    makes the loop raise instead of stopping. *)
Lemma sentinel_always_stops_fails : ~ sentinel_always_stops.
Proof.
  intro H.
  specialize (H sentinel 0 (fresh (Some sentinel)) 0%nat).
  assert (E : _parse_loop 1 sentinel 0 (fresh (Some sentinel))
              = (Return tt, fresh (Some sentinel))).
  { apply H.
    - lia.
    - vm_compute. discriminate.
    - vm_compute. reflexivity. }
  vm_compute in E. discriminate E.
Qed.

(** C10.  The sentinel is tested only after both the register index and
    the event type have been read: with the sentinel at the cursor and
    fewer than 8 bytes left, the read of the event type is out of bounds
    and the loop raises; it ends cleanly exactly when at least 4 bytes
    follow the sentinel. *)
Theorem sentinel_needs_event_type : forall data index w fuel,
  0 <= index -> index + 4 <= len data ->
  le_value (slice data index (index + 4)) = 0xFFFFFFFF ->
  (len data < index + 8 ->
   get_uint32 data index = Return (0xFFFFFFFF, index + 4) /\
   get_uint32 data (index + 4) = Raise OutOfBounds /\
   _parse_loop (S fuel) data index w = (Raise OutOfBounds, w)) /\
  (fst (_parse_loop (S fuel) data index w) = Return tt <-> index + 8 <= len data).
Proof.
  intros data index w fuel Hi Hb Hs. split.
  - intro Hshort. split; [| split].
    + rewrite get_uint32_in_bounds by lia. rewrite Hs. reflexivity.
    + apply get_uint32_out_of_bounds. lia.
    + rewrite _parse_loop_unfold, parse_step_short_prefix by lia. reflexivity.
  - rewrite _parse_loop_unfold. split.
    + intro Hret. destruct (Z.le_gt_cases (index + 8) (len data)) as [Hle | Hgt];
        [exact Hle |].
      rewrite parse_step_short_prefix in Hret by lia. discriminate Hret.
    + intro Hle. rewrite parse_step_sentinel by assumption. reflexivity.
Qed.

Lemma sentinel_needs_event_type_witness :
  (0 <= 0 /\ 0 + 4 <= len sentinel /\
   le_value (slice sentinel 0 (0 + 4)) = 0xFFFFFFFF) /\
  (len sentinel < 0 + 8 ->
   get_uint32 sentinel 0 = Return (0xFFFFFFFF, 0 + 4) /\
   get_uint32 sentinel (0 + 4) = Raise OutOfBounds /\
   _parse_loop 1 sentinel 0 (fresh (Some sentinel))
     = (Raise OutOfBounds, fresh (Some sentinel))) /\
  (fst (_parse_loop 1 sentinel 0 (fresh (Some sentinel))) = Return tt
   <-> 0 + 8 <= len sentinel).
Proof.
  assert (H1 : 0 <= 0) by lia.
  assert (H2 : 0 + 4 <= len sentinel) by (vm_compute; discriminate).
  assert (H3 : le_value (slice sentinel 0 (0 + 4)) = 0xFFFFFFFF) by reflexivity.
  split; [auto |].
  exact (sentinel_needs_event_type sentinel 0 (fresh (Some sentinel)) 0%nat H1 H2 H3).
Defined.

(** ** Runs of the loop *)

Lemma reaches_run_steps : forall k data index w,
  reaches data (index, w) (run_steps k data index w).
Proof.
  induction k as [| k IH]; intros data index w; cbn [run_steps].
  - apply reaches_refl.
  - destruct (parse_step data index w) as [r | index' w'] eqn:E.
    + apply reaches_refl.
    + eapply reaches_step; [exact E | apply IH].
Qed.

(** ** Unknown algorithm ids *)

Lemma body_digest_loop_unknown : forall o blob n index a,
  unknown_algorithm o blob n index a ->
  forall acc, body_digest_loop o n blob index acc = Raise (ValueError_no_algorithm a).
Proof.
  intros o blob n index a H.
  induction H as [n index a index' Hr Hf
                 | n index a0 index1 alg digest_data index2 a Hr Hf Hb Hu IH];
    intro acc; cbn [body_digest_loop].
  - rewrite Hr. simpl. rewrite Hf. reflexivity.
  - rewrite Hr. simpl. rewrite Hf. simpl. rewrite Hb. simpl. apply IH.
Qed.

Lemma parse_event_log_body_unknown : forall o record a,
  references_unknown_algorithm o record a ->
  parse_event_log_body o record = Raise (ValueError_no_algorithm a).
Proof.
  intros o record a (digest_count & Hc & Hu).
  unfold parse_event_log_body.
  pose proof (get_uint32_Return _ _ _ _ Hc) as (_ & Hb & _).
  rewrite get_uint32_in_bounds by lia. cbn [obind].
  rewrite get_uint32_in_bounds by lia. cbn [obind].
  change (0 + 4 + 4) with 8. rewrite Hc. cbn [obind].
  rewrite (body_digest_loop_unknown _ _ _ _ _ Hu). reflexivity.
Qed.

(** C3.  When the run of the parse comes to a measurement record whose
    digest list references an algorithm id with no entry in the registry,
    [_parse] raises the ValueError of the unknown algorithm there, and the
    world it leaves is the world at the head of that record: the records
    and the count are those accumulated before it, and nothing at or
    beyond the record is added. *)
Theorem unknown_algorithm_aborts : forall w0 data index w a,
  _data (self w0) = Some data -> registry_ok (self w0) ->
  reaches data (0, w0) (index, w) ->
  le_value (slice data index (index + 4)) <> 0xFFFFFFFF ->
  le_value (slice data (index + 4) (index + 8)) <> EV_NO_ACTION ->
  references_unknown_algorithm (self w) (skipn (Z.to_nat index) data) a ->
  _parse w0 = (Raise (ValueError_no_algorithm a), w) /\
  _event_logs (self (snd (_parse w0))) = _event_logs (self w) /\
  _count (self (snd (_parse w0))) = _count (self w).
Proof.
  intros w0 data index w a Hd Hok Hr Himr Hety Hu.
  assert (Hi : 0 <= index <= len data).
  { destruct (_parse_loop_reaches _ _ _ Hr (S (length data))) as (_ & Hi & _);
      simpl in *; try assumption;
      pose proof (len_nonneg _ data); unfold len in *; lia. }
  assert (Hb : index + 8 <= len data).
  { destruct Hu as (digest_count & Hc & _).
    apply get_uint32_Return in Hc. destruct Hc as (_ & Hc & _).
    rewrite len_skipn in Hc by lia. lia. }
  destruct Hi as (Hi & _).
  assert (Hstep : parse_step data index w = Stop (Raise (ValueError_no_algorithm a), w)).
  { unfold parse_step.
    destruct (record_prefix data index Hi Hb) as (R1 & R2).
    assert (E : (index <? len data) = true) by (apply Z.ltb_lt; lia).
    rewrite E, R1, R2.
    apply Z.eqb_neq in Himr. rewrite Himr.
    apply Z.eqb_neq in Hety. rewrite Hety.
    rewrite (parse_event_log_body_unknown _ _ _ Hu). reflexivity. }
  rewrite (_parse_reaches_Stop _ _ _ _ _ Hd Hok Hr Hstep).
  auto.
Qed.

Lemma unknown_algorithm_aborts_witness :
  (_data (self (fresh (Some log_0x9999))) = Some log_0x9999 /\
   registry_ok (self (fresh (Some log_0x9999))) /\
   reaches log_0x9999 (0, fresh (Some log_0x9999)) (119, world_0x9999) /\
   le_value (slice log_0x9999 119 (119 + 4)) <> 0xFFFFFFFF /\
   le_value (slice log_0x9999 (119 + 4) (119 + 8)) <> EV_NO_ACTION /\
   references_unknown_algorithm (self world_0x9999)
     (skipn (Z.to_nat 119) log_0x9999) 0x9999) /\
  _parse (fresh (Some log_0x9999))
    = (Raise (ValueError_no_algorithm 0x9999), world_0x9999) /\
  _event_logs (self (snd (_parse (fresh (Some log_0x9999)))))
    = _event_logs (self world_0x9999) /\
  _count (self (snd (_parse (fresh (Some log_0x9999))))) = _count (self world_0x9999).
Proof.
  set (w0 := fresh (Some log_0x9999)). set (w := world_0x9999).
  assert (H1 : _data (self w0) = Some log_0x9999) by reflexivity.
  assert (H2 : registry_ok (self w0)) by exact I.
  assert (H3 : reaches log_0x9999 (0, w0) (119, w)).
  { change (119, w) with (run_steps 2 log_0x9999 0 w0). apply reaches_run_steps. }
  assert (H5 : le_value (slice log_0x9999 119 (119 + 4)) <> 0xFFFFFFFF)
    by (vm_compute; discriminate).
  assert (H6 : le_value (slice log_0x9999 (119 + 4) (119 + 8)) <> EV_NO_ACTION)
    by (vm_compute; discriminate).
  assert (H7 : references_unknown_algorithm (self w)
                 (skipn (Z.to_nat 119) log_0x9999) 0x9999).
  { exists 1. split; [vm_compute; reflexivity |].
    eapply unknown_here; vm_compute; reflexivity. }
  split; [repeat split; assumption |].
  exact (unknown_algorithm_aborts w0 log_0x9999 119 w 0x9999 H1 H2 H3 H5 H6 H7).
Defined.

(** ** Registry lookups *)

Lemma len_slice : forall d a b,
  0 <= a <= b -> b <= len d -> len (slice d a b) = b - a.
Proof.
  intros d a b H Hb. unfold slice, len in *.
  rewrite length_firstn, length_skipn. lia.
Qed.

(** The integers the reader returns fit their width. *)
Lemma get_uint32_range : forall d i v j,
  0 <= i -> get_uint32 d i = Return (v, j) -> 0 <= v < 2 ^ 32.
Proof.
  intros d i v j Hi H. apply get_uint32_Return in H. destruct H as (_ & Hb & ->).
  split; [apply le_value_nonneg |].
  pose proof (le_value_bound (slice d i (i + 4))) as Hlt.
  rewrite len_slice in Hlt by lia.
  replace (i + 4 - i) with 4 in Hlt by lia. exact Hlt.
Qed.

Lemma get_uint16_range : forall d i v j,
  0 <= i -> get_uint16 d i = Return (v, j) -> 0 <= v < 2 ^ 16.
Proof.
  intros d i v j Hi H. apply get_uint16_Return in H. destruct H as (_ & Hb & ->).
  split; [apply le_value_nonneg |].
  pose proof (le_value_bound (slice d i (i + 2))) as Hlt.
  rewrite len_slice in Hlt by lia.
  replace (i + 2 - i) with 2 in Hlt by lia. exact Hlt.
Qed.

Lemma get_uint8_range : forall d i v j,
  0 <= i -> get_uint8 d i = Return (v, j) -> 0 <= v < 2 ^ 8.
Proof.
  intros d i v j Hi H. apply get_uint8_Return in H. destruct H as (_ & Hb & ->).
  split; [apply le_value_nonneg |].
  pose proof (le_value_bound (slice d i (i + 1))) as Hlt.
  rewrite len_slice in Hlt by lia.
  replace (i + 1 - i) with 1 in Hlt by lia. exact Hlt.
Qed.

Lemma find_first_match : forall (A : Type) (f : A -> bool) pre x post,
  (forall y, In y pre -> f y = false) -> f x = true ->
  find f (pre ++ x :: post) = Some x.
Proof.
  intros A f pre x post Hpre Hx. induction pre as [| y pre IH]; simpl.
  - rewrite Hx. reflexivity.
  - rewrite (Hpre y) by (left; reflexivity).
    apply IH. intros z Hz. apply Hpre. right. exact Hz.
Qed.

(** C7.  When the registry holds several entries with the algorithm id
    of a digest entry, the entry used is the first one in declaration
    order ([post] may hold any number of further entries with the same
    id): the lookup yields it, and the digest is decoded as the
    [digest_size] bytes of that entry that follow the id. *)
Theorem first_match_wins : forall o ev pre alg post a blob index n acc,
  _spec_id_header_event o = Some ev ->
  digest_sizes ev = pre ++ alg :: post ->
  algo_id alg = a ->
  (forall x, In x pre -> algo_id x <> a) ->
  get_uint16 blob index = Return (a, index + 2) ->
  find_algorithm o a = Return (Some alg) /\
  body_digest_loop o (S n) blob index acc =
    obind (get_bytes blob (index + 2) (digest_size alg))
      (fun '(digest_data, index') =>
         body_digest_loop o n blob index' (acc ++ [mkDigest a digest_data])) /\
  (forall digest_data index',
     0 <= index -> 0 <= digest_size alg ->
     get_bytes blob (index + 2) (digest_size alg) = Return (digest_data, index') ->
     len digest_data = digest_size alg /\ index' = index + 2 + digest_size alg).
Proof.
  intros o ev pre alg post a blob index n acc Hev Hreg Ha Hpre Hr.
  assert (Hf : find_algorithm o a = Return (Some alg)).
  { unfold find_algorithm. rewrite Hev, Hreg.
    rewrite find_first_match; [reflexivity | |].
    - intros y Hy. apply Z.eqb_neq. apply Hpre. exact Hy.
    - apply Z.eqb_eq. exact Ha. }
  split; [exact Hf |]. split.
  - cbn [body_digest_loop]. rewrite Hr. cbn [obind]. rewrite Hf. cbn [obind].
    reflexivity.
  - intros digest_data index' Hi Hs Hb.
    apply get_bytes_Return in Hb. destruct Hb as (Hj & Hle & Hv).
    split; [| exact Hj]. rewrite Hv, len_slice by lia. lia.
Qed.

Lemma first_match_wins_witness :
  (_spec_id_header_event log_duplicate = Some registry_duplicate /\
   digest_sizes registry_duplicate = [] ++ mkAlgorithmSize 4 32 :: [mkAlgorithmSize 4 20] /\
   algo_id (mkAlgorithmSize 4 32) = 4 /\
   (forall x, In x [] -> algo_id x <> 4) /\
   get_uint16 measurement_sample 12 = Return (4, 12 + 2)) /\
  find_algorithm log_duplicate 4 = Return (Some (mkAlgorithmSize 4 32)) /\
  body_digest_loop log_duplicate 1 measurement_sample 12 []
    = Return ([mkDigest 4 (repeat xaa 32)], 46).
Proof.
  assert (H1 : _spec_id_header_event log_duplicate = Some registry_duplicate)
    by reflexivity.
  assert (H2 : digest_sizes registry_duplicate
               = [] ++ mkAlgorithmSize 4 32 :: [mkAlgorithmSize 4 20]) by reflexivity.
  assert (H3 : algo_id (mkAlgorithmSize 4 32) = 4) by reflexivity.
  assert (H4 : forall x, In x [] -> algo_id x <> 4) by (intros x []).
  assert (H5 : get_uint16 measurement_sample 12 = Return (4, 12 + 2))
    by (vm_compute; reflexivity).
  split; [repeat split; assumption |].
  destruct (first_match_wins log_duplicate registry_duplicate [] (mkAlgorithmSize 4 32)
              [mkAlgorithmSize 4 20] 4 measurement_sample 12 0 [] H1 H2 H3 H4 H5)
    as (Hf & Hloop & _).
  split; [exact Hf |].
  rewrite Hloop. vm_compute. reflexivity.
Defined.

(** ** Headers met again *)

Ltac invert_lift H :=
  let Hr := fresh "Hr" in
  apply bind_Return in H; destruct H as ([? ?] & ? & Hr & H);
  apply lift_Return in Hr; destruct Hr as (Hr & ->).

Ltac replay_reads :=
  repeat match goal with
         | Hr : ?r = Return _ |- context [?r] => rewrite Hr; cbv beta iota
         end.

(** What the header parser decodes and stores depends on the bytes only,
    not on the world it starts from. *)
Lemma _parse_header_any_world : forall d w n w',
  _parse_header d w = (Return n, w') ->
  exists hdr ev, forall w2,
    _parse_header d w2 =
    (Return n,
     update_self (set_spec_id_header_event ev) (update_self (set_spec_id_header hdr) w2)).
Proof.
  intros d w n w' H. unfold _parse_header in H.
  do 5 invert_lift H.
  apply bind_Return in H. destruct H as ([] & w1 & Hs1 & H).
  unfold set_self in Hs1. inversion Hs1; subst w1; clear Hs1.
  do 8 invert_lift H.
  invert_lift H.
  apply bind_Return in H. destruct H as ([vinfo j2] & w3 & Hvend & H).
  apply bind_Return in H. destruct H as ([] & w4 & Hs2 & H).
  unfold ret in H. inversion H; subst j2. clear H.
  eexists. eexists. intro w2.
  unfold _parse_header, bind, lift, set_self.
  replay_reads.
  match type of Hvend with context [0 <? ?v] => destruct (0 <? v) end.
  - apply lift_Return in Hvend. destruct Hvend as (Hvend & _).
    unfold lift. rewrite Hvend. reflexivity.
  - unfold ret in Hvend. inversion Hvend; subst. reflexivity.
Qed.

Lemma parse_step_measurement : forall data index w index' w',
  le_value (slice data (index + 4) (index + 8)) <> EV_NO_ACTION ->
  parse_step data index w = Continue index' w' ->
  exists entry e_len,
    parse_event_log_body (self w) (skipn (Z.to_nat index) data) = Return (entry, e_len) /\
    index' = index + e_len /\
    w' = update_self incr_count (update_self (append_event_log entry) w).
Proof.
  intros data index w index' w' Hety H. unfold parse_step in H.
  destruct (index <? len data); [| discriminate].
  destruct (get_uint32 data index) as [[imr index1] | e | ] eqn:E1; try discriminate.
  destruct (get_uint32 data index1) as [[ety index2] | e | ] eqn:E2; try discriminate.
  destruct (imr =? 4294967295); [discriminate |].
  apply get_uint32_Return in E1. destruct E1 as (-> & _ & _).
  apply get_uint32_Return in E2. destruct E2 as (_ & _ & ->).
  replace (index + 4 + 4) with (index + 8) in H by lia.
  apply Z.eqb_neq in Hety. rewrite Hety in H.
  destruct (parse_event_log_body (self w) (skipn (Z.to_nat index) data))
    as [[entry e_len] | e | ]; try discriminate.
  inversion H. exists entry, e_len. auto.
Qed.

Lemma reaches_trans : forall data c1 c2 c3,
  reaches data c1 c2 -> reaches data c2 c3 -> reaches data c1 c3.
Proof.
  intros data c1 c2 c3 H12 H23.
  induction H12 as [c | index w index' w' c Hs Hr IH]; [exact H23 |].
  eapply reaches_step; [exact Hs | apply IH; exact H23].
Qed.

Lemma reaches_measurements_reaches : forall data c c',
  reaches_measurements data c c' -> reaches data c c'.
Proof.
  intros data c c' H.
  induction H as [c | index w index' w' c Hety Hs Hr IH]; [apply reaches_refl |].
  eapply reaches_step; [exact Hs | exact IH].
Qed.

(** Measurement records leave the stored header and registry in place. *)
Lemma reaches_measurements_header : forall data c c',
  reaches_measurements data c c' ->
  _spec_id_header (self (snd c')) = _spec_id_header (self (snd c)) /\
  _spec_id_header_event (self (snd c')) = _spec_id_header_event (self (snd c)).
Proof.
  intros data c c' H.
  induction H as [c | index w index' w' c Hety Hs Hr IH]; [split; reflexivity |].
  destruct (parse_step_measurement _ _ _ _ _ Hety Hs) as (entry & e_len & _ & _ & ->).
  exact IH.
Qed.

(** C6.  A no-action record met when the object already has a header is
    parsed as a header record all the same: the loop of [_parse] goes on
    after it (it is not rejected), appends nothing to the records and
    counts the record; the header and the registry it stores are those
    decoded from this record, the same from whatever world the iteration
    starts; the lookups that follow search that registry; and a
    measurement record is decoded with the registry of the world it is
    met in and leaves it in place.  So over a run of [_parse] that comes
    to this record, at every later point that only measurement records
    separate from it the header and the registry are those of this
    record, the lookups search its registry, and the pass is the loop
    resumed there: the registry in force is that of the most recently
    parsed header. *)
Theorem later_header_replaces_registry : forall data index w n w',
  0 <= index ->
  le_value (slice data index (index + 4)) <> 0xFFFFFFFF ->
  le_value (slice data (index + 4) (index + 8)) = EV_NO_ACTION ->
  _parse_header (skipn (Z.to_nat index) data) w = (Return n, w') ->
  (forall fuel,
     _parse_loop (S fuel) data index w =
     _parse_loop fuel data (index + n) (update_self incr_count w')) /\
  parse_step data index w = Continue (index + n) (update_self incr_count w') /\
  _event_logs (self w') = _event_logs (self w) /\
  _count (self (update_self incr_count w')) = _count (self w) + 1 /\
  exists hdr ev,
    _spec_id_header (self w') = Some hdr /\
    _spec_id_header_event (self w') = Some ev /\
    (forall w2 fuel,
       parse_step data index w2 =
       Continue (index + n)
         (update_self incr_count
            (update_self (set_spec_id_header_event ev)
               (update_self (set_spec_id_header hdr) w2))) /\
       _parse_loop (S fuel) data index w2 =
       _parse_loop fuel data (index + n)
         (update_self incr_count
            (update_self (set_spec_id_header_event ev)
               (update_self (set_spec_id_header hdr) w2)))) /\
    (forall a,
       find_algorithm (self (update_self incr_count w')) a =
       Return (find (fun alg => algo_id alg =? a) (digest_sizes ev))) /\
    (forall index2 w2 index3 w3,
       le_value (slice data (index2 + 4) (index2 + 8)) <> EV_NO_ACTION ->
       parse_step data index2 w2 = Continue index3 w3 ->
       _spec_id_header_event (self w3) = _spec_id_header_event (self w2) /\
       exists entry e_len,
         parse_event_log_body (self w2) (skipn (Z.to_nat index2) data)
           = Return (entry, e_len) /\
         _event_logs (self w3) = _event_logs (self w2) ++ [entry]) /\
    (forall w0 index2 w2,
       _data (self w0) = Some data -> registry_ok (self w0) ->
       reaches data (0, w0) (index, w) ->
       reaches_measurements data (index + n, update_self incr_count w') (index2, w2) ->
       _spec_id_header (self w2) = Some hdr /\
       _spec_id_header_event (self w2) = Some ev /\
       (forall a,
          find_algorithm (self w2) a =
          Return (find (fun alg => algo_id alg =? a) (digest_sizes ev))) /\
       (exists fuel, _parse w0 = _parse_loop (S fuel) data index2 w2) /\
       (forall r, parse_step data index2 w2 = Stop r -> _parse w0 = r)).
Proof.
  intros data index w n w' Hi Himr Hety H.
  pose proof (parse_step_header _ _ _ _ _ Hi Himr Hety H) as Hstep.
  destruct (_parse_header_any_world _ _ _ _ H) as (hdr & ev & Hany).
  assert (Hw' : w' = update_self (set_spec_id_header_event ev)
                       (update_self (set_spec_id_header hdr) w)).
  { specialize (Hany w). rewrite H in Hany. inversion Hany. reflexivity. }
  split; [intro fuel; rewrite _parse_loop_unfold, Hstep; reflexivity |].
  split; [exact Hstep |].
  split; [subst w'; reflexivity |].
  split; [subst w'; reflexivity |].
  exists hdr, ev.
  split; [subst w'; reflexivity |].
  split; [subst w'; reflexivity |].
  split; [| split; [| split]].
  - intros w2 fuel.
    assert (Hs2 : parse_step data index w2 =
                  Continue (index + n)
                    (update_self incr_count
                       (update_self (set_spec_id_header_event ev)
                          (update_self (set_spec_id_header hdr) w2))))
      by (apply parse_step_header; try assumption; apply Hany).
    split; [exact Hs2 |].
    rewrite _parse_loop_unfold, Hs2. reflexivity.
  - intro a. subst w'. reflexivity.
  - intros index2 w2 index3 w3 Hety2 Hstep2.
    destruct (parse_step_measurement _ _ _ _ _ Hety2 Hstep2)
      as (entry & e_len & Hbody & _ & ->).
    split; [reflexivity |].
    exists entry, e_len. split; [exact Hbody | reflexivity].
  - intros w0 index2 w2 Hd Hok Hr Hm.
    destruct (reaches_measurements_header _ _ _ Hm) as (Hh2 & He2).
    cbn [snd] in Hh2, He2.
    assert (Hh : _spec_id_header (self w2) = Some hdr)
      by (rewrite Hh2; subst w'; reflexivity).
    assert (He : _spec_id_header_event (self w2) = Some ev)
      by (rewrite He2; subst w'; reflexivity).
    assert (Hreach : reaches data (0, w0) (index2, w2)).
    { eapply reaches_trans; [exact Hr |].
      eapply reaches_step; [exact Hstep |].
      apply reaches_measurements_reaches. exact Hm. }
    split; [exact Hh |]. split; [exact He |].
    split; [intro a; unfold find_algorithm; rewrite He; reflexivity |].
    split.
    + rewrite (_parse_Some _ _ Hd).
      destruct (_parse_loop_reaches _ _ _ Hreach (S (length data)))
        as (_ & Hi2 & _ & fuel' & Hf & Heq); cbn [fst snd]; try assumption;
        try (pose proof (len_nonneg _ data); unfold len in *; lia).
      cbn [fst snd] in Heq, Hf, Hi2.
      destruct fuel' as [| fuel']; [exfalso; simpl in Hf; lia |].
      exists fuel'. exact Heq.
    + intros r Hs. exact (_parse_reaches_Stop _ _ _ _ _ Hd Hok Hreach Hs).
Qed.

Lemma later_header_replaces_registry_witness :
  (0 <= 65 /\
   le_value (slice log_two_headers 65 (65 + 4)) <> 0xFFFFFFFF /\
   le_value (slice log_two_headers (65 + 4) (65 + 8)) = EV_NO_ACTION /\
   _parse_header (skipn (Z.to_nat 65) log_two_headers) world_two_headers
     = (Return 65,
        snd (_parse_header (skipn (Z.to_nat 65) log_two_headers) world_two_headers))) /\
  (_data (self (fresh (Some log_two_headers))) = Some log_two_headers /\
   registry_ok (self (fresh (Some log_two_headers))) /\
   reaches log_two_headers (0, fresh (Some log_two_headers)) (65, world_two_headers) /\
   reaches_measurements log_two_headers
     (65 + 65,
      update_self incr_count
        (snd (_parse_header (skipn (Z.to_nat 65) log_two_headers) world_two_headers)))
     (184, snd (_parse (fresh (Some log_two_headers))))) /\
  option_map digest_sizes (_spec_id_header_event (self world_two_headers))
    = Some [mkAlgorithmSize 4 20] /\
  (forall fuel,
     _parse_loop (S fuel) log_two_headers 65 world_two_headers =
     _parse_loop fuel log_two_headers (65 + 65)
       (update_self incr_count
          (snd (_parse_header (skipn (Z.to_nat 65) log_two_headers) world_two_headers)))) /\
  option_map digest_sizes
    (_spec_id_header_event
       (self (snd (_parse_header (skipn (Z.to_nat 65) log_two_headers)
                     world_two_headers))))
    = Some [mkAlgorithmSize 4 32] /\
  _spec_id_header_event (self (snd (_parse (fresh (Some log_two_headers)))))
    = _spec_id_header_event
        (self (snd (_parse_header (skipn (Z.to_nat 65) log_two_headers)
                      world_two_headers))) /\
  _parse (fresh (Some log_two_headers))
    = (Return tt, snd (_parse (fresh (Some log_two_headers)))) /\
  _count (self (snd (_parse (fresh (Some log_two_headers))))) = 3 /\
  map (fun e => map (fun d => (alg_id d, len (hash d))) (digests e))
      (_event_logs (self (snd (_parse (fresh (Some log_two_headers))))))
    = [[(4, 32)]].
Proof.
  assert (H1 : 0 <= 65) by lia.
  assert (H2 : le_value (slice log_two_headers 65 (65 + 4)) <> 0xFFFFFFFF)
    by (vm_compute; discriminate).
  assert (H3 : le_value (slice log_two_headers (65 + 4) (65 + 8)) = EV_NO_ACTION)
    by (vm_compute; reflexivity).
  assert (H4 : _parse_header (skipn (Z.to_nat 65) log_two_headers) world_two_headers
               = (Return 65,
                  snd (_parse_header (skipn (Z.to_nat 65) log_two_headers)
                         world_two_headers)))
    by (vm_compute; reflexivity).
  assert (H5 : _data (self (fresh (Some log_two_headers))) = Some log_two_headers)
    by reflexivity.
  assert (H6 : registry_ok (self (fresh (Some log_two_headers)))) by exact I.
  assert (H7 : reaches log_two_headers (0, fresh (Some log_two_headers))
                 (65, world_two_headers)).
  { eapply reaches_step; [| apply reaches_refl]. vm_compute. reflexivity. }
  assert (H8 : reaches_measurements log_two_headers
                 (65 + 65,
                  update_self incr_count
                    (snd (_parse_header (skipn (Z.to_nat 65) log_two_headers)
                            world_two_headers)))
                 (184, snd (_parse (fresh (Some log_two_headers))))).
  { eapply reaches_measurements_step; [| | apply reaches_measurements_refl].
    - vm_compute. discriminate.
    - vm_compute. reflexivity. }
  assert (H9 : parse_step log_two_headers 184 (snd (_parse (fresh (Some log_two_headers))))
               = Stop (Return tt, snd (_parse (fresh (Some log_two_headers)))))
    by (vm_compute; reflexivity).
  destruct (later_header_replaces_registry log_two_headers 65 world_two_headers 65
              _ H1 H2 H3 H4)
    as (Hloop & _ & _ & _ & hdr & ev & _ & Hev & _ & _ & _ & Hrun).
  destruct (Hrun _ _ _ H5 H6 H7 H8) as (_ & Hev2 & _ & _ & Hstop).
  split; [repeat split; assumption |].
  split; [split; [exact H5 | split; [exact H6 | split; [exact H7 | exact H8]]] |].
  split; [vm_compute; reflexivity |].
  split; [exact Hloop |].
  split; [vm_compute; reflexivity |].
  split; [rewrite Hev2, Hev; reflexivity |].
  split; [exact (Hstop _ H9) |].
  split; vm_compute; reflexivity.
Defined.

(** The whole parse of [log_two_headers]: both headers are counted, and
    the digest of the measurement record has the 32 bytes the second
    header declares. *)
Example log_two_headers_parse :
  fst (_parse (fresh (Some log_two_headers))) = Return tt /\
  _count (self (snd (_parse (fresh (Some log_two_headers))))) = 3 /\
  map (fun e => map (fun d => (alg_id d, len (hash d))) (digests e))
      (_event_logs (self (snd (_parse (fresh (Some log_two_headers))))))
    = [[(4, 32)]].
Proof. vm_compute. repeat split. Qed.

(** ** What a parse pass leaves of the world *)

Lemma keeps_records_bind : forall (A B : Type) (m : M A) (k : A -> M B),
  keeps_records m -> (forall a, keeps_records (k a)) -> keeps_records (bind m k).
Proof.
  intros A B m k Hm Hk w. unfold bind.
  specialize (Hm w). destruct (m w) as [[a | e | ] w1]; simpl in *;
    try exact Hm.
  destruct Hm as (D & R & C & L).
  destruct (Hk a w1) as (D' & R' & C' & L').
  repeat split; congruence.
Qed.

Lemma keeps_records_lift : forall (A : Type) (r : outcome A), keeps_records (lift r).
Proof. intros A r w. simpl. auto. Qed.

Lemma keeps_records_ret : forall (A : Type) (a : A), keeps_records (ret a).
Proof. intros A a w. simpl. auto. Qed.

Lemma keeps_records_set_header : forall hdr,
  keeps_records (set_self (set_spec_id_header hdr)).
Proof. intros hdr w. simpl. auto. Qed.

Lemma keeps_records_set_header_event : forall ev,
  keeps_records (set_self (set_spec_id_header_event ev)).
Proof. intros ev w. simpl. auto. Qed.

Ltac keeps_records_step :=
  first
    [ apply keeps_records_ret
    | apply keeps_records_set_header
    | apply keeps_records_set_header_event
    | apply keeps_records_lift
    | apply keeps_records_bind; [| first [ intros [? ?] | intros ? ] ] ].

Lemma _parse_header_keeps_records : forall d, keeps_records (_parse_header d).
Proof.
  intro d. unfold _parse_header.
  repeat keeps_records_step.
  destruct (0 <? _); keeps_records_step.
Qed.

Lemma grows_refl : forall w, grows w w.
Proof.
  intro w. unfold grows. repeat split; try lia.
  exists []. rewrite app_nil_r. reflexivity.
Qed.

Lemma grows_trans : forall w1 w2 w3, grows w1 w2 -> grows w2 w3 -> grows w1 w3.
Proof.
  intros w1 w2 w3 (D1 & (m1 & R1) & C1 & L1) (D2 & (m2 & R2) & C2 & L2).
  unfold grows. repeat split; try congruence; try lia.
  exists (m1 ++ m2). rewrite R2, R1, app_assoc. reflexivity.
Qed.

Lemma parse_step_grows : forall data index w,
  match parse_step data index w with
  | Stop (_, w') => grows w w'
  | Continue _ w' => grows w w'
  end.
Proof.
  intros data index w. unfold parse_step.
  destruct (index <? len data); [| apply grows_refl].
  destruct (get_uint32 data index) as [[imr index1] | e | ]; try apply grows_refl.
  destruct (get_uint32 data index1) as [[ety index2] | e | ]; try apply grows_refl.
  destruct (imr =? 4294967295); [apply grows_refl |].
  destruct (ety =? EV_NO_ACTION).
  - pose proof (_parse_header_keeps_records (skipn (Z.to_nat index) data) w)
      as (D & R & C & L).
    destruct (_parse_header (skipn (Z.to_nat index) data) w) as [[n | e | ] w1];
      simpl in *; unfold grows; simpl; repeat split; try congruence; try lia;
      exists []; rewrite app_nil_r; congruence.
  - destruct (parse_event_log_body (self w) (skipn (Z.to_nat index) data))
      as [[ev n] | e | ]; try apply grows_refl.
    unfold grows. simpl. repeat split; try lia.
    exists [ev]. reflexivity.
Qed.

Lemma _parse_loop_grows : forall fuel data index w,
  grows w (snd (_parse_loop fuel data index w)).
Proof.
  induction fuel as [| fuel IH]; intros data index w.
  - simpl. apply grows_refl.
  - rewrite _parse_loop_unfold.
    pose proof (parse_step_grows data index w) as Hs.
    destruct (parse_step data index w) as [[r w1] | index' w1].
    + exact Hs.
    + eapply grows_trans; [exact Hs | apply IH].
Qed.

Lemma _parse_loop_outcome : forall fuel data index w e,
  fst (_parse_loop fuel data index w) = Raise e -> ~ invalid_range e.
Proof.
  induction fuel as [| fuel IH]; intros data index w e H.
  - simpl in H. discriminate H.
  - rewrite _parse_loop_unfold in H.
    destruct (parse_step data index w) as [[r w1] | index' w1] eqn:Es.
    + apply parse_step_Stop in Es. simpl in H. subst r. exact Es.
    + eapply IH. exact H.
Qed.

(** A parse pass that returns has kept the buffer and the log, and has
    appended to the records. *)
Lemma _parse_grows : forall w w',
  _parse w = (Return tt, w') -> grows w w'.
Proof.
  intros w w' H. destruct (_data (self w)) as [data |] eqn:Ed.
  - rewrite (_parse_Some _ _ Ed) in H.
    pose proof (_parse_loop_grows (S (length data)) data 0 w) as G.
    rewrite H in G. exact G.
  - rewrite (_parse_None _ Ed) in H. discriminate H.
Qed.

(** [_parse] raises no InvalidRange. *)
Lemma _parse_outcome : forall w e w',
  _parse w = (Raise e, w') -> ~ invalid_range e.
Proof.
  intros w e w' H. destruct (_data (self w)) as [data |] eqn:Ed.
  - rewrite (_parse_Some _ _ Ed) in H.
    apply (_parse_loop_outcome (S (length data)) data 0 w). rewrite H. reflexivity.
  - rewrite (_parse_None _ Ed) in H. inversion H. intros [E | E]; discriminate E.
Qed.

(** ** The selector *)

Lemma select_unfold : forall start count,
  select start count = bind _parse (fun _ => select_window start count).
Proof. reflexivity. Qed.

Lemma select_window_Raise : forall start count w e w',
  select_window start count w = (Raise e, w') ->
  _count (self w') = _count (self w) /\
  _data (self w') = _data (self w) /\
  ((e = ValueError_start /\ _event_logs (self w') = _event_logs (self w) /\
    exists s, start = Some s /\ ~ 0 < s <= _count (self w)) \/
   (e = ValueError_count /\
    _event_logs (self w') =
      match start with
      | Some s => skipn (Z.to_nat (s - 1)) (_event_logs (self w))
      | None => _event_logs (self w)
      end /\
    (forall s, start = Some s -> 0 < s <= _count (self w)) /\
    exists c, count = Some c /\ ~ 0 < c <= len (_event_logs (self w')))).
Proof.
  intros start count w e w' H. unfold select_window, bind in H.
  destruct start as [s |]; destruct count as [c |]; simpl in H.
  - destruct ((0 <? s) && (s <=? _count (self w))) eqn:Es; simpl in H.
    + apply andb_prop in Es. destruct Es as (E1 & E2).
      apply Z.ltb_lt in E1. apply Z.leb_le in E2.
      destruct ((0 <? c) && (c <=? len (skipn (Z.to_nat (s - 1)) (_event_logs (self w)))))
        eqn:Ec; simpl in H; [discriminate H |].
      inversion H; subst e w'; clear H. simpl.
      split; [reflexivity |]. split; [reflexivity |]. right.
      split; [reflexivity |]. split; [reflexivity |].
      split; [intros s' Hs'; inversion Hs'; subst; lia |].
      exists c. split; [reflexivity |]. intro Hc.
      apply andb_false_iff in Ec. destruct Ec as [Ec | Ec].
      * apply Z.ltb_ge in Ec. lia.
      * apply Z.leb_gt in Ec. lia.
    + inversion H; subst e w'; clear H. simpl.
      split; [reflexivity |]. split; [reflexivity |]. left.
      split; [reflexivity |]. split; [reflexivity |].
      exists s. split; [reflexivity |]. intro Hs.
      apply andb_false_iff in Es. destruct Es as [Es | Es].
      * apply Z.ltb_ge in Es. lia.
      * apply Z.leb_gt in Es. lia.
  - destruct ((0 <? s) && (s <=? _count (self w))) eqn:Es; simpl in H;
      [discriminate H |].
    inversion H; subst e w'; clear H. simpl.
    split; [reflexivity |]. split; [reflexivity |]. left.
    split; [reflexivity |]. split; [reflexivity |].
    exists s. split; [reflexivity |]. intro Hs.
    apply andb_false_iff in Es. destruct Es as [Es | Es].
    + apply Z.ltb_ge in Es. lia.
    + apply Z.leb_gt in Es. lia.
  - destruct ((0 <? c) && (c <=? len (_event_logs (self w)))) eqn:Ec; simpl in H;
      [discriminate H |].
    inversion H; subst e w'; clear H. simpl.
    split; [reflexivity |]. split; [reflexivity |]. right.
    split; [reflexivity |]. split; [reflexivity |].
    split; [intros s' Hs'; discriminate Hs' |].
    exists c. split; [reflexivity |]. intro Hc.
    apply andb_false_iff in Ec. destruct Ec as [Ec | Ec].
    + apply Z.ltb_ge in Ec. lia.
    + apply Z.leb_gt in Ec. lia.
  - discriminate H.
Qed.

(** C2 (amended).  When [select] fails with InvalidRange, the parse pass
    it runs first has returned and its effect stays: the records that
    pass appended to the ones of before the call, and its count.  If
    start is rejected no truncation is applied to them; if start is
    accepted (or unset) and count is rejected, the truncation by start
    stays applied: the first start-1 records are gone. *)
Theorem failed_select_state : forall w start count e w',
  select start count w = (Raise e, w') ->
  invalid_range e ->
  exists wp,
    _parse w = (Return tt, wp) /\
    (exists more, _event_logs (self wp) = _event_logs (self w) ++ more) /\
    _count (self w') = _count (self wp) /\
    (e = ValueError_start -> _event_logs (self w') = _event_logs (self wp)) /\
    (e = ValueError_count ->
     _event_logs (self w') =
       match start with
       | Some s => skipn (Z.to_nat (s - 1)) (_event_logs (self wp))
       | None => _event_logs (self wp)
       end).
Proof.
  intros w start count e w' H Hinv.
  rewrite select_unfold in H. unfold bind in H.
  destruct (_parse w) as [[[] | e1 | ] wp] eqn:Ep.
  - exists wp. split; [reflexivity |].
    pose proof (_parse_grows _ _ Ep) as (_ & Hmore & _ & _).
    split; [exact Hmore |].
    apply select_window_Raise in H.
    destruct H as (Hc & _ & [(He & Hr & _) | (He & Hr & _)]).
    + split; [exact Hc |]. split; [intros _; exact Hr |].
      intro He'. rewrite He in He'. discriminate He'.
    + split; [exact Hc |]. split; [| intros _; exact Hr].
      intro He'. rewrite He in He'. discriminate He'.
  - inversion H; subst e1 w'. exfalso.
    exact (_parse_outcome _ _ _ Ep Hinv).
  - discriminate H.
Qed.

Lemma failed_select_state_witness :
  (select (Some 3) (Some 0) world_parsed
     = (Raise ValueError_count, snd (select (Some 3) (Some 0) world_parsed)) /\
   invalid_range ValueError_count) /\
  exists wp,
    _parse world_parsed = (Return tt, wp) /\
    (exists more, _event_logs (self wp) = _event_logs (self world_parsed) ++ more) /\
    _count (self (snd (select (Some 3) (Some 0) world_parsed))) = _count (self wp) /\
    (ValueError_count = ValueError_start ->
     _event_logs (self (snd (select (Some 3) (Some 0) world_parsed)))
       = _event_logs (self wp)) /\
    (ValueError_count = ValueError_count ->
     _event_logs (self (snd (select (Some 3) (Some 0) world_parsed)))
       = skipn (Z.to_nat (3 - 1)) (_event_logs (self wp))).
Proof.
  assert (H1 : select (Some 3) (Some 0) world_parsed
               = (Raise ValueError_count, snd (select (Some 3) (Some 0) world_parsed)))
    by (vm_compute; reflexivity).
  assert (H2 : invalid_range ValueError_count) by (right; reflexivity).
  split; [split; assumption |].
  exact (failed_select_state world_parsed (Some 3) (Some 0) ValueError_count _ H1 H2).
Defined.

(** C2 as stated fails: on the parsed [log_sample], whose records are one
    measurement record, [select(3, 0)] re-parses (two records, count 4),
    accepts start 3 and drops two records, then rejects count 0: the
    records left are none. *)
Lemma failed_select_keeps_records_fails : ~ failed_select_keeps_records.
Proof.
  intro H.
  specialize (H log_sample world_parsed (Some 3) (Some 0) ValueError_count
                (snd (select (Some 3) (Some 0) world_parsed))).
  assert (E : _event_logs (self (snd (select (Some 3) (Some 0) world_parsed)))
              = _event_logs (self world_parsed)).
  { apply H.
    - vm_compute. reflexivity.
    - vm_compute. reflexivity.
    - right. reflexivity. }
  vm_compute in E. discriminate E.
Qed.

(** ** The registry invariant

    Every object the methods leave has a registry whose sizes are not
    negative, so [_parse] and [select] never use up the fuel of the model
    on an object built by [__init__] and used through them. *)

Lemma registry_safe_bind : forall (A B : Type) (m : M A) (k : A -> M B),
  registry_safe m -> (forall a, registry_safe (k a)) -> registry_safe (bind m k).
Proof.
  intros A B m k Hm Hk w Hok. unfold bind.
  specialize (Hm w Hok). destruct (m w) as [[a | e | ] w1]; simpl in *;
    try exact Hm.
  apply Hk. exact Hm.
Qed.

Lemma registry_safe_bind_lift : forall (A B : Type) (r : outcome A) (k : A -> M B),
  (forall a, r = Return a -> registry_safe (k a)) ->
  registry_safe (bind (lift r) k).
Proof.
  intros A B r k Hk w Hok. unfold bind, lift.
  destruct r as [a | e | ]; simpl; try exact Hok.
  apply (Hk a); [reflexivity | exact Hok].
Qed.

Lemma registry_safe_ret : forall (A : Type) (a : A), registry_safe (ret a).
Proof. intros A a w Hok. exact Hok. Qed.

Lemma registry_safe_lift : forall (A : Type) (r : outcome A), registry_safe (lift r).
Proof. intros A r w Hok. exact Hok. Qed.

Lemma registry_safe_raise : forall (A : Type) (e : exn), registry_safe (@raise A e).
Proof. intros A e w Hok. exact Hok. Qed.

Lemma registry_safe_LOG_error_ : forall msg, registry_safe (LOG_error_ msg).
Proof. intros msg w Hok. exact Hok. Qed.

Lemma registry_safe_get_self : registry_safe get_self.
Proof. intros w Hok. exact Hok. Qed.

Lemma registry_safe_set_header : forall hdr,
  registry_safe (set_self (set_spec_id_header hdr)).
Proof. intros hdr w Hok. exact Hok. Qed.

Lemma registry_safe_set_event_logs : forall l,
  registry_safe (set_self (set_event_logs l)).
Proof. intros l w Hok. exact Hok. Qed.

Lemma _parse_header_registry_safe : forall d, registry_safe (_parse_header d).
Proof.
  intro d. unfold _parse_header.
  do 5 (apply registry_safe_bind_lift; intros [? ?] _).
  apply registry_safe_bind; [apply registry_safe_set_header | intros _].
  do 7 (apply registry_safe_bind_lift; intros [? ?] _).
  apply registry_safe_bind_lift. intros [sizes index] Hloop.
  apply registry_safe_bind_lift. intros [? ?] _.
  apply registry_safe_bind.
  { destruct (0 <? _); [apply registry_safe_lift | apply registry_safe_ret]. }
  intros [? ?].
  apply registry_safe_bind; [| intros _; apply registry_safe_ret].
  intros w _. unfold registry_ok. simpl.
  apply header_algo_loop_Return in Hloop.
  destruct Hloop as (_ & l' & -> & _ & Hall). exact Hall.
Qed.

Lemma parse_step_registry_ok : forall data index w,
  registry_ok (self w) ->
  match parse_step data index w with
  | Stop (_, w') => registry_ok (self w')
  | Continue _ w' => registry_ok (self w')
  end.
Proof.
  intros data index w Hok. unfold parse_step.
  destruct (index <? len data); [| exact Hok].
  destruct (get_uint32 data index) as [[imr index1] | e | ]; try exact Hok.
  destruct (get_uint32 data index1) as [[ety index2] | e | ]; try exact Hok.
  destruct (imr =? 4294967295); [exact Hok |].
  destruct (ety =? EV_NO_ACTION).
  - pose proof (_parse_header_registry_safe (skipn (Z.to_nat index) data) w Hok) as Hh.
    destruct (_parse_header (skipn (Z.to_nat index) data) w) as [[n | e | ] w1];
      exact Hh.
  - destruct (parse_event_log_body (self w) (skipn (Z.to_nat index) data))
      as [[ev n] | e | ]; exact Hok.
Qed.

Lemma _parse_loop_registry_safe : forall fuel data index,
  registry_safe (_parse_loop fuel data index).
Proof.
  induction fuel as [| fuel IH]; intros data index w Hok.
  - exact Hok.
  - rewrite _parse_loop_unfold.
    pose proof (parse_step_registry_ok data index w Hok) as Hs.
    destruct (parse_step data index w) as [[r w1] | index' w1].
    + exact Hs.
    + apply IH. exact Hs.
Qed.

Lemma _parse_registry_safe : registry_safe _parse.
Proof.
  intros w Hok. destruct (_data (self w)) as [data |] eqn:Ed.
  - rewrite (_parse_Some _ _ Ed). apply _parse_loop_registry_safe. exact Hok.
  - rewrite (_parse_None _ Ed). exact Hok.
Qed.

Lemma select_window_registry_safe : forall start count,
  registry_safe (select_window start count).
Proof.
  intros start count. unfold select_window.
  apply registry_safe_bind; [| intros _].
  - destruct start as [s |]; [| apply registry_safe_ret].
    apply registry_safe_bind; [apply registry_safe_get_self | intro o].
    destruct (negb _).
    + apply registry_safe_bind; [apply registry_safe_LOG_error_ | intros _].
      apply registry_safe_raise.
    + apply registry_safe_set_event_logs.
  - destruct count as [c |]; [| apply registry_safe_ret].
    apply registry_safe_bind; [apply registry_safe_get_self | intro o].
    destruct (negb _).
    + apply registry_safe_bind; [apply registry_safe_LOG_error_ | intros _].
      apply registry_safe_raise.
    + apply registry_safe_set_event_logs.
Qed.

(** [select] keeps the invariant. *)
Lemma select_registry_safe : forall start count, registry_safe (select start count).
Proof.
  intros start count. rewrite select_unfold.
  apply registry_safe_bind; [apply _parse_registry_safe | intros _].
  apply select_window_registry_safe.
Qed.

(** [select] is total where the invariant holds: it returns or raises. *)
Lemma select_total : forall start count w,
  registry_ok (self w) -> fst (select start count w) <> OutOfFuel.
Proof.
  intros start count w Hok. rewrite select_unfold. unfold bind.
  pose proof (_parse_total w Hok) as Hp.
  destruct (_parse w) as [[[] | e | ] wp]; simpl in *; [| discriminate | congruence].
  unfold select_window, bind, get_self, LOG_error_, raise, set_self, ret.
  destruct start as [s |]; destruct count as [c |]; simpl;
    repeat match goal with
           | |- context [negb ?b] => destruct (negb b); simpl
           end; discriminate.
Qed.

(** ** A second parse pass *)

Lemma find_algorithm_resumes : forall oa ob a r,
  _spec_id_header_event oa = None \/
  _spec_id_header_event oa = _spec_id_header_event ob ->
  find_algorithm oa a = Return r ->
  find_algorithm ob a = Return r.
Proof.
  intros oa ob a r Hreg H. unfold find_algorithm in *.
  destruct Hreg as [Hn | He].
  - rewrite Hn in H. discriminate H.
  - rewrite <- He. exact H.
Qed.

Lemma body_digest_loop_resumes : forall oa ob n d i acc r,
  _spec_id_header_event oa = None \/
  _spec_id_header_event oa = _spec_id_header_event ob ->
  body_digest_loop oa n d i acc = Return r ->
  body_digest_loop ob n d i acc = Return r.
Proof.
  intros oa ob n. induction n as [| n IH]; intros d i acc r Hreg H.
  - exact H.
  - cbn [body_digest_loop] in *.
    destruct (get_uint16 d i) as [[a i1] | e | ]; try discriminate H.
    cbn [obind] in *.
    destruct (find_algorithm oa a) as [[alg |] | e | ] eqn:Ef; try discriminate H.
    rewrite (find_algorithm_resumes _ _ _ _ Hreg Ef).
    cbn [obind] in *.
    destruct (get_bytes d i1 (digest_size alg)) as [[bs i2] | e | ]; try discriminate H.
    cbn [obind] in *. apply IH; assumption.
Qed.

Lemma parse_event_log_body_resumes : forall oa ob d r,
  _spec_id_header_event oa = None \/
  _spec_id_header_event oa = _spec_id_header_event ob ->
  parse_event_log_body oa d = Return r ->
  parse_event_log_body ob d = Return r.
Proof.
  intros oa ob d r Hreg H. unfold parse_event_log_body in *.
  destruct (get_uint32 d 0) as [[a i1] | e | ]; try discriminate H.
  cbn [obind] in *.
  destruct (get_uint32 d i1) as [[b i2] | e | ]; try discriminate H.
  cbn [obind] in *.
  destruct (get_uint32 d i2) as [[c i3] | e | ]; try discriminate H.
  cbn [obind] in *.
  destruct (body_digest_loop oa (Z.to_nat c) d i3 []) as [[ds i4] | e | ] eqn:El;
    try discriminate H.
  rewrite (body_digest_loop_resumes _ _ _ _ _ _ _ Hreg El).
  exact H.
Qed.

Section SecondPass.

(** The records and the count the second pass starts with. *)
Variable before : list TcgImrEventLogEntry.
Variable k : Z.

Lemma parse_step_resumes : forall data index wa wb,
  resumes before k wa wb ->
  match parse_step data index wa with
  | Stop (Return _, wa') =>
      wa' = wa /\ parse_step data index wb = Stop (Return tt, wb)
  | Stop (_, _) => True
  | Continue index' wa' =>
      exists wb', parse_step data index wb = Continue index' wb' /\
                  resumes before k wa' wb'
  end.
Proof.
  intros data index wa wb (Hr & Hc & Hreg). unfold parse_step.
  destruct (index <? len data); [| auto].
  destruct (get_uint32 data index) as [[imr index1] | e | ]; try exact I.
  destruct (get_uint32 data index1) as [[ety index2] | e | ]; try exact I.
  destruct (imr =? 4294967295); [auto |].
  destruct (ety =? EV_NO_ACTION).
  - destruct (_parse_header (skipn (Z.to_nat index) data) wa) as [[n | e | ] wa1] eqn:Eh;
      try exact I.
    destruct (_parse_header_any_world _ _ _ _ Eh) as (hdr & ev & Hany).
    pose proof (Hany wa) as Ha. rewrite Eh in Ha. inversion Ha; subst wa1; clear Ha.
    rewrite (Hany wb).
    eexists. split; [reflexivity |].
    unfold resumes. simpl. repeat split; try assumption; try lia.
    right. reflexivity.
  - destruct (parse_event_log_body (self wa) (skipn (Z.to_nat index) data))
      as [[entry n] | e | ] eqn:Eb; try exact I.
    rewrite (parse_event_log_body_resumes _ _ _ _ Hreg Eb).
    eexists. split; [reflexivity |].
    unfold resumes. simpl. repeat split; try assumption; try lia.
    rewrite Hr, app_assoc. reflexivity.
Qed.

Lemma _parse_loop_resumes : forall fuel data index wa wb wa',
  resumes before k wa wb ->
  _parse_loop fuel data index wa = (Return tt, wa') ->
  exists wb', _parse_loop fuel data index wb = (Return tt, wb') /\
              resumes before k wa' wb'.
Proof.
  intro fuel. induction fuel as [| fuel IH];
    intros data index wa wb wa' Hres H.
  - simpl in H. discriminate H.
  - rewrite _parse_loop_unfold in H. rewrite _parse_loop_unfold.
    pose proof (parse_step_resumes data index wa wb Hres) as Hs.
    destruct (parse_step data index wa) as [[r wa1] | index' wa1].
    + inversion H; subst r wa1; clear H.
      destruct Hs as (-> & Hs). rewrite Hs.
      exists wb. split; [reflexivity | exact Hres].
    + destruct Hs as (wb1 & Hs & Hres1). rewrite Hs.
      eapply IH; eassumption.
Qed.

Lemma reaches_resumes : forall data c c',
  reaches data c c' ->
  forall wb, resumes before k (snd c) wb ->
  exists wb', reaches data (fst c, wb) (fst c', wb') /\
              resumes before k (snd c') wb'.
Proof.
  intros data c c' H. induction H as [c | index w index' w' c Hs Hr IH];
    intros wb Hres.
  - exists wb. split; [apply reaches_refl | exact Hres].
  - simpl in *.
    pose proof (parse_step_resumes data index w wb Hres) as Hb.
    rewrite Hs in Hb. destruct Hb as (wb1 & Hsb & Hres1).
    destruct (IH wb1 Hres1) as (wb' & Hrb & Hres').
    exists wb'. split; [| exact Hres'].
    eapply reaches_step; eassumption.
Qed.

End SecondPass.

(** A pass over a buffer whose first pass returned returns too, from any
    world over that buffer, and appends what the first pass produced. *)
Lemma _parse_again : forall data w1 w,
  _parse (fresh (Some data)) = (Return tt, w1) ->
  _data (self w) = Some data ->
  exists w',
    _parse w = (Return tt, w') /\
    _event_logs (self w') = _event_logs (self w) ++ _event_logs (self w1) /\
    _count (self w') = _count (self w) + _count (self w1).
Proof.
  intros data w1 w H1 Hd.
  rewrite (_parse_Some (fresh (Some data)) data) in H1 by reflexivity.
  rewrite (_parse_Some w data Hd).
  assert (Hres : resumes (_event_logs (self w)) (_count (self w))
                   (fresh (Some data)) w).
  { unfold resumes. simpl. rewrite app_nil_r. repeat split; try lia.
    left. reflexivity. }
  destruct (_parse_loop_resumes _ _ _ _ _ _ _ _ Hres H1) as (w' & Hp & Hr & Hc & _).
  exists w'. auto.
Qed.

Lemma select_after_parse : forall start count w wp,
  _parse w = (Return tt, wp) ->
  select start count w = select_window start count wp.
Proof.
  intros start count w wp H. rewrite select_unfold. unfold bind. rewrite H.
  reflexivity.
Qed.

(** The numbers of two calls on [log_sample]: one record and count 2
    after the first call, two records and count 4 after the second. *)
Example select_twice :
  length (_event_logs (self world_parsed)) = 1%nat /\
  _count (self world_parsed) = 2 /\
  length (_event_logs (self (snd (select None None world_parsed)))) = 2%nat /\
  _count (self (snd (select None None world_parsed))) = 4.
Proof. vm_compute. repeat split. Qed.

(** ** Decoding a buffer and decoding an extension of it *)

Lemma slice_app : forall d t a b,
  0 <= a -> b <= len d -> slice (d ++ t) a b = slice d a b.
Proof.
  intros d t a b Ha Hb. unfold slice, len in *.
  destruct (Z.le_gt_cases a b) as [Hab | Hab].
  - rewrite skipn_app, firstn_app.
    replace (Z.to_nat a - length d)%nat with 0%nat by lia.
    rewrite length_skipn.
    replace (Z.to_nat (b - a) - (length d - Z.to_nat a))%nat with 0%nat by lia.
    simpl. rewrite app_nil_r. reflexivity.
  - replace (Z.to_nat (b - a)) with 0%nat by lia. reflexivity.
Qed.

Lemma len_app_le : forall (d t : list byte) x, x <= len d -> x <= len (d ++ t).
Proof. intros d t x H. rewrite len_app. pose proof (len_nonneg _ t). lia. Qed.

Lemma get_bytes_app : forall d t i n r,
  0 <= i -> get_bytes d i n = Return r -> get_bytes (d ++ t) i n = Return r.
Proof.
  unfold get_bytes. intros d t i n r Hi H.
  destruct (i + n <=? len d) eqn:E; [| discriminate H].
  apply Z.leb_le in E.
  pose proof (len_app_le d t _ E) as E'. apply Z.leb_le in E'. rewrite E'.
  rewrite slice_app by lia. exact H.
Qed.

Lemma get_uint8_app : forall d t i r,
  0 <= i -> get_uint8 d i = Return r -> get_uint8 (d ++ t) i = Return r.
Proof.
  unfold get_uint8. intros d t i r Hi H.
  destruct (i + 1 <=? len d) eqn:E; [| discriminate H].
  apply Z.leb_le in E.
  pose proof (len_app_le d t _ E) as E'. apply Z.leb_le in E'. rewrite E'.
  rewrite slice_app by lia. exact H.
Qed.

Lemma get_uint16_app : forall d t i r,
  0 <= i -> get_uint16 d i = Return r -> get_uint16 (d ++ t) i = Return r.
Proof.
  unfold get_uint16. intros d t i r Hi H.
  destruct (i + 2 <=? len d) eqn:E; [| discriminate H].
  apply Z.leb_le in E.
  pose proof (len_app_le d t _ E) as E'. apply Z.leb_le in E'. rewrite E'.
  rewrite slice_app by lia. exact H.
Qed.

Lemma get_uint32_app : forall d t i r,
  0 <= i -> get_uint32 d i = Return r -> get_uint32 (d ++ t) i = Return r.
Proof.
  unfold get_uint32. intros d t i r Hi H.
  destruct (i + 4 <=? len d) eqn:E; [| discriminate H].
  apply Z.leb_le in E.
  pose proof (len_app_le d t _ E) as E'. apply Z.leb_le in E'. rewrite E'.
  rewrite slice_app by lia. exact H.
Qed.

Lemma header_algo_loop_app : forall n d t i acc r,
  0 <= i ->
  header_algo_loop n d i acc = Return r ->
  header_algo_loop n (d ++ t) i acc = Return r.
Proof.
  induction n as [| n IH]; intros d t i acc r Hi H.
  - exact H.
  - cbn [header_algo_loop] in *.
    destruct (get_uint16 d i) as [[a i1] | e | ] eqn:E1; try discriminate H.
    rewrite (get_uint16_app _ t _ _ Hi E1).
    apply get_uint16_Return in E1. destruct E1 as (Hi1 & _ & _).
    cbn [obind] in *.
    destruct (get_uint16 d i1) as [[s i2] | e | ] eqn:E2; try discriminate H.
    assert (HnE2 : 0 <= i1) by lia.
    rewrite (get_uint16_app _ t _ _ HnE2 E2).
    apply get_uint16_Return in E2. destruct E2 as (Hi2 & _ & _).
    cbn [obind] in *. apply IH; [lia | exact H].
Qed.

Lemma body_digest_loop_app : forall o n d t i acc r,
  registry_ok o -> 0 <= i ->
  body_digest_loop o n d i acc = Return r ->
  body_digest_loop o n (d ++ t) i acc = Return r.
Proof.
  intros o n. induction n as [| n IH]; intros d t i acc r Hok Hi H.
  - exact H.
  - cbn [body_digest_loop] in *.
    destruct (get_uint16 d i) as [[a i1] | e | ] eqn:E1; try discriminate H.
    rewrite (get_uint16_app _ t _ _ Hi E1).
    apply get_uint16_Return in E1. destruct E1 as (Hi1 & _ & _).
    cbn [obind] in *.
    destruct (find_algorithm o a) as [[alg |] | e | ] eqn:Ef; try discriminate H.
    pose proof (find_algorithm_size _ _ _ Hok Ef) as Hsz.
    cbn [obind] in *.
    destruct (get_bytes d i1 (digest_size alg)) as [[bs i2] | e | ] eqn:E2;
      try discriminate H.
    assert (HnE2 : 0 <= i1) by lia.
    rewrite (get_bytes_app _ t _ _ _ HnE2 E2).
    apply get_bytes_Return in E2. destruct E2 as (Hi2 & _ & _).
    cbn [obind] in *. apply IH; [exact Hok | lia | exact H].
Qed.

Lemma parse_event_log_body_app : forall o d t r,
  registry_ok o ->
  parse_event_log_body o d = Return r ->
  parse_event_log_body o (d ++ t) = Return r.
Proof.
  intros o d t r Hok H. unfold parse_event_log_body in *.
  destruct (get_uint32 d 0) as [[a i1] | e | ] eqn:E1; try discriminate H.
  assert (HnE1 : 0 <= 0) by lia.
  rewrite (get_uint32_app _ t _ _ HnE1 E1).
  apply get_uint32_Return in E1. destruct E1 as (Hi1 & _ & _).
  cbn [obind] in *.
  destruct (get_uint32 d i1) as [[b i2] | e | ] eqn:E2; try discriminate H.
  assert (HnE2 : 0 <= i1) by lia.
  rewrite (get_uint32_app _ t _ _ HnE2 E2).
  apply get_uint32_Return in E2. destruct E2 as (Hi2 & _ & _).
  cbn [obind] in *.
  destruct (get_uint32 d i2) as [[c i3] | e | ] eqn:E3; try discriminate H.
  assert (HnE3 : 0 <= i2) by lia.
  rewrite (get_uint32_app _ t _ _ HnE3 E3).
  apply get_uint32_Return in E3. destruct E3 as (Hi3 & _ & _).
  cbn [obind] in *.
  destruct (body_digest_loop o (Z.to_nat c) d i3 []) as [[ds i4] | e | ] eqn:E4;
    try discriminate H.
  assert (HnE4 : 0 <= i3) by lia.
  rewrite (body_digest_loop_app _ _ _ t _ _ _ Hok HnE4 E4).
  apply body_digest_loop_Return in E4; [| exact Hok]. destruct E4 as (Hi4 & _).
  cbn [obind] in *.
  destruct (get_uint32 d i4) as [[s i5] | e | ] eqn:E5; try discriminate H.
  assert (HnE5 : 0 <= i4) by lia.
  rewrite (get_uint32_app _ t _ _ HnE5 E5).
  apply get_uint32_Return in E5. destruct E5 as (Hi5 & _ & _).
  cbn [obind] in *.
  destruct (get_bytes d i5 s) as [[ev i6] | e | ] eqn:E6; try discriminate H.
  assert (HnE6 : 0 <= i5) by lia.
  rewrite (get_bytes_app _ t _ _ _ HnE6 E6).
  exact H.
Qed.

Ltac index_facts :=
  repeat match goal with
         | Hr : get_uint32 _ ?i = Return (_, ?j) |- _ =>
             lazymatch goal with
             | _ : j = i + 4 |- _ => fail
             | _ => pose proof (proj1 (get_uint32_Return _ _ _ _ Hr))
             end
         | Hr : get_uint8 _ ?i = Return (_, ?j) |- _ =>
             lazymatch goal with
             | _ : j = i + 1 |- _ => fail
             | _ => pose proof (proj1 (get_uint8_Return _ _ _ _ Hr))
             end
         | Hr : get_bytes _ ?i ?n = Return (_, ?j) |- _ =>
             lazymatch goal with
             | _ : j = i + n |- _ => fail
             | _ => pose proof (proj1 (get_bytes_Return _ _ _ _ _ Hr))
             end
         | Hr : header_algo_loop ?n _ ?i _ = Return (_, ?j) |- _ =>
             lazymatch goal with
             | _ : j = i + 4 * Z.of_nat n |- _ => fail
             | _ => pose proof (proj1 (header_algo_loop_Return _ _ _ _ _ _ Hr))
             end
         end.

Ltac extend_reads d t :=
  repeat match goal with
         | Hr : get_uint32 d ?i = Return _ |- _ =>
             apply (get_uint32_app d t i) in Hr; [| lia]
         | Hr : get_uint8 d ?i = Return _ |- _ =>
             apply (get_uint8_app d t i) in Hr; [| lia]
         | Hr : get_bytes d ?i ?n = Return _ |- _ =>
             apply (get_bytes_app d t i n) in Hr; [| lia]
         | Hr : header_algo_loop ?n d ?i ?acc = Return _ |- _ =>
             apply (header_algo_loop_app n d t i acc) in Hr; [| lia]
         end.

Lemma _parse_header_app : forall d w n w',
  _parse_header d w = (Return n, w') ->
  forall t, _parse_header (d ++ t) w = (Return n, w').
Proof.
  intros d w n w' H t. unfold _parse_header in H.
  do 5 invert_lift H.
  apply bind_Return in H. destruct H as ([] & w1 & Hs1 & H).
  unfold set_self in Hs1. inversion Hs1; subst w1; clear Hs1.
  do 8 invert_lift H.
  invert_lift H.
  apply bind_Return in H. destruct H as ([vinfo j2] & w3 & Hvend & H).
  apply bind_Return in H. destruct H as ([] & w4 & Hs2 & H).
  unfold set_self in Hs2. inversion Hs2; subst w4; clear Hs2.
  unfold ret in H. inversion H; subst j2 w'; clear H.
  index_facts.
  pose_le_value_nonneg.
  match type of Hvend with context [0 <? ?v] => destruct (0 <? v) eqn:Ev end.
  - apply lift_Return in Hvend. destruct Hvend as (Hvend & ->).
    extend_reads d t.
    unfold _parse_header, bind, lift, set_self.
    replay_reads. rewrite Ev. unfold lift. replay_reads. reflexivity.
  - unfold ret in Hvend. inversion Hvend; subst.
    extend_reads d t.
    unfold _parse_header, bind, lift, set_self.
    replay_reads. rewrite Ev. reflexivity.
Qed.

Lemma skipn_app_in : forall (d t : list byte) i,
  0 <= i <= len d ->
  skipn (Z.to_nat i) (d ++ t) = skipn (Z.to_nat i) d ++ t.
Proof.
  intros d t i H. rewrite skipn_app.
  replace (Z.to_nat i - length d)%nat with 0%nat by (unfold len in H; lia).
  reflexivity.
Qed.

(** A step that goes round again is the same step over any extension of
    the buffer. *)
Lemma parse_step_app : forall data t index w index' w',
  registry_ok (self w) -> 0 <= index ->
  parse_step data index w = Continue index' w' ->
  parse_step (data ++ t) index w = Continue index' w'.
Proof.
  intros data t index w index' w' Hok Hi H. unfold parse_step in *.
  destruct (index <? len data) eqn:Elt; [| discriminate H].
  apply Z.ltb_lt in Elt.
  assert (Elt' : (index <? len (data ++ t)) = true).
  { apply Z.ltb_lt. rewrite len_app. pose proof (len_nonneg _ t). lia. }
  rewrite Elt'.
  destruct (get_uint32 data index) as [[imr index1] | e | ] eqn:E1; try discriminate H.
  rewrite (get_uint32_app _ t _ _ Hi E1).
  apply get_uint32_Return in E1. destruct E1 as (Hi1 & _ & _).
  destruct (get_uint32 data index1) as [[ety index2] | e | ] eqn:E2; try discriminate H.
  assert (Hi1' : 0 <= index1) by lia.
  rewrite (get_uint32_app _ t _ _ Hi1' E2).
  destruct (imr =? 4294967295); [discriminate H |].
  rewrite skipn_app_in by lia.
  destruct (ety =? EV_NO_ACTION).
  - destruct (_parse_header (skipn (Z.to_nat index) data) w) as [[n | e | ] w1] eqn:Eh;
      try discriminate H.
    rewrite (_parse_header_app _ _ _ _ Eh t). exact H.
  - destruct (parse_event_log_body (self w) (skipn (Z.to_nat index) data))
      as [[ev n] | e | ] eqn:Eb; try discriminate H.
    rewrite (parse_event_log_body_app _ _ t _ Hok Eb). exact H.
Qed.

Lemma reaches_app : forall data t c c',
  reaches data c c' ->
  registry_ok (self (snd c)) -> 0 <= fst c ->
  reaches (data ++ t) c c'.
Proof.
  intros data t c c' H. induction H as [c | index w index' w' c Hs Hr IH];
    intros Hok Hi.
  - apply reaches_refl.
  - simpl in *.
    pose proof (parse_step_Continue _ _ _ _ _ Hok Hi Hs) as (Hlt & Hok').
    eapply reaches_step.
    + apply parse_step_app; eassumption.
    + apply IH; [exact Hok' | lia].
Qed.

(** A record that is neither the sentinel nor a no-action record is
    handed to the body parser. *)
Lemma parse_step_body : forall data index w entry e_len,
  0 <= index -> index + 8 <= len data ->
  le_value (slice data index (index + 4)) <> 0xFFFFFFFF ->
  le_value (slice data (index + 4) (index + 8)) <> EV_NO_ACTION ->
  parse_event_log_body (self w) (skipn (Z.to_nat index) data) = Return (entry, e_len) ->
  parse_step data index w =
  Continue (index + e_len)
    (update_self incr_count (update_self (append_event_log entry) w)).
Proof.
  intros data index w entry e_len Hi Hb Himr Hety H. unfold parse_step.
  destruct (record_prefix data index Hi Hb) as (R1 & R2).
  assert (E : (index <? len data) = true) by (apply Z.ltb_lt; lia).
  rewrite E, R1, R2.
  apply Z.eqb_neq in Himr. rewrite Himr.
  apply Z.eqb_neq in Hety. rewrite Hety.
  rewrite H. reflexivity.
Qed.

(** ** Little-endian encoding *)

Lemma byte_val_byte_of_Z : forall v, byte_val (byte_of_Z v) = v mod 256.
Proof.
  intro v. unfold byte_val, byte_of_Z.
  pose proof (Z.mod_pos_bound v 256 ltac:(lia)) as Hm.
  destruct (Byte.of_N (Z.to_N (v mod 256))) as [b |] eqn:E.
  - apply Byte.to_of_N in E. rewrite E. lia.
  - exfalso.
    pose proof (Byte.to_of_N_option_map (Z.to_N (v mod 256))) as Ho.
    rewrite E in Ho. simpl in Ho.
    destruct (N.leb_spec (Z.to_N (v mod 256)) 255) as [Hle | Hgt];
      [discriminate Ho | lia].
Qed.

Lemma le_value_le_bytes : forall width v,
  le_value (le_bytes width v) = v mod 256 ^ Z.of_nat width.
Proof.
  induction width as [| width IH]; intro v.
  - simpl. rewrite Z.mod_1_r. reflexivity.
  - cbn [le_bytes le_value]. rewrite byte_val_byte_of_Z, IH.
    rewrite Nat2Z.inj_succ, Z.pow_succ_r by lia.
    rewrite Z.rem_mul_r by lia. reflexivity.
Qed.

Lemma length_le_bytes : forall width v, length (le_bytes width v) = width.
Proof.
  induction width as [| width IH]; intro v; simpl; [reflexivity |].
  rewrite IH. reflexivity.
Qed.

(** ** The end-to-end sample *)

Tactic Notation "explode" ident(l) ident(H) integer(n) :=
  do n (destruct l as [| ? l]; [discriminate H | simpl in H; apply Nat.succ_inj in H]);
  destruct l; [clear H | discriminate H].

Lemma end_to_end_run : forall hreg hdig sig platform_cls version_minor version_major
    errata uintn ety dig payload,
  0 <= hreg < 2 ^ 32 -> hreg <> 0xFFFFFFFF ->
  length hdig = 20%nat -> length sig = 16%nat ->
  0 <= ety < 2 ^ 32 -> ety <> EV_NO_ACTION ->
  length dig = 32%nat -> length payload = 4%nat ->
  exists w,
    reaches (end_to_end_log hreg hdig sig platform_cls version_minor version_major
               errata uintn ety dig payload)
      (0, fresh (Some (end_to_end_log hreg hdig sig platform_cls version_minor
                         version_major errata uintn ety dig payload)))
      (119, w) /\
    len (end_to_end_log hreg hdig sig platform_cls version_minor version_major
           errata uintn ety dig payload) = 123 /\
    slice (end_to_end_log hreg hdig sig platform_cls version_minor version_major
             errata uintn ety dig payload) 119 123 = sentinel /\
    end_to_end_result ety dig payload w.
Proof.
  intros hreg hdig sig platform_cls version_minor version_major errata uintn
         ety dig payload Hhreg Hnot Lhdig Lsig Hety Hno Ldig Lpayload.
  unfold end_to_end_log, encode_header_record, encode_spec_header,
    encode_measurement_record.
  pose proof (le_value_le_bytes 4 hreg) as Vh.
  pose proof (length_le_bytes 4 hreg) as Lh.
  pose proof (le_value_le_bytes 4 ety) as Ve.
  pose proof (length_le_bytes 4 ety) as Le.
  rewrite Z.mod_small in Vh, Ve by (simpl; lia).
  pose proof (length_le_bytes 4 platform_cls) as Lp.
  pose proof (length_le_bytes 1 version_minor) as L1.
  pose proof (length_le_bytes 1 version_major) as L2.
  pose proof (length_le_bytes 1 errata) as L3.
  pose proof (length_le_bytes 1 uintn) as L4.
  generalize dependent (le_bytes 4 hreg). intros hb Vh Lh.
  generalize dependent (le_bytes 4 ety). intros eb Ve Le.
  generalize dependent (le_bytes 4 platform_cls). intros pb Lp.
  generalize dependent (le_bytes 1 version_minor). intros b1 L1.
  generalize dependent (le_bytes 1 version_major). intros b2 L2.
  generalize dependent (le_bytes 1 errata). intros b3 L3.
  generalize dependent (le_bytes 1 uintn). intros b4 L4.
  explode hb Lh 4. explode eb Le 4. explode pb Lp 4.
  explode b1 L1 1. explode b2 L2 1. explode b3 L3 1. explode b4 L4 1.
  explode hdig Lhdig 20. explode sig Lsig 16.
  explode dig Ldig 32. explode payload Lpayload 4.
  match goal with
  | |- exists w, reaches ?d _ _ /\ _ => set (data := d)
  end.
  set (w0 := fresh (Some data)).
  set (w1 := update_self incr_count (snd (_parse_header (skipn (Z.to_nat 0) data) w0))).
  match goal with
  | |- context [end_to_end_result ety ?d ?p] =>
      set (entry := mkImrEventLogEntry 0 ety [mkDigest 4 d] 4 p)
  end.
  assert (S1 : parse_step data 0 w0 = Continue (0 + 65) w1).
  { apply parse_step_header.
    - lia.
    - match type of Vh with
      | le_value ?l = _ => change (slice data 0 (0 + 4)) with l
      end.
      rewrite Vh. exact Hnot.
    - vm_compute. reflexivity.
    - vm_compute. reflexivity. }
  assert (S2 : parse_step data 65 w1
               = Continue (65 + 54)
                   (update_self incr_count (update_self (append_event_log entry) w1))).
  { apply parse_step_body.
    - lia.
    - vm_compute. discriminate.
    - vm_compute. discriminate.
    - match type of Ve with
      | le_value ?l = _ => change (slice data (65 + 4) (65 + 8)) with l
      end.
      rewrite Ve. exact Hno.
    - unfold entry. rewrite <- Ve. vm_compute. reflexivity. }
  exists (update_self incr_count (update_self (append_event_log entry) w1)).
  split.
  { eapply reaches_step; [exact S1 |].
    eapply reaches_step; [exact S2 |].
    apply reaches_refl. }
  split; [vm_compute; reflexivity |].
  split; [vm_compute; reflexivity |].
  unfold end_to_end_result.
  split; [vm_compute; reflexivity |].
  split; [vm_compute; reflexivity |].
  reflexivity.
Qed.

Lemma end_to_end_result_resumes : forall ety dig payload w wb,
  end_to_end_result ety dig payload w ->
  resumes [] 0 w wb ->
  end_to_end_result ety dig payload wb.
Proof.
  intros ety dig payload w wb (Hreg & Hc & Hr) (Rr & Rc & Rreg).
  unfold end_to_end_result.
  destruct Rreg as [Hn | He].
  - rewrite Hn in Hreg. discriminate Hreg.
  - rewrite <- He, Rr, Rc, Hr. repeat split; [exact Hreg | lia].
Qed.

(** C8 (amended).  On the sample buffer, whatever the fields the sample
    leaves open, the parse decodes both records: the registry is
    [(0x0004, 32)], the count is 2 and the records are the one
    measurement record with register index 0, one 32-byte digest tagged
    0x0004 and the 4-byte payload.  With the buffer ending at the four
    sentinel bytes the parse then raises OutOfBounds, on the read of the
    event type after the sentinel, and leaves that result in the object;
    with at least four bytes after the sentinel it returns with it. *)
Theorem end_to_end_sample : forall hreg hdig sig platform_cls version_minor
    version_major errata uintn ety dig payload tail,
  0 <= hreg < 2 ^ 32 -> hreg <> 0xFFFFFFFF ->
  length hdig = 20%nat -> length sig = 16%nat ->
  0 <= ety < 2 ^ 32 -> ety <> EV_NO_ACTION ->
  length dig = 32%nat -> length payload = 4%nat ->
  (fst (_parse (fresh (Some (end_to_end_log hreg hdig sig platform_cls version_minor
                               version_major errata uintn ety dig payload))))
     = Raise OutOfBounds /\
   end_to_end_result ety dig payload
     (snd (_parse (fresh (Some (end_to_end_log hreg hdig sig platform_cls version_minor
                                  version_major errata uintn ety dig payload)))))) /\
  (4 <= len tail ->
   fst (_parse (fresh (Some (end_to_end_log hreg hdig sig platform_cls version_minor
                               version_major errata uintn ety dig payload ++ tail))))
     = Return tt /\
   end_to_end_result ety dig payload
     (snd (_parse (fresh (Some (end_to_end_log hreg hdig sig platform_cls version_minor
                                  version_major errata uintn ety dig payload ++ tail)))))).
Proof.
  intros hreg hdig sig platform_cls version_minor version_major errata uintn
         ety dig payload tail Hhreg Hnot Lhdig Lsig Hety Hno Ldig Lpayload.
  destruct (end_to_end_run hreg hdig sig platform_cls version_minor version_major
              errata uintn ety dig payload Hhreg Hnot Lhdig Lsig Hety Hno Ldig Lpayload)
    as (w & Hr & Hlen & Hsl & Hres).
  set (data := end_to_end_log hreg hdig sig platform_cls version_minor version_major
                 errata uintn ety dig payload) in *.
  split.
  - assert (Hp : _parse (fresh (Some data)) = (Raise OutOfBounds, w)).
    { apply (_parse_reaches_Stop _ data 119 w); [reflexivity | exact I | exact Hr |].
      apply parse_step_short_prefix; lia. }
    rewrite Hp. split; [reflexivity | exact Hres].
  - intro Htail.
    assert (Hra : reaches (data ++ tail) (0, fresh (Some data)) (119, w)).
    { apply reaches_app; [exact Hr | exact I | simpl; lia]. }
    assert (Hres0 : resumes [] 0 (fresh (Some data)) (fresh (Some (data ++ tail)))).
    { unfold resumes. simpl. repeat split. left. reflexivity. }
    destruct (reaches_resumes [] 0 _ _ _ Hra _ Hres0) as (wb & Hrb & Hresb).
    simpl in Hrb, Hresb.
    assert (Hp : _parse (fresh (Some (data ++ tail))) = (Return tt, wb)).
    { apply (_parse_reaches_Stop _ (data ++ tail) 119 wb);
        [reflexivity | exact I | exact Hrb |].
      apply parse_step_sentinel.
      - lia.
      - rewrite len_app. lia.
      - change (119 + 4) with 123. rewrite slice_app by lia. rewrite Hsl. reflexivity. }
    rewrite Hp. split; [reflexivity |].
    eapply end_to_end_result_resumes; eassumption.
Qed.

Lemma end_to_end_sample_witness :
  (0 <= 1 < 2 ^ 32 /\ 1 <> 0xFFFFFFFF /\
   length (repeat x00 20) = 20%nat /\ length sig_sample = 16%nat /\
   0 <= 1 < 2 ^ 32 /\ 1 <> EV_NO_ACTION /\
   length (repeat xaa 32) = 32%nat /\ length [x01; x02; x03; x04] = 4%nat /\
   4 <= len (repeat x00 4)) /\
  (fst (_parse (fresh (Some (end_to_end_log 1 (repeat x00 20) sig_sample 0 0 2 0 2
                               1 (repeat xaa 32) [x01; x02; x03; x04]))))
     = Raise OutOfBounds /\
   end_to_end_result 1 (repeat xaa 32) [x01; x02; x03; x04]
     (snd (_parse (fresh (Some (end_to_end_log 1 (repeat x00 20) sig_sample 0 0 2 0 2
                                  1 (repeat xaa 32) [x01; x02; x03; x04])))))) /\
  fst (_parse (fresh (Some (end_to_end_log 1 (repeat x00 20) sig_sample 0 0 2 0 2
                              1 (repeat xaa 32) [x01; x02; x03; x04] ++ repeat x00 4))))
    = Return tt /\
  end_to_end_result 1 (repeat xaa 32) [x01; x02; x03; x04]
    (snd (_parse (fresh (Some (end_to_end_log 1 (repeat x00 20) sig_sample 0 0 2 0 2
                                 1 (repeat xaa 32) [x01; x02; x03; x04] ++ repeat x00 4))))).
Proof.
  assert (H1 : 0 <= 1 < 2 ^ 32) by (simpl; lia).
  assert (H2 : 1 <> 0xFFFFFFFF) by discriminate.
  assert (H3 : length (repeat x00 20) = 20%nat) by reflexivity.
  assert (H4 : length sig_sample = 16%nat) by reflexivity.
  assert (H5 : 1 <> EV_NO_ACTION) by discriminate.
  assert (H6 : length (repeat xaa 32) = 32%nat) by reflexivity.
  assert (H7 : length [x01; x02; x03; x04] = 4%nat) by reflexivity.
  assert (H8 : 4 <= len (repeat x00 4)) by (vm_compute; discriminate).
  split; [repeat split; try assumption; try lia |].
  destruct (end_to_end_sample 1 (repeat x00 20) sig_sample 0 0 2 0 2 1 (repeat xaa 32)
              [x01; x02; x03; x04] (repeat x00 4) H1 H2 H3 H4 H1 H5 H6 H7) as (Ha & Hb).
  split; [exact Ha |]. exact (Hb H8).
Defined.

(** C8 as stated fails: the sample buffer ends with the four sentinel
    bytes, and the parse does not return on it. *)
Lemma end_to_end_returns_fails : ~ end_to_end_returns.
Proof.
  intro H.
  assert (E : fst (_parse (fresh (Some (end_to_end_log 1 (repeat x00 20) sig_sample
                                         0 0 2 0 2 1 (repeat xaa 32)
                                         [x01; x02; x03; x04]))))
              = Return tt).
  { apply H.
    - simpl. lia.
    - discriminate.
    - reflexivity.
    - reflexivity.
    - simpl. lia.
    - discriminate.
    - reflexivity.
    - reflexivity. }
  vm_compute in E. discriminate E.
Qed.

(** The sample with concrete bytes is the buffer built from the sample
    records. *)
Example end_to_end_log_sample :
  end_to_end_log 1 (repeat x00 20) sig_sample 0 0 2 0 2 1 (repeat xaa 32)
    [x01; x02; x03; x04]
  = header_sample ++ measurement_sample ++ sentinel.
Proof. reflexivity. Qed.

(** ** Absent and empty buffers *)

(** C4 (amended).  On an empty buffer the parse raises no error and
    leaves the object as it was built, count 0 and no records, and logs
    nothing.  On an absent buffer ([None]) the condition is logged, and
    the count stays 0 and the records empty. *)
Theorem empty_input :
  (forall log,
     _parse {| self := __init__ (Some []); LOG := log |}
     = (Return tt, {| self := __init__ (Some []); LOG := log |})) /\
  (forall log,
     LOG (snd (_parse {| self := __init__ None; LOG := log |}))
       = log ++ [LOG_error "Providing invalid data blob."] /\
     _count (self (snd (_parse {| self := __init__ None; LOG := log |}))) = 0 /\
     _event_logs (self (snd (_parse {| self := __init__ None; LOG := log |}))) = []).
Proof.
  split.
  - intro log. reflexivity.
  - intro log. rewrite _parse_None by reflexivity. simpl. auto.
Qed.

(** C4 as stated fails: on the empty buffer nothing is logged. *)
Lemma absent_or_empty_input_reported_fails : ~ absent_or_empty_input_reported.
Proof.
  intro H.
  destruct (H (Some [])) as (_ & _ & _ & Hlog); [right; reflexivity |].
  apply Hlog. reflexivity.
Qed.

(** On an absent buffer the parse logs and then fails on [len(None)]. *)
Example absent_input_raises :
  _parse (fresh None)
  = (Raise TypeError_len_None,
     {| self := __init__ None; LOG := [LOG_error "Providing invalid data blob."] |}).
Proof. reflexivity. Qed.

(* ================================================================== *)
(** * Further properties of the decoder *)

(** ** What a pass keeps, whatever its outcome *)

Lemma decoded_more_refl : forall w, decoded_more w w.
Proof.
  intro w. unfold decoded_more. repeat split.
  exists []. rewrite app_nil_r. split; [reflexivity | unfold len; simpl; lia].
Qed.

Lemma decoded_more_trans : forall w1 w2 w3,
  decoded_more w1 w2 -> decoded_more w2 w3 -> decoded_more w1 w3.
Proof.
  intros w1 w2 w3 (D1 & L1 & m1 & R1 & C1) (D2 & L2 & m2 & R2 & C2).
  unfold decoded_more. repeat split; try congruence.
  exists (m1 ++ m2). split.
  - rewrite R2, R1, app_assoc. reflexivity.
  - rewrite len_app. lia.
Qed.

Lemma parse_step_decoded_more : forall data index w,
  match parse_step data index w with
  | Stop (_, w') => decoded_more w w'
  | Continue _ w' => decoded_more w w'
  end.
Proof.
  intros data index w. unfold parse_step.
  destruct (index <? len data); [| apply decoded_more_refl].
  destruct (get_uint32 data index) as [[imr index1] | e | ]; try apply decoded_more_refl.
  destruct (get_uint32 data index1) as [[ety index2] | e | ]; try apply decoded_more_refl.
  destruct (imr =? 4294967295); [apply decoded_more_refl |].
  destruct (ety =? EV_NO_ACTION).
  - pose proof (_parse_header_keeps_records (skipn (Z.to_nat index) data) w)
      as (D & R & C & L).
    destruct (_parse_header (skipn (Z.to_nat index) data) w) as [[n | e | ] w1];
      simpl in *; unfold decoded_more; simpl; repeat split; try congruence;
      exists []; rewrite app_nil_r; (split; [congruence | unfold len; simpl; lia]).
  - destruct (parse_event_log_body (self w) (skipn (Z.to_nat index) data))
      as [[ev n] | e | ]; try apply decoded_more_refl.
    unfold decoded_more. simpl. repeat split.
    exists [ev]. split; [reflexivity | unfold len; simpl; lia].
Qed.

Lemma _parse_loop_decoded_more : forall fuel data index w,
  decoded_more w (snd (_parse_loop fuel data index w)).
Proof.
  induction fuel as [| fuel IH]; intros data index w.
  - simpl. apply decoded_more_refl.
  - rewrite _parse_loop_unfold.
    pose proof (parse_step_decoded_more data index w) as Hs.
    destruct (parse_step data index w) as [[r w1] | index' w1].
    + exact Hs.
    + eapply decoded_more_trans; [exact Hs | apply IH].
Qed.

(** X1.  A parse pass over a buffer never rewrites what is stored and
    never rolls back: whether it returns or raises, the buffer and the log
    are untouched, the records of before are still there, in place, in
    front of the ones the pass decoded, and the count has grown by at
    least the number of records appended. *)
Theorem parse_keeps_what_it_decoded : forall w data,
  _data (self w) = Some data ->
  decoded_more w (snd (_parse w)).
Proof.
  intros w data Hd. rewrite (_parse_Some _ _ Hd).
  apply _parse_loop_decoded_more.
Qed.

Lemma parse_keeps_what_it_decoded_witness :
  _data (self (fresh (Some log_0x9999))) = Some log_0x9999 /\
  fst (_parse (fresh (Some log_0x9999))) = Raise (ValueError_no_algorithm 0x9999) /\
  length (_event_logs (self (snd (_parse (fresh (Some log_0x9999)))))) = 1%nat /\
  decoded_more (fresh (Some log_0x9999)) (snd (_parse (fresh (Some log_0x9999)))).
Proof.
  split; [reflexivity |].
  split; [vm_compute; reflexivity |].
  split; [vm_compute; reflexivity |].
  apply (parse_keeps_what_it_decoded (fresh (Some log_0x9999)) log_0x9999).
  reflexivity.
Defined.

(** ** How far a pass can count *)

Lemma parse_step_advance : forall data index w index' w',
  registry_ok (self w) -> 0 <= index ->
  parse_step data index w = Continue index' w' ->
  index + 16 <= index' /\ _count (self w') = _count (self w) + 1.
Proof.
  intros data index w index' w' Hok Hi H. unfold parse_step in H.
  destruct (index <? len data) eqn:Elt; [| discriminate].
  destruct (get_uint32 data index) as [[imr index1] | e | ]; try discriminate.
  destruct (get_uint32 data index1) as [[ety index2] | e | ]; try discriminate.
  destruct (imr =? 4294967295); [discriminate |].
  destruct (ety =? EV_NO_ACTION).
  - destruct (_parse_header (skipn (Z.to_nat index) data) w) as [[n | e | ] w1] eqn:Eh;
      try discriminate.
    inversion H; subst index' w'; clear H.
    pose proof (_parse_header_keeps_records (skipn (Z.to_nat index) data) w)
      as (_ & _ & C & _).
    rewrite Eh in C. simpl in C.
    apply _parse_header_Return in Eh.
    destruct Eh as (hdr & ev & _ & _ & _ & _ & Hna & Hnv & _ & _ & Hn & _).
    simpl. split; lia.
  - destruct (parse_event_log_body (self w) (skipn (Z.to_nat index) data))
      as [[ev n] | e | ] eqn:Eb; try discriminate.
    inversion H; subst index' w'; clear H.
    apply parse_event_log_body_Return in Eb; [| exact Hok].
    simpl. split; lia.
Qed.

Lemma parse_step_Stop_count : forall data index w r w',
  parse_step data index w = Stop (r, w') -> _count (self w') = _count (self w).
Proof.
  intros data index w r w' H. unfold parse_step in H.
  destruct (index <? len data); [| inversion H; reflexivity].
  destruct (get_uint32 data index) as [[imr index1] | e | ];
    try (inversion H; reflexivity).
  destruct (get_uint32 data index1) as [[ety index2] | e | ];
    try (inversion H; reflexivity).
  destruct (imr =? 4294967295); [inversion H; reflexivity |].
  destruct (ety =? EV_NO_ACTION).
  - pose proof (_parse_header_keeps_records (skipn (Z.to_nat index) data) w)
      as (_ & _ & C & _).
    destruct (_parse_header (skipn (Z.to_nat index) data) w) as [[n | e | ] w1];
      try discriminate; inversion H; subst; exact C.
  - destruct (parse_event_log_body (self w) (skipn (Z.to_nat index) data))
      as [[ev n] | e | ]; try discriminate; inversion H; reflexivity.
Qed.

Lemma _parse_loop_count_bound : forall fuel data index w,
  registry_ok (self w) -> 0 <= index <= len data ->
  16 * (_count (self (snd (_parse_loop fuel data index w))) - _count (self w))
    <= len data - index.
Proof.
  induction fuel as [| fuel IH]; intros data index w Hok Hi.
  - cbn [_parse_loop snd]. lia.
  - rewrite _parse_loop_unfold.
    destruct (parse_step data index w) as [[r w1] | index' w1] eqn:Es.
    + apply parse_step_Stop_count in Es. cbn [snd]. lia.
    + pose proof (parse_step_advance _ _ _ _ _ Hok (proj1 Hi) Es) as (Ha & Hc).
      pose proof (parse_step_Continue _ _ _ _ _ Hok (proj1 Hi) Es) as (Hlt & Hok').
      specialize (IH data index' w1 Hok'). lia.
Qed.

(** X2.  Every record takes at least 16 bytes of the buffer, header or
    measurement: a pass adds at most a sixteenth of the buffer length to
    the count, and appends at most as many records. *)
Theorem parse_count_bound : forall w data,
  _data (self w) = Some data -> registry_ok (self w) ->
  16 * (_count (self (snd (_parse w))) - _count (self w)) <= len data /\
  16 * (len (_event_logs (self (snd (_parse w)))) - len (_event_logs (self w)))
    <= len data.
Proof.
  intros w data Hd Hok.
  rewrite (_parse_Some _ _ Hd).
  pose proof (_parse_loop_decoded_more (S (length data)) data 0 w)
    as (_ & _ & more & Hr & Hc).
  pose proof (_parse_loop_count_bound (S (length data)) data 0 w Hok) as Hb.
  assert (H0 : 0 <= 0 <= len data) by (pose proof (len_nonneg _ data); lia).
  specialize (Hb H0). split; [lia |].
  rewrite Hr, len_app. lia.
Qed.

Lemma parse_count_bound_witness :
  (_data (self (fresh (Some log_sample))) = Some log_sample /\
   registry_ok (self (fresh (Some log_sample)))) /\
  16 * (_count (self (snd (_parse (fresh (Some log_sample)))))
        - _count (self (fresh (Some log_sample)))) <= len log_sample /\
  16 * (len (_event_logs (self (snd (_parse (fresh (Some log_sample))))))
        - len (_event_logs (self (fresh (Some log_sample))))) <= len log_sample.
Proof.
  split; [split; [reflexivity | exact I] |].
  apply (parse_count_bound (fresh (Some log_sample)) log_sample);
    [reflexivity | exact I].
Defined.

(** ** The selector when it returns *)

Lemma select_window_Return : forall start count w w',
  select_window start count w = (Return tt, w') ->
  w' = update_self (set_event_logs (window start count (_event_logs (self w)))) w /\
  (forall s, start = Some s -> 0 < s <= _count (self w)) /\
  (forall c, count = Some c ->
     0 < c <= len (window start None (_event_logs (self w))) /\
     len (_event_logs (self w')) = c).
Proof.
  intros start count w w' H. unfold select_window, bind in H.
  destruct start as [s |]; destruct count as [c |]; simpl in H.
  - destruct ((0 <? s) && (s <=? _count (self w))) eqn:Es; simpl in H;
      [| discriminate H].
    apply andb_prop in Es. destruct Es as (E1 & E2).
    apply Z.ltb_lt in E1. apply Z.leb_le in E2.
    destruct ((0 <? c) && (c <=? len (skipn (Z.to_nat (s - 1)) (_event_logs (self w)))))
      eqn:Ec; simpl in H; [| discriminate H].
    apply andb_prop in Ec. destruct Ec as (E3 & E4).
    apply Z.ltb_lt in E3. apply Z.leb_le in E4.
    inversion H; subst w'; clear H.
    split; [reflexivity |].
    split; [intros s' Hs'; inversion Hs'; subst; lia |].
    intros c' Hc'. inversion Hc'; subst c'. simpl.
    split; [lia |].
    unfold len in *. rewrite length_firstn. lia.
  - destruct ((0 <? s) && (s <=? _count (self w))) eqn:Es; simpl in H;
      [| discriminate H].
    apply andb_prop in Es. destruct Es as (E1 & E2).
    apply Z.ltb_lt in E1. apply Z.leb_le in E2.
    inversion H; subst w'; clear H.
    split; [reflexivity |].
    split; [intros s' Hs'; inversion Hs'; subst; lia |].
    intros c' Hc'. discriminate Hc'.
  - destruct ((0 <? c) && (c <=? len (_event_logs (self w)))) eqn:Ec; simpl in H;
      [| discriminate H].
    apply andb_prop in Ec. destruct Ec as (E3 & E4).
    apply Z.ltb_lt in E3. apply Z.leb_le in E4.
    inversion H; subst w'; clear H.
    split; [reflexivity |].
    split; [intros s' Hs'; discriminate Hs' |].
    intros c' Hc'. inversion Hc'; subst c'. simpl.
    split; [lia |].
    unfold len in *. rewrite length_firstn. lia.
  - inversion H; subst w'; clear H.
    split; [destruct w as [[] ?]; reflexivity |].
    split; [intros s' Hs'; discriminate Hs' |].
    intros c' Hc'. discriminate Hc'.
Qed.

(** X3.  When [select] returns, what it leaves is the parse pass and
    then the window: the stored records are the post-parse records from
    the [start]-th on, cut to [count]; the buffer, the header, the
    registry, the count and the log are those the pass left.  A given
    [start] was between 1 and the post-parse count, and a given [count]
    is exactly the number of records left. *)
Theorem select_returns_window : forall start count w w',
  select start count w = (Return tt, w') ->
  exists wp,
    _parse w = (Return tt, wp) /\
    _event_logs (self w') = window start count (_event_logs (self wp)) /\
    _data (self w') = _data (self wp) /\
    _spec_id_header (self w') = _spec_id_header (self wp) /\
    _spec_id_header_event (self w') = _spec_id_header_event (self wp) /\
    _count (self w') = _count (self wp) /\
    LOG w' = LOG wp /\
    (forall s, start = Some s -> 0 < s <= _count (self wp)) /\
    (forall c, count = Some c -> len (_event_logs (self w')) = c).
Proof.
  intros start count w w' H.
  rewrite select_unfold in H. unfold bind in H.
  destruct (_parse w) as [[[] | e | ] wp] eqn:Ep; try discriminate H.
  exists wp. split; [reflexivity |].
  apply select_window_Return in H. destruct H as (-> & Hs & Hc).
  do 6 (split; [reflexivity |]).
  split; [exact Hs |].
  intros c Ec. apply (Hc c Ec).
Qed.

Lemma select_returns_window_witness :
  select (Some 1) (Some 1) (fresh (Some log_sample))
    = (Return tt, snd (select (Some 1) (Some 1) (fresh (Some log_sample)))) /\
  exists wp,
    _parse (fresh (Some log_sample)) = (Return tt, wp) /\
    _event_logs (self (snd (select (Some 1) (Some 1) (fresh (Some log_sample)))))
      = window (Some 1) (Some 1) (_event_logs (self wp)).
Proof.
  assert (H : select (Some 1) (Some 1) (fresh (Some log_sample))
              = (Return tt, snd (select (Some 1) (Some 1) (fresh (Some log_sample)))))
    by (vm_compute; reflexivity).
  split; [exact H |].
  destruct (select_returns_window _ _ _ _ H) as (wp & Hp & Hr & _).
  exists wp. split; assumption.
Defined.

(** X4.  [start] is checked against the count, which includes the
    header records, not against the number of stored records: a [start]
    beyond the last record and up to the count is accepted, and leaves no
    record; any [count] given with it is then rejected. *)
Theorem select_start_beyond_records : forall w wp s,
  _parse w = (Return tt, wp) ->
  len (_event_logs (self wp)) < s <= _count (self wp) ->
  select (Some s) None w = (Return tt, update_self (set_event_logs []) wp) /\
  forall c, fst (select (Some s) (Some c) w) = Raise ValueError_count /\
            _event_logs (self (snd (select (Some s) (Some c) w))) = [].
Proof.
  intros w wp s Hp Hs.
  pose proof (len_nonneg _ (_event_logs (self wp))) as Hn.
  assert (Es : (0 <? s) && (s <=? _count (self wp)) = true).
  { apply andb_true_intro. split; [apply Z.ltb_lt | apply Z.leb_le]; lia. }
  assert (Ek : skipn (Z.to_nat (s - 1)) (_event_logs (self wp)) = []).
  { apply skipn_all2. unfold len in Hs. lia. }
  split.
  - rewrite (select_after_parse _ _ _ _ Hp).
    unfold select_window, bind, get_self, set_self, ret. rewrite Es. simpl.
    rewrite Ek. reflexivity.
  - intro c. rewrite (select_after_parse _ _ _ _ Hp).
    unfold select_window, bind, get_self, set_self, ret, LOG_error_, raise.
    rewrite Es. simpl. rewrite Ek.
    assert (Ec : (0 <? c) && (c <=? len (@nil TcgImrEventLogEntry)) = false).
    { apply andb_false_iff. destruct (Z.ltb_spec 0 c); [right | left; reflexivity].
      apply Z.leb_gt. unfold len. simpl. lia. }
    rewrite Ec. simpl. split; reflexivity.
Qed.

Lemma select_start_beyond_records_witness :
  (_parse (fresh (Some log_sample)) = (Return tt, world_parsed) /\
   len (_event_logs (self world_parsed)) < 2 <= _count (self world_parsed)) /\
  select (Some 2) None (fresh (Some log_sample))
    = (Return tt, update_self (set_event_logs []) world_parsed).
Proof.
  assert (H1 : _parse (fresh (Some log_sample)) = (Return tt, world_parsed))
    by (vm_compute; reflexivity).
  assert (H2 : len (_event_logs (self world_parsed)) < 2 <= _count (self world_parsed))
    by (vm_compute; split; [reflexivity | discriminate]).
  split; [split; assumption |].
  apply (proj1 (select_start_beyond_records _ _ 2 H1 H2)).
Defined.

(** X5.  On a log whose pass leaves count 0 and no record (an empty
    buffer, a buffer that starts with the sentinel), [select] returns only
    when called without bounds: any [start] is rejected with
    ValueError('Invalid parameter start.') and, without a start, any
    [count] with ValueError('Invalid parameter count.'). *)
Theorem select_on_nothing : forall w wp,
  _parse w = (Return tt, wp) ->
  _count (self wp) = 0 -> _event_logs (self wp) = [] ->
  select None None w = (Return tt, wp) /\
  (forall s count, fst (select (Some s) count w) = Raise ValueError_start) /\
  (forall c, fst (select None (Some c) w) = Raise ValueError_count).
Proof.
  intros w wp Hp Hc Hr. split; [| split].
  - rewrite (select_after_parse _ _ _ _ Hp). reflexivity.
  - intros s count. rewrite (select_after_parse _ _ _ _ Hp).
    unfold select_window, bind, get_self, set_self, ret, LOG_error_, raise.
    rewrite Hc.
    assert (Es : (0 <? s) && (s <=? 0) = false).
    { apply andb_false_iff. destruct (Z.ltb_spec 0 s); [right | left; reflexivity].
      apply Z.leb_gt. lia. }
    rewrite Es. reflexivity.
  - intro c. rewrite (select_after_parse _ _ _ _ Hp).
    unfold select_window, bind, get_self, set_self, ret, LOG_error_, raise.
    simpl. rewrite Hr.
    assert (Ec : (0 <? c) && (c <=? len (@nil TcgImrEventLogEntry)) = false).
    { apply andb_false_iff. destruct (Z.ltb_spec 0 c); [right | left; reflexivity].
      apply Z.leb_gt. unfold len. simpl. lia. }
    rewrite Ec. reflexivity.
Qed.

Lemma select_on_nothing_witness :
  (_parse (fresh (Some [])) = (Return tt, fresh (Some [])) /\
   _count (self (fresh (Some []))) = 0 /\
   _event_logs (self (fresh (Some []))) = []) /\
  select None None (fresh (Some [])) = (Return tt, fresh (Some [])) /\
  (forall s count, fst (select (Some s) count (fresh (Some []))) = Raise ValueError_start) /\
  (forall c, fst (select None (Some c) (fresh (Some []))) = Raise ValueError_count).
Proof.
  assert (H1 : _parse (fresh (Some [])) = (Return tt, fresh (Some []))) by reflexivity.
  assert (H2 : _count (self (fresh (Some []))) = 0) by reflexivity.
  assert (H3 : _event_logs (self (fresh (Some []))) = []) by reflexivity.
  split; [repeat split; assumption |].
  exact (select_on_nothing _ _ H1 H2 H3).
Defined.

(** ** A measurement record met before any header *)

(** X6.  The registry is looked up only when a digest entry is read.  A
    measurement record met while the object has no header yet raises
    AttributeError (the registry is [None]), not the ValueError of an
    unknown algorithm, as soon as it declares one digest, and nothing is
    stored; a record that declares no digest is decoded the same with or
    without a registry. *)
Theorem measurement_before_header : forall data index w,
  _spec_id_header_event (self w) = None ->
  0 <= index -> index + 12 <= len data ->
  le_value (slice data index (index + 4)) <> 0xFFFFFFFF ->
  le_value (slice data (index + 4) (index + 8)) <> EV_NO_ACTION ->
  (0 < le_value (slice data (index + 8) (index + 12)) ->
   index + 14 <= len data ->
   forall fuel,
     _parse_loop (S fuel) data index w = (Raise AttributeError_digest_sizes, w)) /\
  (le_value (slice data (index + 8) (index + 12)) = 0 ->
   forall o,
     parse_event_log_body o (skipn (Z.to_nat index) data)
     = parse_event_log_body (self w) (skipn (Z.to_nat index) data)).
Proof.
  intros data index w Hnone Hi Hb Himr Hety.
  assert (Hlen : len (skipn (Z.to_nat index) data) = len data - index)
    by (apply len_skipn; lia).
  assert (R0 : get_uint32 (skipn (Z.to_nat index) data) 0
               = Return (le_value (slice data index (index + 4)), 4)).
  { rewrite get_uint32_in_bounds by lia. rewrite slice_skipn by lia.
    replace (index + 0) with index by lia. replace (index + (0 + 4)) with (index + 4) by lia.
    reflexivity. }
  assert (R4 : get_uint32 (skipn (Z.to_nat index) data) 4
               = Return (le_value (slice data (index + 4) (index + 8)), 8)).
  { rewrite get_uint32_in_bounds by lia. rewrite slice_skipn by lia.
    replace (index + (4 + 4)) with (index + 8) by lia. reflexivity. }
  assert (R8 : get_uint32 (skipn (Z.to_nat index) data) 8
               = Return (le_value (slice data (index + 8) (index + 12)), 12)).
  { rewrite get_uint32_in_bounds by lia. rewrite slice_skipn by lia.
    replace (index + (8 + 4)) with (index + 12) by lia. reflexivity. }
  split.
  - intros Hpos Hb14 fuel.
    assert (Hbody : parse_event_log_body (self w) (skipn (Z.to_nat index) data)
                    = Raise AttributeError_digest_sizes).
    { unfold parse_event_log_body. rewrite R0. cbn [obind]. rewrite R4. cbn [obind].
      rewrite R8. cbn [obind].
      destruct (Z.to_nat (le_value (slice data (index + 8) (index + 12)))) as [| n] eqn:En;
        [lia |].
      cbn [body_digest_loop].
      unfold get_uint16 at 1.
      assert (E : (12 + 2 <=? len (skipn (Z.to_nat index) data)) = true)
        by (apply Z.leb_le; lia).
      rewrite E. cbn [obind]. unfold find_algorithm. rewrite Hnone. reflexivity. }
    rewrite _parse_loop_unfold. unfold parse_step.
    destruct (record_prefix data index Hi) as (P1 & P2); [lia |].
    assert (E : (index <? len data) = true) by (apply Z.ltb_lt; lia).
    rewrite E, P1, P2.
    apply Z.eqb_neq in Himr. rewrite Himr.
    apply Z.eqb_neq in Hety. rewrite Hety.
    rewrite Hbody. reflexivity.
  - intros Hzero o. unfold parse_event_log_body.
    rewrite R0. cbn [obind]. rewrite R4. cbn [obind]. rewrite R8. cbn [obind].
    rewrite Hzero. reflexivity.
Qed.

Lemma measurement_before_header_witness :
  (_spec_id_header_event (self (fresh (Some log_headless))) = None /\
   0 <= 0 /\ 0 + 12 <= len log_headless /\
   le_value (slice log_headless 0 (0 + 4)) <> 0xFFFFFFFF /\
   le_value (slice log_headless (0 + 4) (0 + 8)) <> EV_NO_ACTION /\
   0 < le_value (slice log_headless (0 + 8) (0 + 12)) /\
   0 + 14 <= len log_headless) /\
  _parse (fresh (Some log_headless))
    = (Raise AttributeError_digest_sizes, fresh (Some log_headless)).
Proof.
  assert (H1 : _spec_id_header_event (self (fresh (Some log_headless))) = None)
    by reflexivity.
  assert (H2 : 0 <= 0) by lia.
  assert (H3 : 0 + 12 <= len log_headless) by (vm_compute; discriminate).
  assert (H4 : le_value (slice log_headless 0 (0 + 4)) <> 0xFFFFFFFF)
    by (vm_compute; discriminate).
  assert (H5 : le_value (slice log_headless (0 + 4) (0 + 8)) <> EV_NO_ACTION)
    by (vm_compute; discriminate).
  assert (H6 : 0 < le_value (slice log_headless (0 + 8) (0 + 12)))
    by (vm_compute; reflexivity).
  assert (H7 : 0 + 14 <= len log_headless) by (vm_compute; discriminate).
  split; [repeat split; assumption |].
  rewrite (_parse_Some _ log_headless) by reflexivity.
  apply (proj1 (measurement_before_header log_headless 0 (fresh (Some log_headless))
                  H1 H2 H3 H4 H5) H6 H7).
Defined.

(** ** A header parse that fails *)

Lemma get_uint32_Raise : forall d i e,
  get_uint32 d i = Raise e -> e = OutOfBounds /\ len d < i + 4.
Proof.
  unfold get_uint32. intros d i e H.
  destruct (i + 4 <=? len d) eqn:E; [discriminate H |].
  apply Z.leb_gt in E. inversion H. auto.
Qed.

Lemma get_uint16_Raise : forall d i e,
  get_uint16 d i = Raise e -> e = OutOfBounds /\ len d < i + 2.
Proof.
  unfold get_uint16. intros d i e H.
  destruct (i + 2 <=? len d) eqn:E; [discriminate H |].
  apply Z.leb_gt in E. inversion H. auto.
Qed.

Lemma get_uint8_Raise : forall d i e,
  get_uint8 d i = Raise e -> e = OutOfBounds /\ len d < i + 1.
Proof.
  unfold get_uint8. intros d i e H.
  destruct (i + 1 <=? len d) eqn:E; [discriminate H |].
  apply Z.leb_gt in E. inversion H. auto.
Qed.

Lemma get_bytes_Raise : forall d i n e,
  get_bytes d i n = Raise e -> e = OutOfBounds /\ len d < i + n.
Proof.
  unfold get_bytes. intros d i n e H.
  destruct (i + n <=? len d) eqn:E; [discriminate H |].
  apply Z.leb_gt in E. inversion H. auto.
Qed.

Lemma header_algo_loop_Raise : forall n d i acc e,
  header_algo_loop n d i acc = Raise e -> e = OutOfBounds.
Proof.
  induction n as [| n IH]; intros d i acc e H.
  - discriminate H.
  - cbn [header_algo_loop] in H.
    destruct (get_uint16 d i) as [[a i1] | e1 | ] eqn:E1; cbn [obind] in H.
    + destruct (get_uint16 d i1) as [[s i2] | e2 | ] eqn:E2; cbn [obind] in H.
      * eapply IH. exact H.
      * inversion H; subst. apply (get_uint16_Raise _ _ _ E2).
      * discriminate H.
    + inversion H; subst. apply (get_uint16_Raise _ _ _ E1).
    + discriminate H.
Qed.

(** The header record a parse stores once the five fields of the record
    are read. *)
Lemma _parse_header_Raise : forall d w e w',
  _parse_header d w = (Raise e, w') ->
  e = OutOfBounds /\
  ((len d < 32 \/ len d < 32 + le_value (slice d 28 32)) /\ w' = w \/
   (32 + le_value (slice d 28 32) <= len d /\
    w' = update_self
           (set_spec_id_header
              (mkPcClientImrEvent (le_value (slice d 0 4) - 1) (le_value (slice d 4 8))
                 (slice d 8 28) (le_value (slice d 28 32))
                 (slice d 32 (32 + le_value (slice d 28 32))))) w)).
Proof.
  intros d w e w' H. unfold _parse_header, bind, lift in H.
  destruct (get_uint32 d 0) as [[v0 i0] | e0 | ] eqn:E0;
    [| inversion H; subst; apply get_uint32_Raise in E0;
       split; [tauto | left; split; [lia | reflexivity]] | discriminate H].
  apply get_uint32_Return in E0. destruct E0 as (-> & B0 & ->).
  destruct (get_uint32 d (0 + 4)) as [[v1 i1] | e1 | ] eqn:E1;
    [| inversion H; subst; apply get_uint32_Raise in E1;
       split; [tauto | left; split; [lia | reflexivity]] | discriminate H].
  apply get_uint32_Return in E1. destruct E1 as (-> & B1 & ->).
  destruct (get_bytes d (0 + 4 + 4) 20) as [[v2 i2] | e2 | ] eqn:E2;
    [| inversion H; subst; apply get_bytes_Raise in E2;
       split; [tauto | left; split; [lia | reflexivity]] | discriminate H].
  apply get_bytes_Return in E2. destruct E2 as (-> & B2 & ->).
  destruct (get_uint32 d (0 + 4 + 4 + 20)) as [[v3 i3] | e3 | ] eqn:E3;
    [| inversion H; subst; apply get_uint32_Raise in E3;
       split; [tauto | left; split; [lia | reflexivity]] | discriminate H].
  apply get_uint32_Return in E3. destruct E3 as (-> & B3 & ->).
  change (0 + 4 + 4 + 20 + 4) with 32 in *.
  change (0 + 4 + 4 + 20) with 28 in *.
  change (0 + 4 + 4) with 8 in *. change (0 + 4) with 4 in *.
  destruct (get_bytes d 32 (le_value (slice d 28 32))) as [[v4 i4] | e4 | ] eqn:E4;
    [| inversion H; subst; apply get_bytes_Raise in E4;
       split; [tauto | left; split; [lia | reflexivity]] | discriminate H].
  apply get_bytes_Return in E4. destruct E4 as (-> & B4 & ->).
  change (8 + 20) with 28 in *.
  unfold set_self in H. cbv beta iota in H.
  repeat match type of H with
         | context [match get_uint32 ?b ?i with _ => _ end] =>
             let E := fresh "E" in
             destruct (get_uint32 b i) as [[? ?] | ? | ] eqn:E;
               [| inversion H; subst; apply get_uint32_Raise in E;
                  split; [tauto | right; split; [lia | reflexivity]] | discriminate H]
         | context [match get_uint8 ?b ?i with _ => _ end] =>
             let E := fresh "E" in
             destruct (get_uint8 b i) as [[? ?] | ? | ] eqn:E;
               [| inversion H; subst; apply get_uint8_Raise in E;
                  split; [tauto | right; split; [lia | reflexivity]] | discriminate H]
         | context [match get_bytes ?b ?i ?n with _ => _ end] =>
             let E := fresh "E" in
             destruct (get_bytes b i n) as [[? ?] | ? | ] eqn:E;
               [| inversion H; subst; apply get_bytes_Raise in E;
                  split; [tauto | right; split; [lia | reflexivity]] | discriminate H]
         | context [match header_algo_loop ?n ?b ?i ?a with _ => _ end] =>
             let E := fresh "E" in
             destruct (header_algo_loop n b i a) as [[? ?] | ? | ] eqn:E;
               [| inversion H; subst; apply header_algo_loop_Raise in E;
                  split; [exact E | right; split; [lia | reflexivity]] | discriminate H]
         end.
  match type of H with context [0 <? ?v] => destruct (0 <? v) end.
  - destruct (get_bytes d _ _) as [[? ?] | ? | ] eqn:Ev in H; cbv beta iota in H.
    + unfold ret in H. discriminate H.
    + inversion H; subst. apply get_bytes_Raise in Ev.
      split; [tauto | right; split; [lia | reflexivity]].
    + discriminate H.
  - unfold ret in H. discriminate H.
Qed.

(** X7.  On a slice whose declared event size, when the slice is long
    enough to hold that field, is not 0 (no read of zero bytes is asked
    for), a header parse that fails raises the reader's OutOfBounds and
    never touches the registry, the records or the count; but it is not
    atomic: when the five fields of the record and the declared event
    bytes are in the buffer, the stored header record has already been
    replaced by the new one, which then stands beside the registry of an
    earlier header. *)
Theorem failed_header_parse : forall d w e w',
  (32 <= len d -> 0 < le_value (slice d 28 32)) ->
  _parse_header d w = (Raise e, w') ->
  e = OutOfBounds /\
  _spec_id_header_event (self w') = _spec_id_header_event (self w) /\
  _event_logs (self w') = _event_logs (self w) /\
  _count (self w') = _count (self w) /\
  (len d < 32 \/ len d < 32 + le_value (slice d 28 32) ->
   w' = w) /\
  (32 + le_value (slice d 28 32) <= len d ->
   _spec_id_header (self w') =
   Some (mkPcClientImrEvent (le_value (slice d 0 4) - 1) (le_value (slice d 4 8))
           (slice d 8 28) (le_value (slice d 28 32))
           (slice d 32 (32 + le_value (slice d 28 32))))).
Proof.
  intros d w e w' _ H.
  pose proof (le_value_nonneg (slice d 28 32)) as Hnn.
  apply _parse_header_Raise in H.
  destruct H as (He & [(Hshort & ->) | (Hfits & ->)]).
  - repeat split; try assumption; try reflexivity.
    intro Hfits. exfalso. lia.
  - repeat split; try assumption; try reflexivity.
    intro Hshort. exfalso. lia.
Qed.

Lemma failed_header_parse_witness :
  (32 <= len header_cut -> 0 < le_value (slice header_cut 28 32)) /\
  _parse_header header_cut world_parsed
    = (Raise OutOfBounds, snd (_parse_header header_cut world_parsed)) /\
  32 + le_value (slice header_cut 28 32) <= len header_cut /\
  le_value (slice header_cut 28 32) = 4 /\
  option_map hdr_event_size (_spec_id_header (self world_parsed)) = Some 33 /\
  option_map hdr_event_size
    (_spec_id_header (self (snd (_parse_header header_cut world_parsed)))) = Some 4 /\
  _spec_id_header_event (self (snd (_parse_header header_cut world_parsed)))
    = _spec_id_header_event (self world_parsed).
Proof.
  assert (H0 : 32 <= len header_cut -> 0 < le_value (slice header_cut 28 32))
    by (intros _; vm_compute; reflexivity).
  assert (H : _parse_header header_cut world_parsed
              = (Raise OutOfBounds, snd (_parse_header header_cut world_parsed)))
    by (vm_compute; reflexivity).
  split; [exact H0 |].
  split; [exact H |].
  split; [vm_compute; discriminate |].
  split; [vm_compute; reflexivity |].
  split; [vm_compute; reflexivity |].
  split; [vm_compute; reflexivity |].
  exact (proj1 (proj2 (failed_header_parse _ _ _ _ H0 H))).
Defined.

(** ** Little-endian values and their bytes *)

Lemma byte_of_Z_byte_val : forall b x, byte_of_Z (byte_val b + 256 * x) = b.
Proof.
  intros b x. unfold byte_of_Z.
  pose proof (byte_val_range b) as Hb.
  replace ((byte_val b + 256 * x) mod 256) with (byte_val b).
  - unfold byte_val. rewrite N2Z.id, Byte.of_to_N. reflexivity.
  - rewrite (Z.mul_comm 256 x), Z.mod_add by lia.
    rewrite Z.mod_small by lia. reflexivity.
Qed.

(** The bytes of the value of [bs] are [bs]. *)
Lemma le_bytes_le_value : forall bs, le_bytes (length bs) (le_value bs) = bs.
Proof.
  induction bs as [| b bs IH]; [reflexivity |].
  cbn [length le_bytes le_value].
  rewrite byte_of_Z_byte_val. f_equal.
  pose proof (byte_val_range b) as Hb.
  replace ((byte_val b + 256 * le_value bs) / 256) with (le_value bs); [exact IH |].
  rewrite (Z.mul_comm 256 (le_value bs)), Z.div_add by lia.
  rewrite Z.div_small by lia. lia.
Qed.

Lemma le_value_le_bytes_small : forall width v,
  0 <= v < 256 ^ Z.of_nat width -> le_value (le_bytes width v) = v.
Proof.
  intros width v H. rewrite le_value_le_bytes. apply Z.mod_small. exact H.
Qed.

Lemma len_le_bytes : forall width v, len (le_bytes width v) = Z.of_nat width.
Proof. intros. unfold len. rewrite length_le_bytes. reflexivity. Qed.

(** ** The cursor in a buffer *)

Lemma cursor_at_start : forall data, cursor_at data 0 data.
Proof.
  intro data. split; [pose proof (len_nonneg _ data); lia | reflexivity].
Qed.

Lemma cursor_at_skip : forall data i x rest,
  cursor_at data i (x ++ rest) ->
  slice data i (i + len x) = x /\
  i + len x <= len data /\
  cursor_at data (i + len x) rest.
Proof.
  intros data i x rest ((Hi & Hle) & Hs).
  assert (Hlen : (length data - Z.to_nat i = length x + length rest)%nat).
  { rewrite <- length_skipn, Hs, length_app. reflexivity. }
  assert (Hb : i + len x <= len data) by (unfold len in *; lia).
  split; [| split; [exact Hb |]].
  - unfold slice. rewrite Hs.
    replace (Z.to_nat (i + len x - i)) with (length x) by (unfold len; lia).
    rewrite firstn_app, Nat.sub_diag, firstn_all. simpl. apply app_nil_r.
  - split; [pose proof (len_nonneg _ x); lia |].
    replace (Z.to_nat (i + len x)) with (length x + Z.to_nat i)%nat
      by (unfold len; lia).
    rewrite <- skipn_skipn, Hs, skipn_app, Nat.sub_diag, skipn_all.
    reflexivity.
Qed.

Lemma read_bytes_at : forall data i x rest,
  cursor_at data i (x ++ rest) ->
  get_bytes data i (len x) = Return (x, i + len x) /\
  cursor_at data (i + len x) rest.
Proof.
  intros data i x rest H.
  destruct (cursor_at_skip _ _ _ _ H) as (Hs & Hb & Hc).
  split; [| exact Hc].
  unfold get_bytes. apply Z.leb_le in Hb. rewrite Hb, Hs. reflexivity.
Qed.

Lemma read_uint32_at : forall data i v rest,
  cursor_at data i (le_bytes 4 v ++ rest) -> 0 <= v < 2 ^ 32 ->
  get_uint32 data i = Return (v, i + 4) /\ cursor_at data (i + 4) rest.
Proof.
  intros data i v rest H Hv.
  destruct (cursor_at_skip _ _ _ _ H) as (Hs & Hb & Hc).
  rewrite len_le_bytes in *. change (Z.of_nat 4) with 4 in *.
  split; [| exact Hc].
  unfold get_uint32. apply Z.leb_le in Hb. rewrite Hb, Hs.
  rewrite le_value_le_bytes_small by exact Hv. reflexivity.
Qed.

Lemma read_uint16_at : forall data i v rest,
  cursor_at data i (le_bytes 2 v ++ rest) -> 0 <= v < 2 ^ 16 ->
  get_uint16 data i = Return (v, i + 2) /\ cursor_at data (i + 2) rest.
Proof.
  intros data i v rest H Hv.
  destruct (cursor_at_skip _ _ _ _ H) as (Hs & Hb & Hc).
  rewrite len_le_bytes in *. change (Z.of_nat 2) with 2 in *.
  split; [| exact Hc].
  unfold get_uint16. apply Z.leb_le in Hb. rewrite Hb, Hs.
  rewrite le_value_le_bytes_small by exact Hv. reflexivity.
Qed.

Lemma read_uint8_at : forall data i v rest,
  cursor_at data i (le_bytes 1 v ++ rest) -> 0 <= v < 2 ^ 8 ->
  get_uint8 data i = Return (v, i + 1) /\ cursor_at data (i + 1) rest.
Proof.
  intros data i v rest H Hv.
  destruct (cursor_at_skip _ _ _ _ H) as (Hs & Hb & Hc).
  rewrite len_le_bytes in *. change (Z.of_nat 1) with 1 in *.
  split; [| exact Hc].
  unfold get_uint8. apply Z.leb_le in Hb. rewrite Hb, Hs.
  rewrite le_value_le_bytes_small by exact Hv. reflexivity.
Qed.

(** ** Decoding an encoded measurement record *)

Lemma find_algorithm_fits : forall o ev d,
  _spec_id_header_event o = Some ev ->
  digest_fits (digest_sizes ev) d ->
  exists alg, find_algorithm o (alg_id d) = Return (Some alg) /\
              digest_size alg = len (hash d).
Proof.
  intros o ev d Hev (_ & alg & Hf & Hs).
  exists alg. split; [| exact Hs].
  unfold find_algorithm. rewrite Hev, Hf. reflexivity.
Qed.

Lemma body_digest_loop_encoded : forall o ev ds data i rest acc,
  _spec_id_header_event o = Some ev ->
  Forall (digest_fits (digest_sizes ev)) ds ->
  cursor_at data i (flat_map (fun d => le_bytes 2 (alg_id d) ++ hash d) ds ++ rest) ->
  body_digest_loop o (length ds) data i acc
    = Return (acc ++ ds,
              i + len (flat_map (fun d => le_bytes 2 (alg_id d) ++ hash d) ds)) /\
  cursor_at data (i + len (flat_map (fun d => le_bytes 2 (alg_id d) ++ hash d) ds)) rest.
Proof.
  intros o ev ds. induction ds as [| d ds IH]; intros data i rest acc Hev Hfit Hc.
  - simpl. unfold len. simpl. rewrite app_nil_r, Z.add_0_r.
    split; [reflexivity | exact Hc].
  - inversion Hfit as [| d' ds' Hd Hds]; subst.
    cbn [flat_map length body_digest_loop] in *.
    rewrite <- !app_assoc in Hc.
    destruct (read_uint16_at _ _ _ _ Hc (proj1 Hd)) as (R1 & Hc1).
    destruct (find_algorithm_fits _ _ _ Hev Hd) as (alg & Hf & Hs).
    destruct (read_bytes_at _ _ _ _ Hc1) as (R2 & Hc2).
    rewrite R1. cbn [obind]. rewrite Hf. cbn [obind]. rewrite Hs, R2. cbn [obind].
    destruct (IH data (i + 2 + len (hash d)) rest
                (acc ++ [mkDigest (alg_id d) (hash d)]) Hev Hds Hc2) as (Hl & Hc3).
    rewrite !len_app, len_le_bytes. change (Z.of_nat 2) with 2.
    replace (i + (2 + len (hash d)
                  + len (flat_map (fun d0 => le_bytes 2 (alg_id d0) ++ hash d0) ds)))
      with (i + 2 + len (hash d)
            + len (flat_map (fun d0 => le_bytes 2 (alg_id d0) ++ hash d0) ds)) by lia.
    split; [| exact Hc3].
    rewrite Hl. destruct d as [a h]. simpl. rewrite <- app_assoc. reflexivity.
Qed.

(** The body parser on a buffer that holds an encoded record at the
    cursor of its slice. *)
Lemma parse_event_log_body_encoded : forall o ev e rest,
  _spec_id_header_event o = Some ev ->
  entry_fits (digest_sizes ev) e ->
  parse_event_log_body o (encode_entry e ++ rest) = Return (e, len (encode_entry e)).
Proof.
  intros o ev e rest Hev (Himr & Hety & Hnd & Hds & Hsz & Hlen).
  set (data := encode_entry e ++ rest).
  assert (Hc : cursor_at data 0
                 (le_bytes 4 (imr_index e + 1) ++ le_bytes 4 (event_type e)
                  ++ le_bytes 4 (len (digests e))
                  ++ flat_map (fun d => le_bytes 2 (alg_id d) ++ hash d) (digests e)
                  ++ le_bytes 4 (len (event e)) ++ event e ++ rest)).
  { unfold data, encode_entry, encode_measurement_record.
    rewrite <- !app_assoc. apply cursor_at_start. }
  destruct (read_uint32_at _ _ _ _ Hc Himr) as (R1 & Hc1).
  destruct (read_uint32_at _ _ _ _ Hc1 Hety) as (R2 & Hc2).
  assert (Hnd' : 0 <= len (digests e) < 2 ^ 32)
    by (pose proof (len_nonneg _ (digests e)); lia).
  destruct (read_uint32_at _ _ _ _ Hc2 Hnd') as (R3 & Hc3).
  destruct (body_digest_loop_encoded o ev (digests e) data _ _ [] Hev Hds Hc3)
    as (R4 & Hc4).
  assert (Hlen' : 0 <= len (event e) < 2 ^ 32)
    by (pose proof (len_nonneg _ (event e)); lia).
  destruct (read_uint32_at _ _ _ _ Hc4 Hlen') as (R5 & Hc5).
  destruct (read_bytes_at _ _ _ _ Hc5) as (R6 & _).
  unfold parse_event_log_body.
  rewrite R1. cbn [obind]. rewrite R2. cbn [obind]. rewrite R3. cbn [obind].
  replace (Z.to_nat (len (digests e))) with (length (digests e))
    by (unfold len; lia).
  rewrite R4. cbn [obind]. rewrite R5. cbn [obind]. rewrite R6. cbn [obind].
  f_equal. f_equal.
  - destruct e as [im et ds es evd]. simpl in *. f_equal; lia.
  - unfold encode_entry, encode_measurement_record.
    rewrite !len_app, !len_le_bytes. change (Z.of_nat 4) with 4. lia.
Qed.

(** ** The bytes a decoded record was read from *)

Lemma skipn_slice : forall d a b,
  0 <= a <= b ->
  skipn (Z.to_nat a) d = slice d a b ++ skipn (Z.to_nat b) d.
Proof.
  intros d a b H. unfold slice.
  rewrite <- (firstn_skipn (Z.to_nat (b - a)) (skipn (Z.to_nat a) d)) at 1.
  rewrite skipn_skipn.
  replace (Z.to_nat (b - a) + Z.to_nat a)%nat with (Z.to_nat b) by lia.
  reflexivity.
Qed.

Lemma get_bytes_Return_at : forall d i n bs j,
  get_bytes d i n = Return (bs, j) -> 0 <= i -> 0 <= n ->
  skipn (Z.to_nat i) d = bs ++ skipn (Z.to_nat j) d /\ len bs = n.
Proof.
  intros d i n bs j H Hi Hn. apply get_bytes_Return in H.
  destruct H as (-> & Hb & ->). split.
  - apply skipn_slice. lia.
  - rewrite len_slice by lia. lia.
Qed.

Lemma get_uint32_Return_at : forall d i v j,
  get_uint32 d i = Return (v, j) -> 0 <= i ->
  skipn (Z.to_nat i) d = le_bytes 4 v ++ skipn (Z.to_nat j) d /\ 0 <= v < 2 ^ 32.
Proof.
  intros d i v j H Hi. pose proof (get_uint32_range _ _ _ _ Hi H) as Hr.
  apply get_uint32_Return in H. destruct H as (-> & Hb & ->).
  split; [| exact Hr].
  rewrite (skipn_slice d i (i + 4)) by lia. f_equal.
  assert (Hl : length (slice d i (i + 4)) = 4%nat).
  { assert (Hr' : 0 <= i <= i + 4) by lia.
    pose proof (len_slice d i (i + 4) Hr' Hb) as Hl. unfold len in Hl at 1. lia. }
  rewrite <- Hl. symmetry. apply le_bytes_le_value.
Qed.

Lemma get_uint16_Return_at : forall d i v j,
  get_uint16 d i = Return (v, j) -> 0 <= i ->
  skipn (Z.to_nat i) d = le_bytes 2 v ++ skipn (Z.to_nat j) d /\ 0 <= v < 2 ^ 16.
Proof.
  intros d i v j H Hi. pose proof (get_uint16_range _ _ _ _ Hi H) as Hr.
  apply get_uint16_Return in H. destruct H as (-> & Hb & ->).
  split; [| exact Hr].
  rewrite (skipn_slice d i (i + 2)) by lia. f_equal.
  assert (Hl : length (slice d i (i + 2)) = 2%nat).
  { assert (Hr' : 0 <= i <= i + 2) by lia.
    pose proof (len_slice d i (i + 2) Hr' Hb) as Hl. unfold len in Hl at 1. lia. }
  rewrite <- Hl. symmetry. apply le_bytes_le_value.
Qed.

Lemma get_uint8_Return_at : forall d i v j,
  get_uint8 d i = Return (v, j) -> 0 <= i ->
  skipn (Z.to_nat i) d = le_bytes 1 v ++ skipn (Z.to_nat j) d /\ 0 <= v < 2 ^ 8.
Proof.
  intros d i v j H Hi. pose proof (get_uint8_range _ _ _ _ Hi H) as Hr.
  apply get_uint8_Return in H. destruct H as (-> & Hb & ->).
  split; [| exact Hr].
  rewrite (skipn_slice d i (i + 1)) by lia. f_equal.
  assert (Hl : length (slice d i (i + 1)) = 1%nat).
  { assert (Hr' : 0 <= i <= i + 1) by lia.
    pose proof (len_slice d i (i + 1) Hr' Hb) as Hl. unfold len in Hl at 1. lia. }
  rewrite <- Hl. symmetry. apply le_bytes_le_value.
Qed.

Lemma body_digest_loop_Return_at : forall o n d i acc l j,
  registry_ok o -> 0 <= i ->
  body_digest_loop o n d i acc = Return (l, j) ->
  exists l',
    l = acc ++ l' /\ length l' = n /\ i <= j /\
    skipn (Z.to_nat i) d
      = flat_map (fun x => le_bytes 2 (alg_id x) ++ hash x) l' ++ skipn (Z.to_nat j) d /\
    (forall ev, _spec_id_header_event o = Some ev ->
                Forall (digest_fits (digest_sizes ev)) l').
Proof.
  intros o n. induction n as [| n IH]; intros d i acc l j Hok Hi H.
  - simpl in H. inversion H; subst. exists []. rewrite app_nil_r.
    repeat split; try reflexivity; try lia. intros ev _. constructor.
  - cbn [body_digest_loop] in H.
    destruct (get_uint16 d i) as [[a i1] | e | ] eqn:E1; try discriminate H.
    cbn [obind] in H.
    destruct (find_algorithm o a) as [[alg |] | e | ] eqn:Ef; try discriminate H.
    cbn [obind] in H.
    destruct (get_bytes d i1 (digest_size alg)) as [[bs i2] | e | ] eqn:E2;
      try discriminate H.
    cbn [obind] in H.
    pose proof (find_algorithm_size _ _ _ Hok Ef) as Hsz.
    destruct (get_uint16_Return_at _ _ _ _ E1 Hi) as (S1 & Ha).
    apply get_uint16_Return in E1. destruct E1 as (Hi1 & _ & _).
    assert (Hi1' : 0 <= i1) by lia.
    destruct (get_bytes_Return_at _ _ _ _ _ E2 Hi1' Hsz) as (S2 & Hlb).
    apply get_bytes_Return in E2. destruct E2 as (Hi2 & _ & _).
    apply IH in H; [| exact Hok | lia].
    destruct H as (l' & Hl & Hn & Hle & S3 & Hfit).
    exists (mkDigest a bs :: l').
    split; [rewrite Hl, <- app_assoc; reflexivity |].
    split; [simpl; congruence |].
    split; [lia |].
    split.
    + cbn [flat_map alg_id hash]. rewrite S1, S2, S3, <- !app_assoc. reflexivity.
    + intros ev Hev. constructor; [| apply Hfit; exact Hev].
      split; [exact Ha |]. exists alg. split; [| simpl; lia].
      apply find_algorithm_Return in Ef. destruct Ef as (ev' & Hev' & Hf).
      rewrite Hev in Hev'. inversion Hev'; subst ev'. simpl. congruence.
Qed.

(** A measurement record that decodes was read from its own encoding:
    the slice handed to the body parser is the encoding of the record
    returned, followed by the bytes from the returned offset on. *)
Lemma parse_event_log_body_Return_at : forall o d e n,
  registry_ok o ->
  parse_event_log_body o d = Return (e, n) ->
  d = encode_entry e ++ skipn (Z.to_nat n) d /\
  n = len (encode_entry e) /\
  n = 16 + len (flat_map (fun x => le_bytes 2 (alg_id x) ++ hash x) (digests e))
      + len (event e) /\
  entry_fits (registry o) e.
Proof.
  intros o d e n Hok H. unfold parse_event_log_body in H.
  destruct (get_uint32 d 0) as [[v0 i0] | ? | ] eqn:E0; try discriminate H.
  cbn [obind] in H.
  destruct (get_uint32 d i0) as [[v1 i1] | ? | ] eqn:E1; try discriminate H.
  cbn [obind] in H.
  destruct (get_uint32 d i1) as [[v2 i2] | ? | ] eqn:E2; try discriminate H.
  cbn [obind] in H.
  destruct (body_digest_loop o (Z.to_nat v2) d i2 []) as [[ds i3] | ? | ] eqn:E3;
    try discriminate H.
  cbn [obind] in H.
  destruct (get_uint32 d i3) as [[v4 i4] | ? | ] eqn:E4; try discriminate H.
  cbn [obind] in H.
  destruct (get_bytes d i4 v4) as [[bs i5] | ? | ] eqn:E5; try discriminate H.
  cbn [obind] in H. inversion H; subst e n; clear H.
  assert (H0 : 0 <= 0) by lia.
  destruct (get_uint32_Return_at _ _ _ _ E0 H0) as (S0 & R0).
  apply get_uint32_Return in E0. destruct E0 as (Hi0 & _ & _).
  assert (Hi0' : 0 <= i0) by lia.
  destruct (get_uint32_Return_at _ _ _ _ E1 Hi0') as (S1 & R1).
  apply get_uint32_Return in E1. destruct E1 as (Hi1 & _ & _).
  assert (Hi1' : 0 <= i1) by lia.
  destruct (get_uint32_Return_at _ _ _ _ E2 Hi1') as (S2 & R2).
  apply get_uint32_Return in E2. destruct E2 as (Hi2 & _ & _).
  assert (Hi2' : 0 <= i2) by lia.
  destruct (body_digest_loop_Return_at _ _ _ _ _ _ _ Hok Hi2' E3)
    as (ds' & Hds & Hn & Hle & S3 & Hfit).
  simpl in Hds. subst ds'.
  assert (Hi3' : 0 <= i3) by lia.
  destruct (get_uint32_Return_at _ _ _ _ E4 Hi3') as (S4 & R4).
  apply get_uint32_Return in E4. destruct E4 as (Hi4 & _ & _).
  assert (Hi4' : 0 <= i4) by lia.
  destruct (get_bytes_Return_at _ _ _ _ _ E5 Hi4' (proj1 R4)) as (S5 & Hlb).
  pose proof (get_bytes_Return _ _ _ _ _ E5) as (Hi5 & Hb5 & _).
  assert (Hlen : len ds = v2) by (unfold len; lia).
  assert (Henc : d = encode_entry (mkImrEventLogEntry (v0 - 1) v1 ds v4 bs)
                     ++ skipn (Z.to_nat i5) d).
  { unfold encode_entry, encode_measurement_record. cbn [imr_index event_type digests event].
    replace (v0 - 1 + 1) with v0 by lia. rewrite Hlen, Hlb.
    rewrite <- !app_assoc, <- S5, <- S4, <- S3, <- S2, <- S1, <- S0. reflexivity. }
  assert (Hn5 : i5 = len (encode_entry (mkImrEventLogEntry (v0 - 1) v1 ds v4 bs))).
  { assert (Hl : len d = len (encode_entry (mkImrEventLogEntry (v0 - 1) v1 ds v4 bs))
                         + len (skipn (Z.to_nat i5) d)) by (rewrite Henc at 1; apply len_app).
    rewrite len_skipn in Hl by lia. lia. }
  split; [exact Henc |]. split; [exact Hn5 |].
  split.
  { rewrite Hn5. unfold encode_entry, encode_measurement_record.
    cbn [imr_index event_type digests event].
    rewrite !len_app, !len_le_bytes. change (Z.of_nat 4) with 4. lia. }
  unfold entry_fits, registry. cbn [imr_index event_type digests event event_size].
  split; [lia |]. split; [lia |]. split; [lia |].
  split; [| lia].
  destruct (_spec_id_header_event o) as [ev |] eqn:Hev.
  - apply Hfit. reflexivity.
  - destruct ds as [| x ds]; [constructor |]. exfalso.
    destruct (Z.to_nat v2) as [| k]; [discriminate Hn |].
    cbn [body_digest_loop] in E3.
    destruct (get_uint16 d i2) as [[a j] | ? | ]; try discriminate E3.
    cbn [obind] in E3. unfold find_algorithm in E3. rewrite Hev in E3.
    discriminate E3.
Qed.

(** ** Decoding an encoded header record *)

Lemma header_algo_loop_encoded : forall algs data i rest acc,
  Forall (fun alg => 0 <= algo_id alg < 2 ^ 16 /\ 0 <= digest_size alg < 2 ^ 16) algs ->
  cursor_at data i
    (flat_map (fun alg => le_bytes 2 (algo_id alg) ++ le_bytes 2 (digest_size alg)) algs
     ++ rest) ->
  header_algo_loop (length algs) data i acc = Return (acc ++ algs, i + 4 * len algs) /\
  cursor_at data (i + 4 * len algs) rest.
Proof.
  induction algs as [| alg algs IH]; intros data i rest acc Hfit Hc.
  - simpl. unfold len. simpl. rewrite app_nil_r, Z.add_0_r.
    split; [reflexivity | exact Hc].
  - inversion Hfit as [| alg' algs' (Ha & Hs) Hrest]; subst.
    cbn [flat_map length header_algo_loop] in *.
    rewrite <- !app_assoc in Hc.
    destruct (read_uint16_at _ _ _ _ Hc Ha) as (R1 & Hc1).
    destruct (read_uint16_at _ _ _ _ Hc1 Hs) as (R2 & Hc2).
    rewrite R1. cbn [obind]. rewrite R2. cbn [obind].
    destruct (IH data (i + 2 + 2) rest
                (acc ++ [mkAlgorithmSize (algo_id alg) (digest_size alg)]) Hrest Hc2)
      as (Hl & Hc3).
    replace (i + 4 * len (alg :: algs)) with (i + 2 + 2 + 4 * len algs)
      by (unfold len; cbn [length]; lia).
    split; [| exact Hc3].
    rewrite Hl. destruct alg as [a s]. simpl. rewrite <- app_assoc. reflexivity.
Qed.

Lemma len_encode_spec_header : forall ev,
  length (signature ev) = 16%nat ->
  len (encode_spec_header (signature ev) (platform_class ev) (spec_version_minor ev)
         (spec_version_major ev) (spec_errata ev) (uintn_size ev) (digest_sizes ev)
         (vendor_info ev))
  = 29 + 4 * len (digest_sizes ev) + len (vendor_info ev).
Proof.
  intros ev Hsig. unfold encode_spec_header.
  rewrite !len_app, !len_le_bytes.
  assert (Hf : forall algs : list TcgEfiSpecIdEventAlgorithmSize,
             len (flat_map (fun alg => le_bytes 2 (algo_id alg) ++ le_bytes 2 (digest_size alg))
                    algs) = 4 * len algs).
  { induction algs as [| a algs IH]; [reflexivity |].
    cbn [flat_map]. rewrite !len_app, !len_le_bytes, IH.
    unfold len. cbn [length]. lia. }
  rewrite Hf. unfold len at 1. rewrite Hsig. lia.
Qed.

Lemma len_encode_header : forall hdr ev,
  length (hdr_digest hdr) = 20%nat -> length (signature ev) = 16%nat ->
  len (encode_header hdr ev) = 61 + 4 * len (digest_sizes ev) + len (vendor_info ev).
Proof.
  intros hdr ev Hd Hs. unfold encode_header.
  rewrite !len_app, !len_le_bytes, len_encode_spec_header by exact Hs.
  unfold len at 1. rewrite Hd. lia.
Qed.

(** The header parser on a buffer that starts with an encoded header,
    the stored event bytes being those that follow the size field. *)
Lemma _parse_header_encoded : forall hdr ev rest more w,
  header_fits hdr -> spec_header_fits ev ->
  encode_spec_header (signature ev) (platform_class ev) (spec_version_minor ev)
    (spec_version_major ev) (spec_errata ev) (uintn_size ev) (digest_sizes ev)
    (vendor_info ev) ++ rest = hdr_event hdr ++ more ->
  _parse_header (encode_header hdr ev ++ rest) w =
  (Return (len (encode_header hdr ev)),
   update_self (set_spec_id_header_event ev) (update_self (set_spec_id_header hdr) w)).
Proof.
  intros hdr ev rest more w (Himr & Hty & Hdig & Hsz & Hev)
         (Hsig & Hpc & Hv1 & Hv2 & Hv3 & Hv4 & Hna & Hnl & Halgs & Hvs & Hvl) Hevent.
  rewrite len_encode_header by assumption.
  set (data := encode_header hdr ev ++ rest).
  assert (Hc : cursor_at data 0
                 (le_bytes 4 (hdr_imr_index hdr + 1) ++ le_bytes 4 (hdr_event_type hdr)
                  ++ hdr_digest hdr ++ le_bytes 4 (hdr_event_size hdr)
                  ++ encode_spec_header (signature ev) (platform_class ev)
                       (spec_version_minor ev) (spec_version_major ev) (spec_errata ev)
                       (uintn_size ev) (digest_sizes ev) (vendor_info ev) ++ rest)).
  { unfold data, encode_header. rewrite <- !app_assoc. apply cursor_at_start. }
  destruct (read_uint32_at _ _ _ _ Hc Himr) as (R1 & Hc1).
  destruct (read_uint32_at _ _ _ _ Hc1 Hty) as (R2 & Hc2).
  destruct (read_bytes_at _ _ _ _ Hc2) as (R3 & Hc3).
  replace (len (hdr_digest hdr)) with 20 in * by (unfold len; lia).
  destruct (read_uint32_at _ _ _ _ Hc3 Hsz) as (R4 & Hc4).
  assert (Hc4' : cursor_at data (0 + 4 + 4 + 20 + 4) (hdr_event hdr ++ more))
    by (rewrite <- Hevent; exact Hc4).
  destruct (read_bytes_at _ _ _ _ Hc4') as (R5 & _).
  rewrite <- Hev in R5.
  unfold encode_spec_header in Hc4. rewrite <- !app_assoc in Hc4.
  destruct (read_bytes_at _ _ _ _ Hc4) as (R6 & Hc6).
  replace (len (signature ev)) with 16 in * by (unfold len; lia).
  destruct (read_uint32_at _ _ _ _ Hc6 Hpc) as (R7 & Hc7).
  destruct (read_uint8_at _ _ _ _ Hc7 Hv1) as (R8 & Hc8).
  destruct (read_uint8_at _ _ _ _ Hc8 Hv2) as (R9 & Hc9).
  destruct (read_uint8_at _ _ _ _ Hc9 Hv3) as (R10 & Hc10).
  destruct (read_uint8_at _ _ _ _ Hc10 Hv4) as (R11 & Hc11).
  assert (Hnl' : 0 <= len (digest_sizes ev) < 2 ^ 32)
    by (pose proof (len_nonneg _ (digest_sizes ev)); lia).
  destruct (read_uint32_at _ _ _ _ Hc11 Hnl') as (R12 & Hc12).
  destruct (header_algo_loop_encoded _ _ _ _ [] Halgs Hc12) as (R13 & Hc13).
  assert (Hvl' : 0 <= len (vendor_info ev) < 2 ^ 8)
    by (pose proof (len_nonneg _ (vendor_info ev)); lia).
  destruct (read_uint8_at _ _ _ _ Hc13 Hvl') as (R14 & Hc14).
  destruct (read_bytes_at _ _ _ _ Hc14) as (R15 & _).
  unfold _parse_header, bind, lift, set_self, ret.
  rewrite R1. cbv beta iota. rewrite R2. cbv beta iota. rewrite R3. cbv beta iota.
  rewrite R4. cbv beta iota. rewrite R5. cbv beta iota. rewrite R6. cbv beta iota.
  rewrite R7. cbv beta iota. rewrite R8. cbv beta iota. rewrite R9. cbv beta iota.
  rewrite R10. cbv beta iota. rewrite R11. cbv beta iota. rewrite R12. cbv beta iota.
  replace (Z.to_nat (len (digest_sizes ev))) with (length (digest_sizes ev))
    by (unfold len; lia).
  rewrite R13. cbv beta iota. rewrite R14. cbv beta iota.
  destruct hdr as [him hty hdg hsz hev]. destruct ev as [sg pc v1 v2 v3 v4 na algs vs vi].
  cbn [hdr_imr_index hdr_event_type hdr_digest hdr_event_size hdr_event
       signature platform_class spec_version_minor spec_version_major spec_errata
       uintn_size number_of_algorithms digest_sizes vendor_info_size vendor_info] in *.
  replace (him + 1 - 1) with him by lia.
  subst na vs.
  destruct (0 <? len vi) eqn:Ev.
  - rewrite R15. cbv beta iota. unfold update_self. cbn [self LOG].
    f_equal. f_equal. lia.
  - apply Z.ltb_ge in Ev. assert (vi = []).
    { destruct vi; [reflexivity |]. unfold len in Ev. simpl in Ev. lia. }
    subst vi. unfold update_self. cbn [self LOG].
    f_equal. f_equal. unfold len. cbn [length]. lia.
Qed.

(** ** The bytes a decoded header was read from *)

Lemma header_algo_loop_Return_at : forall n d i acc l j,
  0 <= i ->
  header_algo_loop n d i acc = Return (l, j) ->
  exists l',
    l = acc ++ l' /\ length l' = n /\ j = i + 4 * Z.of_nat n /\
    skipn (Z.to_nat i) d
      = flat_map (fun alg => le_bytes 2 (algo_id alg) ++ le_bytes 2 (digest_size alg)) l'
        ++ skipn (Z.to_nat j) d /\
    Forall (fun alg => 0 <= algo_id alg < 2 ^ 16 /\ 0 <= digest_size alg < 2 ^ 16) l'.
Proof.
  induction n as [| n IH]; intros d i acc l j Hi H.
  - simpl in H. inversion H; subst. exists []. rewrite app_nil_r.
    repeat split; try reflexivity; try lia. constructor.
  - cbn [header_algo_loop] in H.
    destruct (get_uint16 d i) as [[a i1] | e | ] eqn:E1; try discriminate H.
    cbn [obind] in H.
    destruct (get_uint16 d i1) as [[s i2] | e | ] eqn:E2; try discriminate H.
    cbn [obind] in H.
    destruct (get_uint16_Return_at _ _ _ _ E1 Hi) as (S1 & Ha).
    apply get_uint16_Return in E1. destruct E1 as (Hi1 & _ & _).
    assert (Hi1' : 0 <= i1) by lia.
    destruct (get_uint16_Return_at _ _ _ _ E2 Hi1') as (S2 & Hs).
    apply get_uint16_Return in E2. destruct E2 as (Hi2 & _ & _).
    apply IH in H; [| lia].
    destruct H as (l' & Hl & Hn & Hj & S3 & Hfit).
    exists (mkAlgorithmSize a s :: l').
    split; [rewrite Hl, <- app_assoc; reflexivity |].
    split; [simpl; congruence |].
    split; [lia |].
    split.
    + cbn [flat_map algo_id digest_size]. rewrite S1, S2, S3, <- !app_assoc. reflexivity.
    + constructor; [split; assumption | exact Hfit].
Qed.

(** A header record that decodes was read from its own encoding: the
    slice handed to the header parser is the encoding of the header
    record and the SpecHeader it stores, followed by the bytes from the
    returned offset on; the stored event bytes are the declared
    [event_size] bytes that follow the size field. *)
Lemma _parse_header_Return_at : forall d w n w',
  _parse_header d w = (Return n, w') ->
  exists hdr ev,
    w' = update_self (set_spec_id_header_event ev)
           (update_self (set_spec_id_header hdr) w) /\
    d = encode_header hdr ev ++ skipn (Z.to_nat n) d /\
    n = len (encode_header hdr ev) /\
    header_fits hdr /\ spec_header_fits ev /\
    hdr_event hdr = slice d 32 (32 + hdr_event_size hdr).
Proof.
  intros d w n w' H. unfold _parse_header, bind, lift, set_self in H.
  destruct (get_uint32 d 0) as [[v0 i0] | ? | ] eqn:E0; try discriminate H.
  destruct (get_uint32 d i0) as [[v1 i1] | ? | ] eqn:E1; try discriminate H.
  destruct (get_bytes d i1 20) as [[v2 i2] | ? | ] eqn:E2; try discriminate H.
  destruct (get_uint32 d i2) as [[v3 i3] | ? | ] eqn:E3; try discriminate H.
  destruct (get_bytes d i3 v3) as [[v4 i4] | ? | ] eqn:E4; try discriminate H.
  cbv beta iota in H.
  destruct (get_bytes d i3 16) as [[v5 i5] | ? | ] eqn:E5; try discriminate H.
  destruct (get_uint32 d i5) as [[v6 i6] | ? | ] eqn:E6; try discriminate H.
  destruct (get_uint8 d i6) as [[v7 i7] | ? | ] eqn:E7; try discriminate H.
  destruct (get_uint8 d i7) as [[v8 i8] | ? | ] eqn:E8; try discriminate H.
  destruct (get_uint8 d i8) as [[v9 i9] | ? | ] eqn:E9; try discriminate H.
  destruct (get_uint8 d i9) as [[v10 i10] | ? | ] eqn:E10; try discriminate H.
  destruct (get_uint32 d i10) as [[v11 i11] | ? | ] eqn:E11; try discriminate H.
  destruct (header_algo_loop (Z.to_nat v11) d i11 []) as [[algs i12] | ? | ] eqn:E12;
    try discriminate H.
  destruct (get_uint8 d i12) as [[v13 i13] | ? | ] eqn:E13; try discriminate H.
  assert (H0 : 0 <= 0) by lia.
  destruct (get_uint32_Return_at _ _ _ _ E0 H0) as (S0 & R0).
  apply get_uint32_Return in E0. destruct E0 as (Hi0 & _ & _).
  assert (N0 : 0 <= i0) by lia.
  destruct (get_uint32_Return_at _ _ _ _ E1 N0) as (S1 & R1).
  apply get_uint32_Return in E1. destruct E1 as (Hi1 & _ & _).
  assert (N1 : 0 <= i1) by lia.
  destruct (get_bytes_Return_at _ _ _ _ _ E2 N1 ltac:(lia)) as (S2 & L2).
  apply get_bytes_Return in E2. destruct E2 as (Hi2 & _ & _).
  assert (N2 : 0 <= i2) by lia.
  destruct (get_uint32_Return_at _ _ _ _ E3 N2) as (S3 & R3).
  apply get_uint32_Return in E3. destruct E3 as (Hi3 & _ & _).
  assert (N3 : 0 <= i3) by lia.
  destruct (get_bytes_Return_at _ _ _ _ _ E4 N3 (proj1 R3)) as (_ & L4).
  apply get_bytes_Return in E4. destruct E4 as (_ & _ & V4).
  destruct (get_bytes_Return_at _ _ _ _ _ E5 N3 ltac:(lia)) as (S5 & L5).
  apply get_bytes_Return in E5. destruct E5 as (Hi5 & _ & _).
  assert (N5 : 0 <= i5) by lia.
  destruct (get_uint32_Return_at _ _ _ _ E6 N5) as (S6 & R6).
  apply get_uint32_Return in E6. destruct E6 as (Hi6 & _ & _).
  assert (N6 : 0 <= i6) by lia.
  destruct (get_uint8_Return_at _ _ _ _ E7 N6) as (S7 & R7).
  apply get_uint8_Return in E7. destruct E7 as (Hi7 & _ & _).
  assert (N7 : 0 <= i7) by lia.
  destruct (get_uint8_Return_at _ _ _ _ E8 N7) as (S8 & R8).
  apply get_uint8_Return in E8. destruct E8 as (Hi8 & _ & _).
  assert (N8 : 0 <= i8) by lia.
  destruct (get_uint8_Return_at _ _ _ _ E9 N8) as (S9 & R9).
  apply get_uint8_Return in E9. destruct E9 as (Hi9 & _ & _).
  assert (N9 : 0 <= i9) by lia.
  destruct (get_uint8_Return_at _ _ _ _ E10 N9) as (S10 & R10).
  apply get_uint8_Return in E10. destruct E10 as (Hi10 & _ & _).
  assert (N10 : 0 <= i10) by lia.
  destruct (get_uint32_Return_at _ _ _ _ E11 N10) as (S11 & R11).
  apply get_uint32_Return in E11. destruct E11 as (Hi11 & _ & _).
  assert (N11 : 0 <= i11) by lia.
  destruct (header_algo_loop_Return_at _ _ _ _ _ _ N11 E12)
    as (algs' & Halgs & Hn & Hi12 & S12 & Hfit).
  simpl in Halgs. subst algs'.
  assert (N12 : 0 <= i12) by lia.
  destruct (get_uint8_Return_at _ _ _ _ E13 N12) as (S13 & R13).
  apply get_uint8_Return in E13. destruct E13 as (Hi13 & B13 & _).
  assert (N13 : 0 <= i13) by lia.
  assert (Hvend : exists vi, skipn (Z.to_nat i13) d = vi ++ skipn (Z.to_nat n) d /\
                             len vi = v13 /\ n <= len d /\ 0 <= n /\
                             w' = update_self
                                    (set_spec_id_header_event
                                       (mkEfiSpecIdEvent v5 v6 v7 v8 v9 v10 v11 algs v13 vi))
                                    (update_self
                                       (set_spec_id_header
                                          (mkPcClientImrEvent (v0 - 1) v1 v2 v3 v4)) w)).
  { destruct (0 <? v13) eqn:Ev.
    - destruct (get_bytes d i13 v13) as [[vi i14] | ? | ] eqn:E14; try discriminate H.
      cbv beta iota in H. unfold ret in H. inversion H; subst i14 w'; clear H.
      destruct (get_bytes_Return_at _ _ _ _ _ E14 N13 (proj1 R13)) as (S14 & L14).
      apply get_bytes_Return in E14. destruct E14 as (Hn14 & B14 & _).
      exists vi. repeat split; try assumption; try lia.
    - unfold ret in H. cbv beta iota in H. inversion H; subst i13 w'; clear H.
      apply Z.ltb_ge in Ev. exists []. repeat split; try lia.
      unfold len. simpl. lia. }
  clear H. destruct Hvend as (vi & S14 & L14 & Bn & Nn & ->).
  exists (mkPcClientImrEvent (v0 - 1) v1 v2 v3 v4),
         (mkEfiSpecIdEvent v5 v6 v7 v8 v9 v10 v11 algs v13 vi).
  assert (Hlen : len algs = v11) by (unfold len; lia).
  assert (Henc : d = encode_header (mkPcClientImrEvent (v0 - 1) v1 v2 v3 v4)
                       (mkEfiSpecIdEvent v5 v6 v7 v8 v9 v10 v11 algs v13 vi)
                     ++ skipn (Z.to_nat n) d).
  { unfold encode_header, encode_spec_header.
    cbn [hdr_imr_index hdr_event_type hdr_digest hdr_event_size hdr_event
         signature platform_class spec_version_minor spec_version_major spec_errata
         uintn_size number_of_algorithms digest_sizes vendor_info_size vendor_info].
    replace (v0 - 1 + 1) with v0 by lia. rewrite Hlen, L14.
    rewrite <- !app_assoc, <- S14, <- S13, <- S12, <- S11, <- S10, <- S9, <- S8, <- S7,
      <- S6, <- S5, <- S3, <- S2, <- S1, <- S0.
    reflexivity. }
  split; [reflexivity |].
  split; [exact Henc |].
  split.
  { assert (Hl : len d = len (encode_header (mkPcClientImrEvent (v0 - 1) v1 v2 v3 v4)
                                (mkEfiSpecIdEvent v5 v6 v7 v8 v9 v10 v11 algs v13 vi))
                         + len (skipn (Z.to_nat n) d))
      by (rewrite Henc at 1; apply len_app).
    rewrite len_skipn in Hl by lia. lia. }
  split.
  { unfold header_fits.
    cbn [hdr_imr_index hdr_event_type hdr_digest hdr_event_size hdr_event].
    repeat split; try lia. unfold len in L2. lia. }
  split.
  { unfold spec_header_fits.
    cbn [signature platform_class spec_version_minor spec_version_major spec_errata
         uintn_size number_of_algorithms digest_sizes vendor_info_size vendor_info].
    repeat split; try lia; try assumption. unfold len in L5. lia. }
  cbn [hdr_event hdr_event_size]. rewrite V4.
  replace i3 with 32 by lia. reflexivity.
Qed.


(** ** Whole logs: decoding what was encoded *)

(** The body parser on an encoded record, whether or not a header was
    stored: without one the record has no digest and no lookup is made. *)
Lemma parse_event_log_body_fits : forall o e rest,
  entry_fits (registry o) e ->
  parse_event_log_body o (encode_entry e ++ rest) = Return (e, len (encode_entry e)).
Proof.
  intros o e rest Hfit. unfold registry in Hfit.
  destruct (_spec_id_header_event o) as [ev |] eqn:Hev.
  - exact (parse_event_log_body_encoded o ev e rest Hev Hfit).
  - destruct Hfit as (Himr & Hety & Hnd & Hds & Hsz & Hlen).
    assert (Hnil : digests e = []).
    { destruct (digests e) as [| x ds]; [reflexivity |]. exfalso.
      inversion Hds as [| x' ds' (_ & alg & Hf & _) _]. discriminate Hf. }
    set (data := encode_entry e ++ rest).
    assert (Hc : cursor_at data 0
                   (le_bytes 4 (imr_index e + 1) ++ le_bytes 4 (event_type e)
                    ++ le_bytes 4 0 ++ le_bytes 4 (len (event e)) ++ event e ++ rest)).
    { unfold data, encode_entry, encode_measurement_record. rewrite Hnil.
      cbn [flat_map]. unfold len at 1. cbn [length Z.of_nat].
      rewrite app_nil_l, <- !app_assoc. apply cursor_at_start. }
    destruct (read_uint32_at _ _ _ _ Hc Himr) as (R1 & Hc1).
    destruct (read_uint32_at _ _ _ _ Hc1 Hety) as (R2 & Hc2).
    assert (H0 : 0 <= 0 < 2 ^ 32) by lia.
    destruct (read_uint32_at _ _ _ _ Hc2 H0) as (R3 & Hc3).
    assert (Hlen' : 0 <= len (event e) < 2 ^ 32)
      by (pose proof (len_nonneg _ (event e)); lia).
    destruct (read_uint32_at _ _ _ _ Hc3 Hlen') as (R5 & Hc5).
    destruct (read_bytes_at _ _ _ _ Hc5) as (R6 & _).
    unfold parse_event_log_body.
    rewrite R1. cbn [obind]. rewrite R2. cbn [obind]. rewrite R3. cbn [obind].
    change (Z.to_nat 0) with 0%nat. cbn [body_digest_loop obind].
    rewrite R5. cbn [obind]. rewrite R6. cbn [obind].
    f_equal. f_equal.
    + destruct e as [im et ds es evd]. simpl in *. subst ds. f_equal; lia.
    + unfold encode_entry, encode_measurement_record. rewrite Hnil.
      cbn [flat_map]. rewrite !len_app, !len_le_bytes. change (Z.of_nat 4) with 4.
      change (len (@nil byte)) with 0. lia.
Qed.

Lemma update_self_store_record : forall r w,
  update_self (store_record r) w =
  match r with
  | HeaderRecord hdr ev =>
      update_self incr_count
        (update_self (set_spec_id_header_event ev) (update_self (set_spec_id_header hdr) w))
  | MeasurementRecord e =>
      update_self incr_count (update_self (append_event_log e) w)
  end.
Proof. intros [hdr ev | e] w; reflexivity. Qed.

Lemma update_self_store_log_cons : forall r l w,
  update_self (store_log (r :: l)) w = update_self (store_log l) (update_self (store_record r) w).
Proof. intros. reflexivity. Qed.

Lemma registry_store_record : forall r o,
  registry (store_record r o) = next_registry (registry o) r.
Proof. intros [hdr ev | e] o; reflexivity. Qed.

Lemma len_encode_record : forall reg r rest,
  record_fits reg r rest -> 16 <= len (encode_record r).
Proof.
  intros reg [hdr ev | e] rest H.
  - destruct H as (_ & _ & (_ & _ & Hd & _) & (Hs & _) & _).
    cbn [encode_record]. rewrite len_encode_header by assumption.
    pose proof (len_nonneg _ (digest_sizes ev)). pose proof (len_nonneg _ (vendor_info ev)).
    lia.
  - cbn [encode_record]. unfold encode_entry, encode_measurement_record.
    rewrite !len_app, !len_le_bytes. change (Z.of_nat 4) with 4.
    pose proof (len_nonneg _ (flat_map (fun d => le_bytes 2 (alg_id d) ++ hash d) (digests e))).
    pose proof (len_nonneg _ (event e)). lia.
Qed.

(** One iteration of the loop at an encoded record. *)
Lemma parse_step_encoded : forall data index w r rest,
  cursor_at data index (encode_record r ++ rest) ->
  record_fits (registry (self w)) r rest ->
  parse_step data index w =
  Continue (index + len (encode_record r)) (update_self (store_record r) w) /\
  cursor_at data (index + len (encode_record r)) rest.
Proof.
  intros data index w r rest Hc Hfit.
  pose proof (len_encode_record _ _ _ Hfit) as Hlen.
  destruct (cursor_at_skip _ _ _ _ Hc) as (_ & Hb & Hc').
  split; [| exact Hc'].
  destruct Hc as ((Hi & _) & Hskip).
  rewrite update_self_store_record.
  destruct r as [hdr ev | e].
  - destruct Hfit as (Hns & Hna & Hh & Hs & more & Hmore).
    cbn [encode_record] in *.
    assert (Hc : cursor_at data index
                   (le_bytes 4 (hdr_imr_index hdr + 1) ++ le_bytes 4 (hdr_event_type hdr)
                    ++ (hdr_digest hdr ++ le_bytes 4 (hdr_event_size hdr)
                        ++ encode_spec_header (signature ev) (platform_class ev)
                             (spec_version_minor ev) (spec_version_major ev)
                             (spec_errata ev) (uintn_size ev) (digest_sizes ev)
                             (vendor_info ev)) ++ rest)).
    { split; [lia |]. rewrite Hskip. unfold encode_header. rewrite <- !app_assoc.
      reflexivity. }
    destruct (cursor_at_skip _ _ _ _ Hc) as (S1 & _ & Hc1).
    destruct (cursor_at_skip _ _ _ _ Hc1) as (S2 & _ & _).
    rewrite len_le_bytes in S1. rewrite !len_le_bytes in S2.
    change (Z.of_nat 4) with 4 in S1, S2.
    replace (index + 4 + 4) with (index + 8) in S2 by lia.
    apply parse_step_header.
    + lia.
    + rewrite S1, le_value_le_bytes_small by (destruct Hh as (? & _); exact H).
      exact Hns.
    + rewrite S2, le_value_le_bytes_small by (destruct Hh as (_ & ? & _); exact H).
      exact Hna.
    + rewrite Hskip. exact (_parse_header_encoded hdr ev rest more w Hh Hs Hmore).
  - destruct Hfit as ((Hns & Hna) & Hfit).
    cbn [encode_record] in *.
    assert (Hc : cursor_at data index
                   (le_bytes 4 (imr_index e + 1) ++ le_bytes 4 (event_type e)
                    ++ (le_bytes 4 (len (digests e))
                        ++ flat_map (fun d => le_bytes 2 (alg_id d) ++ hash d) (digests e)
                        ++ le_bytes 4 (len (event e)) ++ event e) ++ rest)).
    { split; [lia |]. rewrite Hskip. unfold encode_entry, encode_measurement_record.
      rewrite <- !app_assoc. reflexivity. }
    destruct (cursor_at_skip _ _ _ _ Hc) as (S1 & _ & Hc1).
    destruct (cursor_at_skip _ _ _ _ Hc1) as (S2 & _ & _).
    rewrite len_le_bytes in S1. rewrite !len_le_bytes in S2.
    change (Z.of_nat 4) with 4 in S1, S2.
    replace (index + 4 + 4) with (index + 8) in S2 by lia.
    apply parse_step_body.
    + lia.
    + lia.
    + rewrite S1, le_value_le_bytes_small by (destruct Hfit as (? & _); exact H).
      exact Hns.
    + rewrite S2, le_value_le_bytes_small by (destruct Hfit as (_ & ? & _); exact H).
      exact Hna.
    + rewrite Hskip. apply parse_event_log_body_fits. exact Hfit.
Qed.

(** The loop over the encoded records of a log. *)
Lemma reaches_encoded : forall l data index w term,
  cursor_at data index (encode_log l ++ term) ->
  log_fits (registry (self w)) l term ->
  reaches data (index, w) (index + len (encode_log l), update_self (store_log l) w) /\
  cursor_at data (index + len (encode_log l)) term.
Proof.
  induction l as [| r l IH]; intros data index w term Hc Hfit.
  - cbn [encode_log flat_map app] in *. unfold len. cbn [length Z.of_nat].
    rewrite Z.add_0_r. split; [| exact Hc].
    destruct w as [o lg]. apply reaches_refl.
  - destruct Hfit as (Hr & Hl).
    change (encode_log (r :: l)) with (encode_record r ++ encode_log l) in *.
    rewrite <- app_assoc in Hc.
    destruct (parse_step_encoded _ _ _ _ _ Hc Hr) as (Hstep & Hc1).
    assert (Hl' : log_fits (registry (self (update_self (store_record r) w))) l term).
    { unfold update_self. cbn [self]. rewrite registry_store_record. exact Hl. }
    destruct (IH data (index + len (encode_record r)) (update_self (store_record r) w)
                term Hc1 Hl') as (Hreach & Hc2).
    rewrite len_app, Z.add_assoc, update_self_store_log_cons.
    split; [| exact Hc2].
    eapply reaches_step; [exact Hstep | exact Hreach].
Qed.

(** The iteration at which the loop stops without an error. *)
Lemma parse_step_log_ends : forall data index w term,
  cursor_at data index term -> log_ends term ->
  parse_step data index w = Stop (Return tt, w).
Proof.
  intros data index w term ((Hi & Hle) & Hskip) [-> | (tail & -> & Ht)].
  - assert (Hlen : len (skipn (Z.to_nat index) data) = len data - index)
      by (apply len_skipn; lia).
    rewrite Hskip in Hlen. unfold len in Hlen at 1. cbn [length Z.of_nat] in Hlen.
    unfold parse_step.
    assert (E : (index <? len data) = false) by (apply Z.ltb_ge; lia).
    rewrite E. reflexivity.
  - assert (Hc : cursor_at data index (sentinel ++ tail)) by (split; [lia | exact Hskip]).
    destruct (cursor_at_skip _ _ _ _ Hc) as (S1 & Hb & (_ & Hskip')).
    change (len sentinel) with 4 in *.
    assert (Hlen : len (skipn (Z.to_nat (index + 4)) data) = len data - (index + 4))
      by (apply len_skipn; lia).
    rewrite Hskip' in Hlen.
    apply parse_step_sentinel; [lia | lia |].
    rewrite S1. reflexivity.
Qed.

(** ** Whole logs: what a pass that returns has decoded *)

Lemma skipn_skipn_Z : forall (d : list byte) i n,
  0 <= i -> 0 <= n ->
  skipn (Z.to_nat n) (skipn (Z.to_nat i) d) = skipn (Z.to_nat (i + n)) d.
Proof.
  intros d i n Hi Hn. rewrite skipn_skipn.
  replace (Z.to_nat n + Z.to_nat i)%nat with (Z.to_nat (i + n)) by lia. reflexivity.
Qed.

(** The event bytes a decoded header stores, against what follows the
    size field. *)
Lemma _parse_header_Return_more : forall d hdr ev n,
  d = encode_header hdr ev ++ skipn (Z.to_nat n) d ->
  header_fits hdr ->
  hdr_event hdr = slice d 32 (32 + hdr_event_size hdr) ->
  exists more,
    encode_spec_header (signature ev) (platform_class ev) (spec_version_minor ev)
      (spec_version_major ev) (spec_errata ev) (uintn_size ev) (digest_sizes ev)
      (vendor_info ev) ++ skipn (Z.to_nat n) d = hdr_event hdr ++ more.
Proof.
  intros d hdr ev n Henc (Himr & Hty & Hdig & Hsz & Hev) Hslice.
  set (spec := encode_spec_header (signature ev) (platform_class ev) (spec_version_minor ev)
      (spec_version_major ev) (spec_errata ev) (uintn_size ev) (digest_sizes ev)
      (vendor_info ev)).
  set (rest := skipn (Z.to_nat n) d) in *.
  assert (Hc : cursor_at d 0
                 ((le_bytes 4 (hdr_imr_index hdr + 1) ++ le_bytes 4 (hdr_event_type hdr)
                   ++ hdr_digest hdr ++ le_bytes 4 (hdr_event_size hdr))
                  ++ spec ++ rest)).
  { pose proof (cursor_at_start d) as Hs. rewrite Henc in Hs at 2.
    unfold encode_header in Hs. fold spec in Hs. rewrite <- !app_assoc in *. exact Hs. }
  destruct (cursor_at_skip _ _ _ _ Hc) as (_ & _ & (_ & Hskip)).
  rewrite !len_app, !len_le_bytes in Hskip. change (Z.of_nat 4) with 4 in Hskip.
  unfold len in Hskip at 1. rewrite Hdig in Hskip.
  change (0 + (4 + (4 + (Z.of_nat 20 + 4)))) with 32 in Hskip.
  exists (skipn (Z.to_nat (hdr_event_size hdr)) (spec ++ rest)).
  rewrite Hslice. unfold slice. rewrite Hskip.
  replace (32 + hdr_event_size hdr - 32) with (hdr_event_size hdr) by lia.
  symmetry. apply firstn_skipn.
Qed.

(** An iteration that goes round again has decoded a record. *)
Lemma parse_step_Continue_encoded : forall data index w index' w',
  registry_ok (self w) -> 0 <= index ->
  parse_step data index w = Continue index' w' ->
  exists r,
    skipn (Z.to_nat index) data = encode_record r ++ skipn (Z.to_nat index') data /\
    index' = index + len (encode_record r) /\
    record_fits (registry (self w)) r (skipn (Z.to_nat index') data) /\
    w' = update_self (store_record r) w.
Proof.
  intros data index w index' w' Hok Hi H. unfold parse_step in H.
  destruct (index <? len data) eqn:El; [| discriminate H].
  destruct (get_uint32 data index) as [[imr i1] | ? | ] eqn:E1; try discriminate H.
  destruct (get_uint32 data i1) as [[ety i2] | ? | ] eqn:E2; try discriminate H.
  destruct (imr =? 0xFFFFFFFF) eqn:Es; [discriminate H |].
  apply Z.eqb_neq in Es.
  apply get_uint32_Return in E1. destruct E1 as (-> & _ & Himr).
  apply get_uint32_Return in E2. destruct E2 as (_ & _ & Hety).
  destruct (ety =? EV_NO_ACTION) eqn:Ea.
  - apply Z.eqb_eq in Ea.
    destruct (_parse_header (skipn (Z.to_nat index) data) w) as [[n | ? | ] w1] eqn:Eh;
      try discriminate H.
    inversion H; subst index' w'; clear H.
    destruct (_parse_header_Return_at _ _ _ _ Eh)
      as (hdr & ev & -> & Henc & Hn & Hh & Hs & Hslice).
    pose proof (_parse_header_Return_more _ _ _ _ Henc Hh Hslice) as Hmore.
    assert (Hn0 : 0 <= n) by (rewrite Hn; apply len_nonneg).
    rewrite skipn_skipn_Z in Henc, Hmore by assumption.
    exists (HeaderRecord hdr ev). cbn [encode_record record_fits].
    assert (Hc : cursor_at (skipn (Z.to_nat index) data) 0
                   (le_bytes 4 (hdr_imr_index hdr + 1) ++ le_bytes 4 (hdr_event_type hdr)
                    ++ (hdr_digest hdr ++ le_bytes 4 (hdr_event_size hdr)
                        ++ encode_spec_header (signature ev) (platform_class ev)
                             (spec_version_minor ev) (spec_version_major ev)
                             (spec_errata ev) (uintn_size ev) (digest_sizes ev)
                             (vendor_info ev))
                    ++ skipn (Z.to_nat (index + n)) data)).
    { pose proof (cursor_at_start (skipn (Z.to_nat index) data)) as Hc.
      rewrite Henc in Hc at 2. unfold encode_header in Hc.
      rewrite <- !app_assoc in *. exact Hc. }
    destruct (cursor_at_skip _ _ _ _ Hc) as (S1 & _ & Hc1).
    destruct (cursor_at_skip _ _ _ _ Hc1) as (S2 & _ & _).
    rewrite len_le_bytes in S1. rewrite !len_le_bytes in S2.
    change (Z.of_nat 4) with 4 in S1, S2.
    unfold slice in S1, S2. rewrite skipn_skipn_Z in S1, S2 by lia.
    unfold slice in Himr, Hety.
    replace (index + 4 - index) with (0 + 4 - 0) in Himr by lia.
    replace (index + 4 + 4 - (index + 4)) with (0 + 4 + 4 - (0 + 4)) in Hety by lia.
    replace (index + (0 + 4)) with (index + 4) in S2 by lia.
    rewrite Z.add_0_r in S1.
    rewrite S1 in Himr. rewrite S2 in Hety.
    rewrite le_value_le_bytes_small in Himr by (destruct Hh as (? & _); assumption).
    rewrite le_value_le_bytes_small in Hety by (destruct Hh as (_ & ? & _); assumption).
    split; [exact Henc |].
    split; [congruence |].
    split; [| rewrite update_self_store_record; reflexivity].
    split; [congruence |]. split; [congruence |].
    split; [exact Hh |]. split; [exact Hs |]. exact Hmore.
  - apply Z.eqb_neq in Ea.
    destruct (parse_event_log_body (self w) (skipn (Z.to_nat index) data))
      as [[e n] | ? | ] eqn:Eb; try discriminate H.
    inversion H; subst index' w'; clear H.
    destruct (parse_event_log_body_Return_at _ _ _ _ Hok Eb) as (Henc & Hn & _ & Hfit).
    assert (Hn0 : 0 <= n) by (rewrite Hn; apply len_nonneg).
    rewrite skipn_skipn_Z in Henc by assumption.
    exists (MeasurementRecord e). cbn [encode_record record_fits].
    assert (Hc : cursor_at (skipn (Z.to_nat index) data) 0
                   (le_bytes 4 (imr_index e + 1) ++ le_bytes 4 (event_type e)
                    ++ (le_bytes 4 (len (digests e))
                        ++ flat_map (fun d => le_bytes 2 (alg_id d) ++ hash d) (digests e)
                        ++ le_bytes 4 (len (event e)) ++ event e)
                    ++ skipn (Z.to_nat (index + n)) data)).
    { pose proof (cursor_at_start (skipn (Z.to_nat index) data)) as Hc.
      rewrite Henc in Hc at 2. unfold encode_entry, encode_measurement_record in Hc.
      rewrite <- !app_assoc in *. exact Hc. }
    destruct (cursor_at_skip _ _ _ _ Hc) as (S1 & _ & Hc1).
    destruct (cursor_at_skip _ _ _ _ Hc1) as (S2 & _ & _).
    rewrite len_le_bytes in S1. rewrite !len_le_bytes in S2.
    change (Z.of_nat 4) with 4 in S1, S2.
    unfold slice in S1, S2. rewrite skipn_skipn_Z in S1, S2 by lia.
    unfold slice in Himr, Hety.
    replace (index + 4 - index) with (0 + 4 - 0) in Himr by lia.
    replace (index + 4 + 4 - (index + 4)) with (0 + 4 + 4 - (0 + 4)) in Hety by lia.
    replace (index + (0 + 4)) with (index + 4) in S2 by lia.
    rewrite Z.add_0_r in S1.
    rewrite S1 in Himr. rewrite S2 in Hety.
    rewrite le_value_le_bytes_small in Himr by (destruct Hfit as (? & _); assumption).
    rewrite le_value_le_bytes_small in Hety by (destruct Hfit as (_ & ? & _); assumption).
    split; [exact Henc |].
    split; [congruence |].
    split; [| rewrite update_self_store_record; reflexivity].
    split; [| exact Hfit].
    split; congruence.
Qed.

(** An iteration that stops without an error is at the end of the
    buffer or at a sentinel that has an event-type field after it. *)
Lemma parse_step_Stop_Return : forall data index w w',
  0 <= index <= len data ->
  parse_step data index w = Stop (Return tt, w') ->
  w' = w /\ log_ends (skipn (Z.to_nat index) data).
Proof.
  intros data index w w' Hi H. unfold parse_step in H.
  destruct (index <? len data) eqn:El.
  - destruct (get_uint32 data index) as [[imr i1] | ? | ] eqn:E1; try discriminate H.
    destruct (get_uint32 data i1) as [[ety i2] | ? | ] eqn:E2; try discriminate H.
    destruct (imr =? 0xFFFFFFFF) eqn:Es.
    + inversion H; subst w'; clear H. split; [reflexivity |].
      apply Z.eqb_eq in Es. subst imr.
      destruct (get_uint32_Return_at _ _ _ _ E1 (proj1 Hi)) as (S1 & _).
      apply get_uint32_Return in E1. destruct E1 as (-> & _ & _).
      apply get_uint32_Return in E2. destruct E2 as (_ & Hb & _).
      right. exists (skipn (Z.to_nat (index + 4)) data).
      split; [exact S1 |].
      rewrite len_skipn by lia. lia.
    + destruct (ety =? EV_NO_ACTION).
      * destruct (_parse_header (skipn (Z.to_nat index) data) w) as [[n | ? | ] w1];
          discriminate H.
      * destruct (parse_event_log_body (self w) (skipn (Z.to_nat index) data))
          as [[e n] | ? | ]; discriminate H.
  - inversion H; subst w'; clear H. split; [reflexivity |]. left.
    apply Z.ltb_ge in El. apply skipn_all2. unfold len in *. lia.
Qed.

Lemma _parse_loop_Return_encoded : forall fuel data index w w',
  registry_ok (self w) -> 0 <= index <= len data ->
  _parse_loop fuel data index w = (Return tt, w') ->
  exists l term,
    skipn (Z.to_nat index) data = encode_log l ++ term /\
    log_fits (registry (self w)) l term /\ log_ends term /\
    w' = update_self (store_log l) w.
Proof.
  induction fuel as [| fuel IH]; intros data index w w' Hok Hi H.
  - discriminate H.
  - rewrite _parse_loop_unfold in H.
    destruct (parse_step data index w) as [r | index1 w1] eqn:Es.
    + subst r. destruct (parse_step_Stop_Return _ _ _ _ Hi Es) as (-> & Hend).
      exists [], (skipn (Z.to_nat index) data).
      split; [reflexivity |]. split; [exact I |]. split; [exact Hend |].
      destruct w as [o lg]. reflexivity.
    + destruct (parse_step_Continue _ _ _ _ _ Hok (proj1 Hi) Es) as (Hadv & Hok1).
      destruct (parse_step_Continue_encoded _ _ _ _ _ Hok (proj1 Hi) Es)
        as (r & Henc & _ & Hfit & ->).
      assert (Hi1 : 0 <= index1 <= len data) by lia.
      destruct (IH data index1 _ w' Hok1 Hi1 H) as (l & term & Hl & Hlf & Hend & ->).
      exists (r :: l), term.
      change (encode_log (r :: l)) with (encode_record r ++ encode_log l).
      rewrite <- app_assoc, <- Hl.
      split; [exact Henc |].
      split; [| split; [exact Hend | reflexivity]].
      split; [rewrite <- Hl; exact Hfit |].
      unfold update_self in Hlf. cbn [self] in Hlf.
      rewrite registry_store_record in Hlf. exact Hlf.
Qed.

(** The pass over an encoded log. *)
Lemma _parse_encoded_log : forall w l term,
  _data (self w) = Some (encode_log l ++ term) -> registry_ok (self w) ->
  log_fits (registry (self w)) l term -> log_ends term ->
  _parse w = (Return tt, update_self (store_log l) w).
Proof.
  intros w l term Hd Hok Hfit Hend.
  pose proof (cursor_at_start (encode_log l ++ term)) as Hc.
  destruct (reaches_encoded _ _ _ _ _ Hc Hfit) as (Hreach & Hc').
  exact (_parse_reaches_Stop _ _ _ _ _ Hd Hok Hreach
           (parse_step_log_ends _ _ _ _ Hc' Hend)).
Qed.

Lemma store_log_fields : forall l o,
  _data (store_log l o) = _data o /\
  _event_logs (store_log l o) = _event_logs o ++ entries_of l /\
  _count (store_log l o) = _count o + len l /\
  (_spec_id_header (store_log l o), _spec_id_header_event (store_log l o))
    = last_header l (_spec_id_header o, _spec_id_header_event o).
Proof.
  induction l as [| r l IH]; intros o.
  - cbn [store_log fold_left entries_of flat_map last_header]. rewrite app_nil_r.
    change (len (@nil wire_record)) with 0. repeat split; lia.
  - change (store_log (r :: l) o) with (store_log l (store_record r o)).
    destruct (IH (store_record r o)) as (Hd & He & Hc & Hh).
    rewrite Hd, He, Hc, Hh.
    replace (len (r :: l)) with (1 + len l) by (unfold len; cbn [length]; lia).
    destruct r as [hdr ev | e]; cbn [store_record entries_of flat_map last_header app];
      unfold incr_count, append_event_log, set_event_logs, set_spec_id_header_event,
        set_spec_id_header; cbn [_data _event_logs _count _spec_id_header
                                 _spec_id_header_event];
      rewrite <- ?app_assoc; repeat split; try reflexivity; lia.
Qed.

Lemma stored_store_log : forall w l, stored w l (update_self (store_log l) w).
Proof.
  intros w l. destruct (store_log_fields l (self w)) as (Hd & He & Hc & Hh).
  unfold stored, update_self. cbn [self LOG].
  split; [reflexivity |]. split; [exact Hd |]. split; [exact He |].
  split; [exact Hc | exact Hh].
Qed.

(** ** The decoders and the wire format *)

(** X8.  For a record whose payload and digests are not empty (no read
    of zero bytes), the body parser returns the record and an offset
    exactly when the slice it is given starts with the encoding of that
    record, the record fits the format and the registry the object holds
    (every digest has the size of the first registry entry with its id;
    [event_size] is the length of the payload) and the offset is the
    length of the encoding.  It writes nothing. *)
Theorem body_parse_returns_iff : forall d w e n w',
  registry_ok (self w) ->
  entry_nonempty e ->
  (_parse_event_log_body d w = (Return (e, n), w') <->
   w' = w /\ n = len (encode_entry e) /\ entry_fits (registry (self w)) e /\
   exists rest, d = encode_entry e ++ rest).
Proof.
  intros d w e n w' Hok _. unfold _parse_event_log_body. split.
  - intros H. injection H as Hb Hw. subst w'.
    destruct (parse_event_log_body_Return_at _ _ _ _ Hok Hb) as (Henc & Hn & _ & Hfit).
    split; [reflexivity |]. split; [exact Hn |]. split; [exact Hfit |].
    exists (skipn (Z.to_nat n) d). exact Henc.
  - intros (-> & -> & Hfit & rest & ->).
    rewrite (parse_event_log_body_fits _ _ rest Hfit). reflexivity.
Qed.

Lemma entry_sample_nonempty : entry_nonempty entry_sample.
Proof.
  split; [unfold len; cbn [length entry_sample event]; lia |].
  constructor; [unfold len; cbn [length hash repeat]; lia | constructor].
Qed.

Lemma body_parse_returns_iff_witness :
  (registry_ok (self world_parsed) /\ entry_nonempty entry_sample) /\
  _parse_event_log_body (measurement_sample ++ [x2a]) world_parsed
    = (Return (entry_sample, 54), world_parsed) /\
  (_parse_event_log_body (measurement_sample ++ [x2a]) world_parsed
     = (Return (entry_sample, 54), world_parsed) <->
   world_parsed = world_parsed /\ 54 = len (encode_entry entry_sample) /\
   entry_fits (registry (self world_parsed)) entry_sample /\
   exists rest, measurement_sample ++ [x2a] = encode_entry entry_sample ++ rest).
Proof.
  assert (Hok : registry_ok (self world_parsed)).
  { unfold registry_ok. cbv. constructor; [discriminate | constructor]. }
  split; [split; [exact Hok | exact entry_sample_nonempty] |].
  split; [vm_compute; reflexivity |].
  exact (body_parse_returns_iff (measurement_sample ++ [x2a]) world_parsed entry_sample 54
           world_parsed Hok entry_sample_nonempty).
Defined.

(** X9.  On a slice whose declared event size, when the slice is long
    enough to hold that field, is not 0 (no read of zero bytes), the
    header parser returns an offset exactly when the slice starts with the
    encoding of a header record and a SpecHeader whose fields fit the
    format: a 20-byte digest, a 16-byte signature, as many registry
    entries as the algorithm count declares, as many vendor bytes as the
    vendor size declares.  It then stores that header record and that
    SpecHeader, the event bytes of the record being the declared
    [event_size] bytes that follow the size field, whether the SpecHeader
    takes fewer or more; the offset is the length of the encoding. *)
Theorem header_parse_returns_iff : forall d w n w',
  (32 <= len d -> 0 < le_value (slice d 28 32)) ->
  (_parse_header d w = (Return n, w') <->
   exists hdr ev rest more,
     d = encode_header hdr ev ++ rest /\
     header_fits hdr /\ 0 < hdr_event_size hdr /\ spec_header_fits ev /\
     encode_spec_header (signature ev) (platform_class ev) (spec_version_minor ev)
       (spec_version_major ev) (spec_errata ev) (uintn_size ev) (digest_sizes ev)
       (vendor_info ev) ++ rest = hdr_event hdr ++ more /\
     n = len (encode_header hdr ev) /\
     w' = update_self (set_spec_id_header_event ev)
            (update_self (set_spec_id_header hdr) w)).
Proof.
  intros d w n w' Hpos. split.
  - intros H.
    destruct (_parse_header_Return_at _ _ _ _ H) as (hdr & ev & Hw & Henc & Hn & Hh & Hs & Hsl).
    destruct (_parse_header_Return_more _ _ _ _ Henc Hh Hsl) as (more & Hmore).
    destruct (_parse_header_Return _ _ _ _ H)
      as (hdr' & ev' & Hw' & _ & Hsz & Hle & _).
    assert (Ehdr : hdr' = hdr).
    { assert (E : _spec_id_header (self w') = Some hdr) by (rewrite Hw; reflexivity).
      rewrite Hw' in E. cbn in E. congruence. }
    subst hdr'.
    assert (Hp : 0 < hdr_event_size hdr).
    { rewrite Hsz. apply Hpos. pose proof (le_value_nonneg (slice d 28 32)). lia. }
    exists hdr, ev, (skipn (Z.to_nat n) d), more.
    split; [exact Henc |]. split; [exact Hh |]. split; [exact Hp |]. split; [exact Hs |].
    split; [exact Hmore |]. split; [exact Hn | exact Hw].
  - intros (hdr & ev & rest & more & -> & Hh & _ & Hs & Hmore & -> & ->).
    exact (_parse_header_encoded hdr ev rest more w Hh Hs Hmore).
Qed.

Lemma header_parse_returns_iff_witness :
  (32 <= len (header_padded ++ measurement_sample) ->
   0 < le_value (slice (header_padded ++ measurement_sample) 28 32)) /\
  le_value (slice (header_padded ++ measurement_sample) 28 32) = 34 /\
  fst (_parse_header (header_padded ++ measurement_sample) (fresh None)) = Return 65 /\
  (_parse_header (header_padded ++ measurement_sample) (fresh None)
     = (Return 65, snd (_parse_header (header_padded ++ measurement_sample) (fresh None))) <->
   exists hdr ev rest more,
     header_padded ++ measurement_sample = encode_header hdr ev ++ rest /\
     header_fits hdr /\ 0 < hdr_event_size hdr /\ spec_header_fits ev /\
     encode_spec_header (signature ev) (platform_class ev) (spec_version_minor ev)
       (spec_version_major ev) (spec_errata ev) (uintn_size ev) (digest_sizes ev)
       (vendor_info ev) ++ rest = hdr_event hdr ++ more /\
     65 = len (encode_header hdr ev) /\
     snd (_parse_header (header_padded ++ measurement_sample) (fresh None))
       = update_self (set_spec_id_header_event ev)
           (update_self (set_spec_id_header hdr) (fresh None))).
Proof.
  assert (H0 : 32 <= len (header_padded ++ measurement_sample) ->
               0 < le_value (slice (header_padded ++ measurement_sample) 28 32))
    by (intros _; vm_compute; reflexivity).
  split; [exact H0 |].
  split; [vm_compute; reflexivity |].
  split; [vm_compute; reflexivity |].
  exact (header_parse_returns_iff (header_padded ++ measurement_sample) (fresh None) 65
           (snd (_parse_header (header_padded ++ measurement_sample) (fresh None))) H0).
Defined.

(** ** Whole logs: the pass and the wire format *)

(** X10.  A pass that returns has decoded a log: the buffer is then a
    sequence of encoded records, each of which fits the registry in force
    where it stands (that of the last header before it, or the one the
    object held), followed by nothing or by a sentinel register index with
    at least 4 bytes after it.  The world it leaves holds the records of
    before followed by the measurement records of that sequence, in
    order; its count has grown by the number of records of the sequence,
    headers included; its header and registry are those of the last
    header record of the sequence, or those of before; nothing is
    logged. *)
Theorem parse_returns_encoded_log : forall w data w',
  _data (self w) = Some data -> registry_ok (self w) ->
  _parse w = (Return tt, w') ->
  exists l term,
    data = encode_log l ++ term /\ log_fits (registry (self w)) l term /\ log_ends term /\
    stored w l w'.
Proof.
  intros w data w' Hd Hok H.
  rewrite (_parse_Some _ _ Hd) in H.
  assert (H0 : 0 <= 0 <= len data) by (pose proof (len_nonneg _ data); lia).
  destruct (_parse_loop_Return_encoded _ _ _ _ _ Hok H0 H)
    as (l & term & Henc & Hfit & Hend & ->).
  exists l, term. split; [exact Henc |]. split; [exact Hfit |]. split; [exact Hend |].
  apply stored_store_log.
Qed.

Lemma parse_returns_encoded_log_witness :
  (_data (self world_parsed) = Some log_sample /\ registry_ok (self world_parsed) /\
   _parse world_parsed = (Return tt, snd (_parse world_parsed))) /\
  length (_event_logs (self world_parsed)) = 1%nat /\
  _count (self world_parsed) = 2 /\
  length (_event_logs (self (snd (_parse world_parsed)))) = 2%nat /\
  _count (self (snd (_parse world_parsed))) = 4 /\
  exists l term,
    log_sample = encode_log l ++ term /\
    log_fits (registry (self world_parsed)) l term /\ log_ends term /\
    stored world_parsed l (snd (_parse world_parsed)).
Proof.
  assert (H1 : _data (self world_parsed) = Some log_sample) by (vm_compute; reflexivity).
  assert (H2 : registry_ok (self world_parsed)).
  { unfold registry_ok. cbv. constructor; [discriminate | constructor]. }
  assert (H3 : _parse world_parsed = (Return tt, snd (_parse world_parsed)))
    by (vm_compute; reflexivity).
  split; [split; [exact H1 | split; [exact H2 | exact H3]] |].
  split; [vm_compute; reflexivity |].
  split; [vm_compute; reflexivity |].
  split; [vm_compute; reflexivity |].
  split; [vm_compute; reflexivity |].
  exact (parse_returns_encoded_log world_parsed log_sample (snd (_parse world_parsed))
           H1 H2 H3).
Defined.

(** The pass over an encoded log no read of which is of zero bytes. *)
Lemma _parse_encoded_stored : forall w l term,
  _data (self w) = Some (encode_log l ++ term) -> registry_ok (self w) ->
  log_fits (registry (self w)) l term -> log_ends term ->
  exists w', _parse w = (Return tt, w') /\ stored w l w'.
Proof.
  intros w l term Hd Hok Hfit Hend.
  exists (update_self (store_log l) w).
  split; [exact (_parse_encoded_log w l term Hd Hok Hfit Hend) | apply stored_store_log].
Qed.

(** X11.  Decoding undoes encoding.  A fresh object over the encoding of
    a log whose records fit and ask for no read of zero bytes (no empty
    payload, digest or declared header event), ended by nothing or by a
    sentinel with 4 bytes after it, parses without error and without
    logging; it then holds the measurement records of the log, in order
    and without the headers, counts every record of the log, headers
    included, and holds the last header record and its SpecHeader. *)
Theorem encoded_log_round_trip : forall l term,
  log_fits [] l term ->
  Forall record_nonempty l ->
  log_ends term ->
  exists w',
    _parse (fresh (Some (encode_log l ++ term))) = (Return tt, w') /\
    LOG w' = [] /\
    _data (self w') = Some (encode_log l ++ term) /\
    _event_logs (self w') = entries_of l /\
    _count (self w') = len l /\
    (_spec_id_header (self w'), _spec_id_header_event (self w'))
      = last_header l (None, None).
Proof.
  intros l term Hfit _ Hend.
  destruct (_parse_encoded_stored (fresh (Some (encode_log l ++ term))) l term
              eq_refl I Hfit Hend) as (w' & Hp & HL & Hd & He & Hc & Hh).
  exists w'. split; [exact Hp |]. split; [exact HL |]. split; [exact Hd |].
  split; [exact He |]. split; [exact Hc | exact Hh].
Qed.

Lemma records_sample_fits : forall term, log_fits [] records_sample term.
Proof.
  intro term.
  assert (Hentry : forall rest,
            record_fits [mkAlgorithmSize 4 32] (MeasurementRecord entry_sample) rest).
  { intros rest. cbn [record_fits]. split.
    - unfold is_measurement, entry_sample, EV_NO_ACTION. cbn [imr_index event_type].
      split; lia.
    - unfold entry_fits.
      cbn [imr_index event_type digests event event_size entry_sample].
      split; [lia |]. split; [lia |]. split; [unfold len; cbn [length]; lia |].
      split; [| split; [reflexivity | unfold len; cbn [length]; lia]].
      constructor; [| constructor].
      split; [cbn [alg_id]; lia |].
      exists (mkAlgorithmSize 4 32). split; reflexivity. }
  unfold records_sample. cbn [log_fits next_registry header_record_sample digest_sizes].
  split; [| split; [| split; [| exact I]]].
  - cbn [record_fits].
    split; [cbn [hdr_imr_index]; lia |]. split; [reflexivity |].
    split.
    { unfold header_fits. cbn [hdr_imr_index hdr_event_type hdr_digest hdr_event_size
                                 hdr_event].
      split; [lia |]. split; [unfold EV_NO_ACTION; lia |]. split; [reflexivity |].
      split; [lia | reflexivity]. }
    split.
    { unfold spec_header_fits.
      cbn [signature platform_class spec_version_minor spec_version_major spec_errata
           uintn_size number_of_algorithms digest_sizes vendor_info_size vendor_info].
      split; [reflexivity |]. split; [lia |]. split; [lia |]. split; [lia |].
      split; [lia |]. split; [lia |]. split; [reflexivity |].
      split; [unfold len; cbn [length]; lia |].
      split; [constructor; [cbn [algo_id digest_size]; lia | constructor] |].
      split; [reflexivity | unfold len; cbn [length]; lia]. }
    eexists. reflexivity.
  - apply Hentry.
  - apply Hentry.
Qed.

Lemma records_sample_nonempty : Forall record_nonempty records_sample.
Proof.
  unfold records_sample. constructor; [cbn; lia |].
  constructor; [exact entry_sample_nonempty |].
  constructor; [exact entry_sample_nonempty | constructor].
Qed.

Lemma term_sample_ends : log_ends term_sample.
Proof.
  right. exists [x00; x00; x00; x00; x2a]. split; [reflexivity |].
  unfold len. cbn [length]. lia.
Qed.

Lemma encoded_log_round_trip_witness :
  (log_fits [] records_sample term_sample /\
   Forall record_nonempty records_sample /\
   log_ends term_sample) /\
  length (entries_of records_sample) = 2%nat /\
  len records_sample = 3 /\
  exists w',
    _parse (fresh (Some (encode_log records_sample ++ term_sample))) = (Return tt, w') /\
    LOG w' = [] /\
    _data (self w') = Some (encode_log records_sample ++ term_sample) /\
    _event_logs (self w') = entries_of records_sample /\
    _count (self w') = len records_sample /\
    (_spec_id_header (self w'), _spec_id_header_event (self w'))
      = last_header records_sample (None, None).
Proof.
  split; [split; [exact (records_sample_fits term_sample)
                 | split; [exact records_sample_nonempty | exact term_sample_ends]] |].
  split; [reflexivity |]. split; [reflexivity |].
  exact (encoded_log_round_trip records_sample term_sample
           (records_sample_fits term_sample) records_sample_nonempty term_sample_ends).
Defined.

(** X12.  A log cut inside the first 8 bytes of a record: when the
    encoded records, which fit and ask for no read of zero bytes, are
    followed by 1 to 7 bytes, the pass raises the reader's OutOfBounds,
    whatever those bytes are (a sentinel register index among them), and
    every record before them stays decoded: the measurement records are
    appended in order, every record is counted, the header and registry
    are those of the last header record; nothing is logged. *)
Theorem truncated_log_raises : forall w l term,
  _data (self w) = Some (encode_log l ++ term) -> registry_ok (self w) ->
  log_fits (registry (self w)) l term ->
  Forall record_nonempty l ->
  0 < len term < 8 ->
  exists w', _parse w = (Raise OutOfBounds, w') /\ stored w l w'.
Proof.
  intros w l term Hd Hok Hfit _ Hlen.
  exists (update_self (store_log l) w). split; [| apply stored_store_log].
  pose proof (cursor_at_start (encode_log l ++ term)) as Hc.
  destruct (reaches_encoded _ _ _ _ _ Hc Hfit) as (Hreach & ((Hi & _) & Hskip)).
  apply (_parse_reaches_Stop _ _ _ _ _ Hd Hok Hreach).
  rewrite Z.add_0_l in *.
  assert (Hl : len (encode_log l ++ term) = len (encode_log l) + len term)
    by apply len_app.
  destruct (Z.le_gt_cases 4 (len term)) as [H4 | H4].
  - apply parse_step_short_prefix; lia.
  - unfold parse_step.
    assert (E : (len (encode_log l) <? len (encode_log l ++ term)) = true)
      by (apply Z.ltb_lt; lia).
    rewrite E, get_uint32_out_of_bounds by lia. reflexivity.
Qed.

Lemma truncated_log_raises_witness :
  (_data (self (fresh (Some (encode_log records_sample ++ sentinel))))
     = Some (encode_log records_sample ++ sentinel) /\
   registry_ok (self (fresh (Some (encode_log records_sample ++ sentinel)))) /\
   log_fits (registry (self (fresh (Some (encode_log records_sample ++ sentinel)))))
     records_sample sentinel /\
   Forall record_nonempty records_sample /\
   0 < len sentinel < 8) /\
  fst (_parse (fresh (Some (encode_log records_sample ++ sentinel)))) = Raise OutOfBounds /\
  length (_event_logs
            (self (snd (_parse (fresh (Some (encode_log records_sample ++ sentinel)))))))
    = 2%nat /\
  _count (self (snd (_parse (fresh (Some (encode_log records_sample ++ sentinel)))))) = 3 /\
  exists w',
    _parse (fresh (Some (encode_log records_sample ++ sentinel)))
      = (Raise OutOfBounds, w') /\
    stored (fresh (Some (encode_log records_sample ++ sentinel))) records_sample w'.
Proof.
  assert (Hlen : 0 < len sentinel < 8) by (unfold len; cbn [length sentinel]; lia).
  split; [split; [reflexivity | split; [exact I | split; [exact (records_sample_fits sentinel)
          | split; [exact records_sample_nonempty | exact Hlen]]]] |].
  split; [vm_compute; reflexivity |].
  split; [vm_compute; reflexivity |].
  split; [vm_compute; reflexivity |].
  exact (truncated_log_raises (fresh (Some (encode_log records_sample ++ sentinel)))
           records_sample sentinel eq_refl I (records_sample_fits sentinel)
           records_sample_nonempty Hlen).
Defined.

(** ** A second call of the selector *)

(** C9.  [select] runs the parse pass whenever it is called.  A buffer
    whose parse returns is the encoding of a sequence of records; a first
    pass from a fresh object leaves the measurement records of that
    sequence and counts all its records, and a call of [select] on any
    object over that buffer, parsed already or not, first appends all
    those measurement records to the stored ones and adds the total record
    count to the count, and only then applies its window.  So a second
    [select] without a window leaves the records twice and the count
    doubled. *)
Theorem select_parses_again : forall data w1,
  _parse (fresh (Some data)) = (Return tt, w1) ->
  exists l term,
    data = encode_log l ++ term /\ log_fits [] l term /\ log_ends term /\
    _event_logs (self w1) = entries_of l /\
    _count (self w1) = len l /\
    (forall start count w,
       _data (self w) = Some data ->
       exists wp,
         _parse w = (Return tt, wp) /\
         select start count w = select_window start count wp /\
         _event_logs (self wp) = _event_logs (self w) ++ entries_of l /\
         _count (self wp) = _count (self w) + len l) /\
    select None None (fresh (Some data)) = (Return tt, w1) /\
    exists w2,
      select None None w1 = (Return tt, w2) /\
      _event_logs (self w2) = entries_of l ++ entries_of l /\
      _count (self w2) = 2 * len l.
Proof.
  intros data w1 H1.
  pose proof H1 as Hloop.
  rewrite (_parse_Some (fresh (Some data)) data eq_refl) in Hloop.
  assert (H0 : 0 <= 0 <= len data) by (pose proof (len_nonneg _ data); lia).
  assert (Hok : registry_ok (self (fresh (Some data)))) by exact I.
  destruct (_parse_loop_Return_encoded _ _ _ _ _ Hok H0 Hloop)
    as (l & term & Henc & Hfit & Hend & Hw1).
  destruct (stored_store_log (fresh (Some data)) l) as (_ & _ & He & Hc & _).
  rewrite <- Hw1 in He, Hc. cbn [fresh self __init__ _event_logs _count app] in He, Hc.
  rewrite Z.add_0_l in Hc.
  exists l, term.
  split; [exact Henc |]. split; [exact Hfit |]. split; [exact Hend |].
  split; [exact He |]. split; [exact Hc |].
  assert (Hgen : forall start count w,
            _data (self w) = Some data ->
            exists wp,
              _parse w = (Return tt, wp) /\
              select start count w = select_window start count wp /\
              _event_logs (self wp) = _event_logs (self w) ++ entries_of l /\
              _count (self wp) = _count (self w) + len l).
  { intros start count w Hd.
    destruct (_parse_again data w1 w H1 Hd) as (wp & Hp & Hr & Hcn).
    exists wp. split; [exact Hp |].
    split; [apply select_after_parse; exact Hp |].
    rewrite <- He, <- Hc. split; assumption. }
  split; [exact Hgen |].
  split; [rewrite (select_after_parse _ _ _ _ H1); reflexivity |].
  pose proof (_parse_grows _ _ H1) as (Hd & _).
  destruct (Hgen None None w1 Hd) as (w2 & Hp & Hs & Hr & Hcn).
  exists w2. split; [rewrite Hs; reflexivity |].
  split; [rewrite Hr, He; reflexivity | rewrite Hcn, Hc; lia].
Qed.

Lemma select_parses_again_witness :
  _parse (fresh (Some log_sample)) = (Return tt, world_parsed) /\
  length (_event_logs (self world_parsed)) = 1%nat /\
  _count (self world_parsed) = 2 /\
  select None None world_parsed = (Return tt, snd (select None None world_parsed)) /\
  length (_event_logs (self (snd (select None None world_parsed)))) = 2%nat /\
  _count (self (snd (select None None world_parsed))) = 4 /\
  exists l term,
    log_sample = encode_log l ++ term /\ log_fits [] l term /\ log_ends term /\
    _event_logs (self world_parsed) = entries_of l /\
    _count (self world_parsed) = len l /\
    (forall start count w,
       _data (self w) = Some log_sample ->
       exists wp,
         _parse w = (Return tt, wp) /\
         select start count w = select_window start count wp /\
         _event_logs (self wp) = _event_logs (self w) ++ entries_of l /\
         _count (self wp) = _count (self w) + len l) /\
    select None None (fresh (Some log_sample)) = (Return tt, world_parsed) /\
    exists w2,
      select None None world_parsed = (Return tt, w2) /\
      _event_logs (self w2) = entries_of l ++ entries_of l /\
      _count (self w2) = 2 * len l.
Proof.
  assert (H1 : _parse (fresh (Some log_sample)) = (Return tt, world_parsed))
    by (vm_compute; reflexivity).
  split; [exact H1 |].
  split; [vm_compute; reflexivity |].
  split; [vm_compute; reflexivity |].
  split; [vm_compute; reflexivity |].
  split; [vm_compute; reflexivity |].
  split; [vm_compute; reflexivity |].
  exact (select_parses_again log_sample world_parsed H1).
Defined.
